(** * Traffic allocation engine of switch-topology-graph: a shallow embedding

    Rates, demands and capacities are modelled as exact rationals [Q]; the
    Python floats of the source are not modelled bit for bit.  JSON objects
    (Python dicts) are association lists, in insertion order, since the
    allocators iterate over them and the order is observable. *)

From Stdlib Require Import List Bool String Ascii ZArith QArith Qminmax Lqa Lia Sorted Permutation.
Import ListNotations.
Open Scope string_scope.

(* ------------------------------------------------------------------ *)
(** ** Python string helpers used by the allocation-key convention *)

(** [strip_prefix sep s] is [Some rest] when [s = sep ++ rest]. *)
Fixpoint strip_prefix (sep s : string) : option string :=
  match sep, s with
  | EmptyString, _ => Some s
  | String c sep', String c' s' =>
      if Ascii.eqb c c' then strip_prefix sep' s' else None
  | String _ _, EmptyString => None
  end.

(** Does [sep] occur in [s]? *)
Fixpoint contains (sep s : string) : bool :=
  match strip_prefix sep s with
  | Some _ => true
  | None => match s with
            | EmptyString => false
            | String _ s' => contains sep s'
            end
  end.

(** Split at the first occurrence of [sep]: [Some (before, after)]. *)
Fixpoint split_once (sep s : string) : option (string * string) :=
  match strip_prefix sep s with
  | Some rest => Some (EmptyString, rest)
  | None => match s with
            | EmptyString => None
            | String c s' =>
                match split_once sep s' with
                | Some (a, b) => Some (String c a, b)
                | None => None
                end
            end
  end.

(** Python [s.split(sep)] for a non-empty [sep]: every occurrence, from the
    left, without overlaps.  The fuel [length s] suffices since each
    occurrence consumes at least one character. *)
Fixpoint py_split_fuel (fuel : nat) (sep s : string) : list string :=
  match fuel with
  | O => [s]
  | S f => match split_once sep s with
           | Some (a, b) => a :: py_split_fuel f sep b
           | None => [s]
           end
  end.

Definition py_split (sep s : string) : list string :=
  py_split_fuel (length s) sep s.

(** Python [s.split(sep, 1)]. *)
Definition py_split1 (sep s : string) : list string :=
  match split_once sep s with
  | Some (a, b) => [a; b]
  | None => [s]
  end.

(** The allocation key [f"{h}_{p}_to_{d}"]. *)
Definition alloc_key (h p d : string) : string :=
  h ++ "_" ++ p ++ "_to_" ++ d.

(** Key parsing of [performance_analyzer.analyze_performance]:
    [parts = key.split('_to_')]; [h_p_part = parts[0]]; [dest = parts[1]]
    (an [IndexError] when there is no ["_to_"]: [None]);
    [path_id_parts = h_p_part.split('_', 1)]; a single part is skipped with a
    warning (also [None] here).  The host is [path_id_parts[0]]. *)
Definition parse_key (key : string) : option (string * string * string) :=
  match py_split "_to_" key with
  | h_p :: dest :: _ =>
      match py_split1 "_" h_p with
      | h :: p :: _ => Some (h, p, dest)
      | _ => None
      end
  | _ => None
  end.

(* ------------------------------------------------------------------ *)
(** ** Python dictionaries and sums *)

(** A dict with string keys, in insertion order. *)
Definition dict (V : Type) := list (string * V).

(** [m.get(k)] *)
Fixpoint dget {V : Type} (m : dict V) (k : string) : option V :=
  match m with
  | [] => None
  | (k', v) :: m' => if String.eqb k k' then Some v else dget m' k
  end.

(** [m.get(k, dflt)] *)
Definition dget_or {V : Type} (m : dict V) (k : string) (dflt : V) : V :=
  match dget m k with Some v => v | None => dflt end.

(** [m[k] = v]: in place for a present key, appended otherwise. *)
Fixpoint dset {V : Type} (m : dict V) (k : string) (v : V) : dict V :=
  match m with
  | [] => [(k, v)]
  | (k', v') :: m' =>
      if String.eqb k k' then (k', v) :: m' else (k', v') :: dset m' k v
  end.

(** [m.pop(k, None)]: removes the entry of [k]. *)
Fixpoint dremove {V : Type} (m : dict V) (k : string) : dict V :=
  match m with
  | [] => []
  | (k', v) :: m' => if String.eqb k k' then m' else (k', v) :: dremove m' k
  end.

(** [sum(...)] over rationals. *)
Fixpoint qsum (l : list Q) : Q :=
  match l with [] => 0 | x :: l' => x + qsum l' end.

(** [x in l] for a list of strings. *)
Definition mem (x : string) (l : list string) : bool :=
  existsb (String.eqb x) l.

(** [a < b] and [a > 0] as booleans. *)
Definition qltb (a b : Q) : bool := negb (Qle_bool b a).

(** Python truthiness of a list or dict: empty. *)
Definition seq_empty {A : Type} (l : list A) : bool :=
  match l with [] => true | _ => false end.

(** [1e-6] *)
Definition eps6 : Q := 1 # 1000000.

(* ------------------------------------------------------------------ *)
(** ** Scenario model (the JSON input file) *)

Record scenario := mk_scenario {
  endhosts : list string;
  egress_interfaces : list string;
  destinations : list string;
  paths_per_endhost : dict (list string);
  path_to_egress_mapping : dict string;
  egress_to_destination_reachability : dict (list string);
  endhost_uplinks : dict Q;
  egress_capacities : dict Q;
  egress_costs : dict Q;
  egress_base_costs : dict Q;
  egress_latencies : dict Q;
  egress_types : dict string;
  traffic_per_destination : dict Q
}.

(** An allocation key [(h, p, d)].  The source stores the flow under the
    string [alloc_key h p d]; on the names the scenario generators produce
    that encoding is injective (see [alloc_key_roundtrip]), so the flow is
    kept here under the triple itself. *)
Definition triple := (string * string * string)%type.

Definition triple_eqb (x y : triple) : bool :=
  let '(h, p, d) := x in let '(h', p', d') := y in
  String.eqb h h' && String.eqb p p' && String.eqb d d'.

Definition t_host (x : triple) : string := let '(h, _, _) := x in h.
Definition t_path (x : triple) : string := let '(_, p, _) := x in p.
Definition t_dest (x : triple) : string := let '(_, _, d) := x in d.

Definition allocation := list (triple * Q).

(** [allocation[key] += v] on a [defaultdict(float)]. *)
Fixpoint alloc_add (k : triple) (v : Q) (a : allocation) : allocation :=
  match a with
  | [] => [(k, v)]
  | (k', v') :: a' =>
      if triple_eqb k k' then (k', v' + v) :: a' else (k', v') :: alloc_add k v a'
  end.

(** Flow of an allocation out of host [h], and through the paths mapped to
    egress [e] by [path_to_egress_mapping]. *)
Definition host_flow (a : allocation) (h : string) : Q :=
  qsum (map snd (filter (fun kv => String.eqb (t_host (fst kv)) h) a)).

Definition egress_flow (pm : dict string) (a : allocation) (e : string) : Q :=
  qsum (map snd (filter (fun kv =>
          match dget pm (t_path (fst kv)) with
          | Some e' => String.eqb e' e
          | None => false
          end) a)).

Definition dest_flow (a : allocation) (d : string) : Q :=
  qsum (map snd (filter (fun kv => String.eqb (t_dest (fst kv)) d) a)).

Definition total_flow (a : allocation) : Q := qsum (map snd a).

(** Sum of the flows of an allocation whose key satisfies [f]. *)
Definition alloc_sum (f : triple -> bool) (a : allocation) : Q :=
  qsum (map snd (filter (fun kv => f (fst kv)) a)).

(** A scenario's rates are non-negative. *)
Definition rates_nonneg (sc : scenario) : Prop :=
  (forall k v, In (k, v) (endhost_uplinks sc) -> 0 <= v) /\
  (forall k v, In (k, v) (egress_capacities sc) -> 0 <= v).

(** The same, as a check on a concrete scenario. *)
Definition rates_nonnegb (sc : scenario) : bool :=
  forallb (fun kv => Qle_bool 0 (snd kv)) (endhost_uplinks sc)
  && forallb (fun kv => Qle_bool 0 (snd kv)) (egress_capacities sc).

(** Every declared demand is non-negative, as a check. *)
Definition demands_nonnegb (sc : scenario) : bool :=
  forallb (fun kv => Qle_bool 0 (snd kv)) (traffic_per_destination sc).

(** Every allocator's result respects host uplinks and egress capacities. *)
Definition respects_capacities (sc : scenario) (a : allocation) : Prop :=
  (forall h, In h (endhosts sc) ->
     host_flow a h <= dget_or (endhost_uplinks sc) h 0) /\
  (forall e, In e (egress_interfaces sc) ->
     egress_flow (path_to_egress_mapping sc) a e
       <= dget_or (egress_capacities sc) e 0).

(** A host with no uplink and an egress with no capacity carry no flow. *)
Definition zero_capacity_zero_flow (sc : scenario) (a : allocation) : Prop :=
  (forall h, dget_or (endhost_uplinks sc) h 0 == 0 -> host_flow a h == 0) /\
  (forall e, dget_or (egress_capacities sc) e 0 == 0 ->
     egress_flow (path_to_egress_mapping sc) a e == 0).

(* ------------------------------------------------------------------ *)
(** ** Behavioural simulators (heuristic allocators) *)

(** A float that may be [float('inf')], as in
    [latencies.get(egress, float('inf'))]. *)
Inductive xq := Fin (q : Q) | Inf.

Definition lat_lt (a b : xq) : bool :=
  match a, b with
  | Fin x, Fin y => qltb x y
  | Fin _, Inf => true
  | Inf, _ => false
  end.

(** [{"path": path, "egress": egress, "latency": ...}] *)
Record path_info := mk_path_info {
  pi_path : string;
  pi_egress : string;
  pi_latency : xq
}.

Definition latency_of (sc : scenario) (e : string) : xq :=
  match dget (egress_latencies sc) e with Some q => Fin q | None => Inf end.

(** The candidate paths of [h] towards [d]: [for path in
    paths_per_endhost.get(h, [])], [egress = path_map.get(path)], kept
    when [egress] is truthy and [d in reachability.get(egress, [])], and,
    when [keep] says so (the transit filter of round 1). *)
Definition candidate_paths (keep : string -> bool) (sc : scenario)
    (h d : string) : list path_info :=
  flat_map (fun path =>
    match dget (path_to_egress_mapping sc) path with
    | Some egress =>
        if negb (String.eqb egress "")
           && mem d (dget_or (egress_to_destination_reachability sc) egress [])
           && keep egress
        then [mk_path_info path egress (latency_of sc egress)]
        else []
    | None => []
    end) (dget_or (paths_per_endhost sc) h []).

(** The test the candidate loop applies to one path of the host. *)
Definition candidate_ok (keep : string -> bool) (sc : scenario) (d path : string) : bool :=
  match dget (path_to_egress_mapping sc) path with
  | Some egress =>
      negb (String.eqb egress "")
      && mem d (dget_or (egress_to_destination_reachability sc) egress [])
      && keep egress
  | None => false
  end.

(** Round 3 and [fair_share_simulator]: no filter. *)
Definition possible_paths (sc : scenario) (h d : string) : list path_info :=
  candidate_paths (fun _ => true) sc h d.

(** Round 1: [if not use_transit_links: if egress_types.get(egress) ==
    'transit': continue]. *)
Definition keep_r1 (sc : scenario) (use_transit_links : bool) (egress : string) : bool :=
  use_transit_links
  || negb (match dget (egress_types sc) egress with
           | Some t => String.eqb t "transit"
           | None => false
           end).

Definition possible_paths_r1 (sc : scenario) (use_transit_links : bool)
    (h d : string) : list path_info :=
  candidate_paths (keep_r1 sc use_transit_links) sc h d.

(** [sorted(possible_paths, key=lambda x: x['latency'])]: a stable sort,
    as an insertion sort that puts an element after the earlier ones of
    equal latency. *)
Fixpoint insert_by_latency (x : path_info) (l : list path_info) :
    list path_info :=
  match l with
  | [] => [x]
  | y :: l' =>
      if lat_lt (pi_latency x) (pi_latency y) then x :: l
      else y :: insert_by_latency x l'
  end.

Definition sort_by_latency (l : list path_info) : list path_info :=
  fold_left (fun acc x => insert_by_latency x acc) l [].

(** [a] may come before [b] in the sorted order: [not (b < a)]. *)
Definition lat_before (a b : path_info) : Prop :=
  lat_lt (pi_latency b) (pi_latency a) = false.

(** [q]'s latency and [l] are equal for [<]: neither is below the other. *)
Definition same_latency (l : xq) (q : path_info) : bool :=
  negb (lat_lt (pi_latency q) l) && negb (lat_lt l (pi_latency q)).

(** [min(possible_paths, key=lambda x: x['latency'])]: the first path of
    least latency. *)
Definition min_by_latency (p : path_info) (ps : list path_info) : path_info :=
  fold_left (fun best x =>
    if lat_lt (pi_latency x) (pi_latency best) then x else best) ps p.

(** The shared counters and the allocation of one run. *)
Record sim_state := mk_sim_state {
  rem_uplink : dict Q;
  rem_egress : dict Q;
  sim_alloc : allocation
}.

(** One send step: [if sent > 0: allocation[key] += sent;
    rem_uplink[h] -= sent; rem_egress[egress] -= sent]. *)
Definition commit (h p e d : string) (sent : Q) (st : sim_state) : sim_state :=
  if qltb 0 sent then
    mk_sim_state
      (dset (rem_uplink st) h (dget_or (rem_uplink st) h 0 - sent))
      (dset (rem_egress st) e (dget_or (rem_egress st) e 0 - sent))
      (alloc_add (h, p, d) sent (sim_alloc st))
  else st.

(** [min(x, rem_uplink.get(h, 0), rem_egress.get(egress, 0))] *)
Definition clamp (st : sim_state) (h e : string) (x : Q) : Q :=
  Qmin (Qmin x (dget_or (rem_uplink st) h 0)) (dget_or (rem_egress st) e 0).

(** Round 1 thundering herd: fill the sorted paths one by one;
    returns the state and the remaining demand. *)
Fixpoint fill_greedy (h d : string) (remaining : Q) (ps : list path_info)
    (st : sim_state) : sim_state * Q :=
  match ps with
  | [] => (st, remaining)
  | p :: ps' =>
      if Qle_bool remaining eps6 then (st, remaining)
      else
        let can_send := clamp st h (pi_egress p) remaining in
        if qltb 0 can_send then
          fill_greedy h d (remaining - can_send) ps'
            (commit h (pi_path p) (pi_egress p) d can_send st)
        else fill_greedy h d remaining ps' st
  end.

(** Fair share: send [min(traffic_per_path, ...)] on each path in turn. *)
Fixpoint send_each (h d : string) (traffic_per_path : Q) (ps : list path_info)
    (st : sim_state) : sim_state :=
  match ps with
  | [] => st
  | p :: ps' =>
      send_each h d traffic_per_path ps'
        (commit h (pi_path p) (pi_egress p) d
           (clamp st h (pi_egress p) traffic_per_path) st)
  end.

Definition qlen {A : Type} (l : list A) : Q := inject_Z (Z.of_nat (List.length l)).

(** Demand splitting: [host_demands[host][dest] = demand *
    (rem_uplink.get(host, 0) / total_uplink)], keys in the order of
    [traffic_per_destination]. *)
Definition host_demands (sc : scenario) (total_uplink : Q) (h : string) :
    dict Q :=
  map (fun kv => (fst kv, snd kv * (dget_or (endhost_uplinks sc) h 0 / total_uplink)))
      (traffic_per_destination sc).

(** [for h in H: for d, demand in host_demands[h].items(): ...], skipping
    pairs without a candidate path. *)
Definition for_each_pair (sc : scenario) (total_uplink : Q)
    (paths : string -> string -> list path_info)
    (step : string -> string -> Q -> list path_info -> sim_state -> sim_state)
    (st : sim_state) : sim_state :=
  fold_left (fun st h =>
    fold_left (fun st dd =>
      match paths h (fst dd) with
      | [] => st
      | ps => step h (fst dd) (snd dd) ps st
      end) (host_demands sc total_uplink h) st) (endhosts sc) st.

Inductive sim_mode := thundering_herd | fair_share.

(** The fields of a simulator report used here ([scenario_name] and
    [total_cost] are not modelled; [round(., 2)] is left out). *)
Record sim_report := mk_sim_report {
  total_sent_traffic : Q;
  total_unsent_traffic : Q;
  traffic_allocation : allocation
}.

(** What [run_behavioral_sim] gives back: its error dict, its result
    dict, or an exception it raises ([SimRaise]). *)
Inductive sim_result :=
| SimError (msg : string)
| SimOk (r : sim_report)
| SimRaise (exn : string).

Definition initial_state (sc : scenario) : sim_state :=
  mk_sim_state (endhost_uplinks sc) (egress_capacities sc) [].

Definition total_uplink_of (sc : scenario) : Q :=
  qsum (map snd (endhost_uplinks sc)).

Definition finish (sc : scenario) (st : sim_state) : sim_result :=
  let total_sent := total_flow (sim_alloc st) in
  let total_demand := qsum (map snd (traffic_per_destination sc)) in
  SimOk (mk_sim_report total_sent (total_demand - total_sent) (sim_alloc st)).


(** An allocation as the result files hold it: string keys. *)
Definition str_allocation := list (string * Q).

(** The string-keyed [dict(allocation)] a simulator report carries: the
    flow of [(h, p, d)] under [f"{h}_{p}_to_{d}"] (on names for which that
    encoding is injective, see [alloc_key_roundtrip]). *)
Definition str_of_allocation (a : allocation) : str_allocation :=
  map (fun kv => (alloc_key (t_host (fst kv)) (t_path (fst kv)) (t_dest (fst kv)),
                  snd kv)) a.

(** Round 3 [analyze_performance_of_result]:
    [path_id = key.split('_to_')[0].split('_', 1)[1]], an [IndexError]
    ([None]) when the part before the first ["_to_"] has no underscore. *)
Definition path_id_r3 (key : string) : option string :=
  match py_split "_to_" key with
  | h_p :: _ =>
      match py_split1 "_" h_p with
      | _ :: p :: _ => Some p
      | _ => None
      end
  | [] => None
  end.

(** Rounds 1 and 3: [total_cost = sum(v * costs.get(path_map.get(
    k.split('_to_')[0].split('_',1)[1]), 0) for k,v in allocation.items())]
    with [costs = problem_data.get("egress_costs", {})]; [None] is the
    [IndexError] of a key whose part before the first ["_to_"] has no
    underscore. *)
Fixpoint total_cost (pm : dict string) (costs : dict Q) (alloc : str_allocation) :
    option Q :=
  match alloc with
  | [] => Some 0
  | (k, v) :: rest =>
      match path_id_r3 k with
      | None => None
      | Some p =>
          match total_cost pm costs rest with
          | None => None
          | Some c =>
              Some (v * match dget pm p with
                        | Some e => dget_or costs e 0
                        | None => 0
                        end + c)
          end
      end
  end.

(** The end of [run_behavioral_sim] in rounds 1 and 3: [total_cost] is
    computed first (its value is not part of the modelled report), then
    the report of [finish]. *)
Definition finish_r13 (sc : scenario) (st : sim_state) : sim_result :=
  match total_cost (path_to_egress_mapping sc) (egress_costs sc)
          (str_of_allocation (sim_alloc st)) with
  | None => SimRaise "IndexError"
  | Some _ => finish sc st
  end.

(** [switch_eval_round1/run_all_scenarios_thundering_herd.run_behavioral_sim] *)
Definition step_r1 (mode : sim_mode) (h d : string) (demand : Q)
    (ps : list path_info) (st : sim_state) : sim_state :=
  match mode with
  | thundering_herd => fst (fill_greedy h d demand (sort_by_latency ps) st)
  | fair_share => send_each h d (demand / qlen ps) ps st
  end.

Definition run_behavioral_sim_r1 (sc : scenario) (mode : sim_mode)
    (use_transit_links : bool) : sim_result :=
  let total_uplink := total_uplink_of sc in
  if Qeq_bool total_uplink 0 then SimError "Total uplink capacity is zero."
  else finish_r13 sc (for_each_pair sc total_uplink
                    (possible_paths_r1 sc use_transit_links)
                    (step_r1 mode) (initial_state sc)).

(** [switch_eval_round3/run_all_scenarios_final.run_behavioral_sim] (the
    same code as [model_eval/run_all_scenarios.run_behavioral_sim]). *)
Definition step_r3 (mode : sim_mode) (h d : string) (demand : Q)
    (ps : list path_info) (st : sim_state) : sim_state :=
  let paths_to_use :=
    match mode, ps with
    | thundering_herd, p :: ps' => [min_by_latency p ps']
    | _, _ => ps
    end in
  send_each h d (demand / qlen paths_to_use) paths_to_use st.

Definition run_behavioral_sim_r3 (sc : scenario) (mode : sim_mode) : sim_result :=
  let total_uplink := total_uplink_of sc in
  if Qeq_bool total_uplink 0 then SimError "Total uplink capacity is zero."
  else finish_r13 sc (for_each_pair sc total_uplink (possible_paths sc)
                    (step_r3 mode) (initial_state sc)).

(** [fair_share_simulator.simulate_fair_share] ([None] when the total uplink
    is zero; [objective_value] is not modelled).  Its [unsent_traffic]
    bookkeeping for pairs without a path is not part of the result. *)
Definition step_fs (h d : string) (traffic_to_send : Q) (ps : list path_info)
    (st : sim_state) : sim_state :=
  send_each h d (traffic_to_send / qlen ps) ps st.

Definition simulate_fair_share (sc : scenario) : option sim_report :=
  let total_uplink_cap := total_uplink_of sc in
  if Qeq_bool total_uplink_cap 0 then None
  else match finish sc (for_each_pair sc total_uplink_cap (possible_paths sc)
                          step_fs (initial_state sc)) with
       | SimOk r => Some r
       | _ => None
       end.

(* ------------------------------------------------------------------ *)
(** ** Linear programs and the solver boundary *)

(** PuLP variables: [x[(h, p, d)]] (continuous, [lowBound=0]) and
    [y[e]] (binary). *)
Inductive lp_var := XVar (k : triple) | YVar (e : string).

(** An affine expression [lpSum(c * v)]. *)
Definition lin := list (Q * lp_var).

Inductive relop := LEq | LLe.

(** [prob += lhs == rhs] or [prob += lhs <= rhs]. *)
Record constr := mk_constr { c_lhs : lin; c_op : relop; c_rhs : Q }.

Inductive lp_sense := LpMinimize | LpMaximize.

Record lp_problem := mk_lp {
  lp_goal : lp_sense;
  lp_objective : list (xq * lp_var);
  lp_constraints : list constr;
  lp_continuous : list lp_var;
  lp_binary : list lp_var
}.

(** [LpStatus[prob.status]] *)
Inductive lp_status := Optimal | Not_Solved | Infeasible | Unbounded | Undefined.

Definition lp_status_name (s : lp_status) : string :=
  match s with
  | Optimal => "Optimal"
  | Not_Solved => "Not Solved"
  | Infeasible => "Infeasible"
  | Unbounded => "Unbounded"
  | Undefined => "Undefined"
  end.

(** The [varValue] of every variable after [prob.solve()]. *)
Definition lp_values := lp_var -> option Q.

Definition val (vals : lp_values) (v : lp_var) : Q :=
  match vals v with Some q => q | None => 0 end.

Definition eval_lin (vals : lp_values) (l : lin) : Q :=
  qsum (map (fun cv => fst cv * val vals (snd cv)) l).

Definition constr_holds (vals : lp_values) (c : constr) : bool :=
  match c_op c with
  | LEq => Qeq_bool (eval_lin vals (c_lhs c)) (c_rhs c)
  | LLe => Qle_bool (eval_lin vals (c_lhs c)) (c_rhs c)
  end.

(** A point satisfies the bounds, the integrality and the constraints. *)
Definition feasibleb (lp : lp_problem) (vals : lp_values) : bool :=
  forallb (fun v => Qle_bool 0 (val vals v)) (lp_continuous lp)
  && forallb (fun v => Qeq_bool (val vals v) 0 || Qeq_bool (val vals v) 1)
             (lp_binary lp)
  && forallb (constr_holds vals) (lp_constraints lp).

(** The contract of the external solver behind [prob.solve()]: when it
    reports [Optimal], the values it leaves in the variables are a feasible
    point of the problem.  Nothing is assumed of other statuses. *)
Definition solver_sound (solve : lp_problem -> lp_status * lp_values) : Prop :=
  forall lp, fst (solve lp) = Optimal -> feasibleb lp (snd (solve lp)) = true.

(** [LpVariable.dicts("x", keys)]: one variable per distinct key, in the
    order of first occurrence. *)
Fixpoint dedup_triples (l : list triple) : list triple :=
  match l with
  | [] => []
  | k :: l' => k :: filter (fun k' => negb (triple_eqb k k')) (dedup_triples l')
  end.

(** The variable keys: [for h in H: for p in paths_per_endhost.get(h, []):
    egress = path_map.get(p); if not egress or <egress invalid>: continue;
    for d in reachability.get(egress, []): if d in D: append((h, p, d))]. *)
Definition x_vars_keys (valid_egress : string -> bool) (sc : scenario) :
    list triple :=
  flat_map (fun h =>
    flat_map (fun p =>
      match dget (path_to_egress_mapping sc) p with
      | Some egress =>
          if negb (String.eqb egress "") && valid_egress egress then
            map (fun d => (h, p, d))
              (filter (fun d => mem d (destinations sc))
                 (dget_or (egress_to_destination_reachability sc) egress []))
          else []
      | None => []
      end) (dget_or (paths_per_endhost sc) h [])) (endhosts sc).

Definition xsum (keys : list triple) (sel : triple -> bool) : lin :=
  map (fun k => (1, XVar k)) (filter sel keys).

Definition egress_of_path (sc : scenario) (p : string) : option string :=
  dget (path_to_egress_mapping sc) p.

Definition on_egress (sc : scenario) (e : string) (k : triple) : bool :=
  match egress_of_path sc (t_path k) with
  | Some e' => String.eqb e' e
  | None => false
  end.

(** [for d_dest in D: prob += lpSum(x[k] for k if d == d_dest) ==
    T_dest.get(d_dest, 0)] *)
Definition demand_constraints (sc : scenario) (keys : list triple) :=
  map (fun dd => mk_constr (xsum keys (fun k => String.eqb (t_dest k) dd)) LEq
                   (dget_or (traffic_per_destination sc) dd 0))
      (destinations sc).

(** [for h_host in H: prob += lpSum(x[k] for k if h == h_host) <=
    U.get(h_host, 0)] *)
Definition uplink_constraints (sc : scenario) (keys : list triple) :=
  map (fun hh => mk_constr (xsum keys (fun k => String.eqb (t_host k) hh)) LLe
                   (dget_or (endhost_uplinks sc) hh 0))
      (endhosts sc).

(** [for e_egress in E: prob += traffic_on_egress <= Cap.get(e_egress, 0)] *)
Definition capacity_constraints (sc : scenario) (keys : list triple) :=
  map (fun e => mk_constr (xsum keys (on_egress sc e)) LLe
                  (dget_or (egress_capacities sc) e 0))
      (egress_interfaces sc).

(** Round 3, [for e_egress in E]: the capacity constraint, then
    [M = Cap.get(e_egress, 1e9); prob += traffic_on_egress <= M * y[e]]. *)
Definition egress_constraints_r3 (sc : scenario) (keys : list triple) :=
  flat_map (fun e =>
    [mk_constr (xsum keys (on_egress sc e)) LLe
       (dget_or (egress_capacities sc) e 0);
     mk_constr (app (xsum keys (on_egress sc e))
                    [(- dget_or (egress_capacities sc) e 1000000000, YVar e)])
       LLe 0]) (egress_interfaces sc).

(** [{f"{h}_{p}_to_{d}": v.varValue for (h,p,d), v in x.items()
    if v.varValue and v.varValue > 1e-6}] *)
Definition lp_allocation (vals : lp_values) (keys : list triple) : allocation :=
  flat_map (fun k =>
    match vals (XVar k) with
    | Some q => if qltb eps6 q then [(k, q)] else []
    | None => []
    end) (dedup_triples keys).

Definition eval_objective (vals : lp_values) (obj : list (xq * lp_var)) : Q :=
  qsum (map (fun cv => match fst cv with
                       | Fin c => c * val vals (snd cv)
                       | Inf => 0
                       end) obj).

Definition cost_of (sc : scenario) (e : option string) : Q :=
  match e with Some e => dget_or (egress_costs sc) e 0 | None => 0 end.

Record lp_report := mk_lp_report {
  lp_status_of : lp_status;
  lp_total : Q;
  lp_traffic_allocation : allocation
}.

Inductive lp_result := LPError (msg : string) | LPOk (r : lp_report).

Section Solver.

Variable solve : lp_problem -> lp_status * lp_values.

(** [switch_eval_round3/run_all_scenarios_final.solve_cost_lp]: cost LP
    with base costs ([isp_optimal] when minimizing, [isp_pessimal] when
    maximizing).  [lp_total] is the objective value ([round] left out). *)
Definition cost_lp_problem (sc : scenario) (goal : lp_sense)
    (keys : list triple) : lp_problem :=
  mk_lp goal
    (app (map (fun k => (Fin (cost_of sc (egress_of_path sc (t_path k))), XVar k))
              keys)
         (map (fun e => (Fin (dget_or (egress_base_costs sc) e 0), YVar e))
              (egress_interfaces sc)))
    (app (demand_constraints sc keys)
      (app (uplink_constraints sc keys) (egress_constraints_r3 sc keys)))
    (map XVar (dedup_triples keys))
    (map YVar (egress_interfaces sc)).

Definition solve_cost_lp (sc : scenario) (goal : lp_sense) : lp_result :=
  let keys := x_vars_keys (fun e => mem e (egress_interfaces sc)) sc in
  match keys with
  | [] => LPError "No valid variables for LP model could be created."
  | _ =>
      let prob := cost_lp_problem sc goal keys in
      let (status, vals) := solve prob in
      LPOk (mk_lp_report status (eval_objective vals (lp_objective prob))
              (lp_allocation vals keys))
  end.

(** [switch_eval_round3/run_all_scenarios_final.solve_latency_lp]
    ([latency_optimal]): one aggregate demand equality.  [lp_total] is
    [total_sent_traffic]. *)
Definition latency_lp_problem (sc : scenario) (keys : list triple) :
    lp_problem :=
  mk_lp LpMinimize
    (map (fun k => (match egress_of_path sc (t_path k) with
                    | Some e => latency_of sc e
                    | None => Inf
                    end, XVar k)) keys)
    (mk_constr (xsum keys (fun _ => true)) LEq
       (qsum (map snd (traffic_per_destination sc)))
     :: app (uplink_constraints sc keys) (capacity_constraints sc keys))
    (map XVar (dedup_triples keys))
    [].

Definition solve_latency_lp (sc : scenario) : lp_result :=
  let keys := x_vars_keys (fun e => mem e (egress_interfaces sc)) sc in
  match keys with
  | [] => LPError "No valid variables for LP model could be created."
  | _ =>
      let (status, vals) := solve (latency_lp_problem sc keys) in
      LPOk (mk_lp_report status
              (qsum (map (fun k => val vals (XVar k)) (dedup_triples keys)))
              (lp_allocation vals keys))
  end.

(** [lp_model_costs.solve_adversarial_path_selection]: returns
    [(status, objective_value, traffic_allocation)]; [None] stands for
    Python's [None].  The allocation is filled only when the status is
    ["Optimal"]. *)
Definition adversarial_lp_problem (sc : scenario) (goal : lp_sense)
    (keys : list triple) : lp_problem :=
  mk_lp goal
    (map (fun k => (Fin (cost_of sc (egress_of_path sc (t_path k))), XVar k)) keys)
    (app (demand_constraints sc keys)
      (app (uplink_constraints sc keys) (capacity_constraints sc keys)))
    (map XVar (dedup_triples keys))
    [].

Definition solve_adversarial_path_selection (sc : scenario) (goal : lp_sense) :
    string * option Q * option allocation :=
  if negb (negb (seq_empty (endhosts sc)) && negb (seq_empty (egress_interfaces sc))
           && negb (seq_empty (destinations sc))
           && negb (seq_empty (traffic_per_destination sc)))
  then ("Input_Error", None, None)
  else
    let keys := x_vars_keys (fun e => mem e (map fst (egress_costs sc))) sc in
    match keys with
    | [] => ("No_Variables", Some 0, Some [])
    | _ =>
        let prob := adversarial_lp_problem sc goal keys in
        let (status, vals) := solve prob in
        (lp_status_name status, Some (eval_objective vals (lp_objective prob)),
         Some (match status with
               | Optimal =>
                   flat_map (fun k =>
                     match vals (XVar k) with
                     | Some q => if qltb eps6 q then [(k, q)] else []
                     | None => []
                     end) (dedup_triples keys)
               | _ => []
               end))
    end.

(** [switch_eval_round1/run_all_scenarios_thundering_herd.solve_cost_lp]
    (the same code as [model_eval/run_all_scenarios.solve_cost_lp]): the
    cost LP without base costs, over the paths whose egress is a key of
    [egress_costs]; its problem is the one of [lp_model_costs].  The
    allocation is read whatever the status. *)
Definition solve_cost_lp_r1 (sc : scenario) (goal : lp_sense) : lp_result :=
  let keys := x_vars_keys (fun e => mem e (map fst (egress_costs sc))) sc in
  match keys with
  | [] => LPError "No valid variables for LP model."
  | _ =>
      let prob := adversarial_lp_problem sc goal keys in
      let (status, vals) := solve prob in
      LPOk (mk_lp_report status (eval_objective vals (lp_objective prob))
              (lp_allocation vals keys))
  end.

End Solver.

(* ------------------------------------------------------------------ *)
(** ** Performance analyzer *)

(** [traffic_on_egress[egress] += traffic_volume] when [egress] is truthy. *)
Definition add_egress_traffic (pm : dict string) (p : string) (v : Q)
    (acc : dict Q) : dict Q :=
  match dget pm p with
  | Some egress =>
      if String.eqb egress "" then acc
      else dset acc egress (dget_or acc egress 0 + v)
  | None => acc
  end.

Fixpoint traffic_on_egress_r3 (pm : dict string) (alloc : str_allocation)
    (acc : dict Q) : option (dict Q) :=
  match alloc with
  | [] => Some acc
  | (key, v) :: rest =>
      match path_id_r3 key with
      | Some p => traffic_on_egress_r3 pm rest (add_egress_traffic pm p v acc)
      | None => None
      end
  end.

(** [performance_analyzer.analyze_performance]: [parts[1]] raises an
    [IndexError] ([None]) when the key has no ["_to_"]; a key whose
    [h_p_part] has no underscore is skipped with a warning. *)
Fixpoint traffic_on_egress_pa (pm : dict string) (alloc : str_allocation)
    (acc : dict Q) : option (dict Q) :=
  match alloc with
  | [] => Some acc
  | (key, v) :: rest =>
      match py_split "_to_" key with
      | h_p :: _ :: _ =>
          match py_split1 "_" h_p with
          | _ :: p :: _ => traffic_on_egress_pa pm rest (add_egress_traffic pm p v acc)
          | _ => traffic_on_egress_pa pm rest acc
          end
      | _ => None
      end
  end.

Record util_metric := mk_util_metric {
  um_traffic : Q;
  um_capacity : Q;
  um_utilization_percent : Q
}.

(** [for egress, capacity in capacities.items(): traffic =
    traffic_on_egress[egress]; util = (traffic / capacity) * 100 if
    capacity > 0 else 0] ([round(., 2)] left out). *)
Definition egress_utilization (caps : dict Q) (toe : dict Q) : dict util_metric :=
  map (fun ec =>
    let traffic := dget_or toe (fst ec) 0 in
    (fst ec, mk_util_metric traffic (snd ec)
               (if qltb 0 (snd ec) then (traffic / snd ec) * 100 else 0))) caps.

Definition analyze_performance_of_result (pm : dict string) (caps : dict Q)
    (alloc : str_allocation) : option (dict util_metric) :=
  match traffic_on_egress_r3 pm alloc [] with
  | Some toe => Some (egress_utilization caps toe)
  | None => None
  end.

Definition analyze_performance (pm : dict string) (caps : dict Q)
    (alloc : str_allocation) : option (dict util_metric) :=
  match traffic_on_egress_pa pm alloc [] with
  | Some toe => Some (egress_utilization caps toe)
  | None => None
  end.

(** The rest of [analyze_performance]'s loop over the allocation: for a
    key whose path maps to an egress ([if not egress: continue] skips the
    others), [weighted_latency_sum += traffic_volume *
    latencies.get(egress, 0)] when [latencies] is not empty, and
    [total_traffic += traffic_volume]; [parts[1]] raises an [IndexError]
    ([None]) on a key without ["_to_"]. *)
Fixpoint latency_totals_pa (pm : dict string) (lat : dict Q) (alloc : str_allocation)
    (wls total : Q) : option (Q * Q) :=
  match alloc with
  | [] => Some (wls, total)
  | (key, v) :: rest =>
      match py_split "_to_" key with
      | h_p :: _ :: _ =>
          match py_split1 "_" h_p with
          | _ :: p :: _ =>
              match dget pm p with
              | Some egress =>
                  if String.eqb egress "" then latency_totals_pa pm lat rest wls total
                  else latency_totals_pa pm lat rest
                         (if seq_empty lat then wls else wls + v * dget_or lat egress 0)
                         (total + v)
              | None => latency_totals_pa pm lat rest wls total
              end
          | _ => latency_totals_pa pm lat rest wls total
          end
      | _ => None
      end
  end.

(** [if latencies and total_traffic > 0: avg_latency =
    weighted_latency_sum / total_traffic]: the printed average, if any. *)
Definition weighted_average_latency (pm : dict string) (lat : dict Q)
    (alloc : str_allocation) : option (option Q) :=
  match latency_totals_pa pm lat alloc 0 0 with
  | None => None
  | Some (wls, total) =>
      Some (if negb (seq_empty lat) && qltb 0 total then Some (wls / total) else None)
  end.

(** What [analyze_performance_of_result(problem_data, solution_data)]
    makes of a result dict: the dict unchanged, or the dict with its
    [performance_analysis] added. *)
Inductive analyzed := Unchanged | Analyzed (u : dict util_metric).

(** Rounds 1 and 3: [if "error" in solution_data: return solution_data];
    [None] is an [IndexError] while parsing a key, or the exception the
    simulator raised before. *)
Definition analyze_sim_result_r3 (pm : dict string) (caps : dict Q)
    (res : sim_result) : option analyzed :=
  match res with
  | SimRaise _ => None
  | SimError _ => Some Unchanged
  | SimOk r =>
      match analyze_performance_of_result pm caps (str_of_allocation (traffic_allocation r)) with
      | Some u => Some (Analyzed u)
      | None => None
      end
  end.

(** [model_eval/run_all_scenarios.analyze_performance_of_result] has no
    error check: an error dict has no ["traffic_allocation"], read as
    [{}].  [None] is an exception, here or in the simulator before. *)
Definition analyze_sim_result_me (pm : dict string) (caps : dict Q)
    (res : sim_result) : option analyzed :=
  match res with
  | SimRaise _ => None
  | _ =>
      let alloc := match res with
                   | SimOk r => str_of_allocation (traffic_allocation r)
                   | _ => []
                   end in
      match analyze_performance_of_result pm caps alloc with
      | Some u => Some (Analyzed u)
      | None => None
      end
  end.

(** The flow of a string-keyed allocation over the paths that
    [path_to_egress_mapping] maps to egress [e], each key's path read by
    [path_of]. *)
Definition egress_traffic (path_of : string -> option string) (pm : dict string)
    (alloc : str_allocation) (e : string) : Q :=
  qsum (map snd (filter (fun kv =>
    match path_of (fst kv) with
    | Some p => match dget pm p with
                | Some e' => negb (String.eqb e' "") && String.eqb e' e
                | None => false
                end
    | None => false
    end) alloc)).

(** The path of a key as [performance_analyzer] reads it. *)
Definition path_id_pa (key : string) : option string :=
  match py_split "_to_" key with
  | h_p :: _ :: _ =>
      match py_split1 "_" h_p with
      | _ :: p :: _ => Some p
      | _ => None
      end
  | _ => None
  end.

(* ------------------------------------------------------------------ *)
(** ** Invariants of a simulator run *)

(** Every shared counter ([rem_uplink], [rem_egress]) is non-negative. *)
Definition counters_nonneg (st : sim_state) : Prop :=
  (forall k v, In (k, v) (rem_uplink st) -> 0 <= v) /\
  (forall k v, In (k, v) (rem_egress st) -> 0 <= v).

(** The counters account for the flow allocated so far: for every host
    and egress, allocated flow plus remaining capacity is the scenario's
    capacity; and no counter is negative. *)
Definition ledger_inv (sc : scenario) (st : sim_state) : Prop :=
  (forall h, host_flow (sim_alloc st) h + dget_or (rem_uplink st) h 0
             == dget_or (endhost_uplinks sc) h 0) /\
  (forall e, egress_flow (path_to_egress_mapping sc) (sim_alloc st) e
             + dget_or (rem_egress st) e 0
             == dget_or (egress_capacities sc) e 0) /\
  counters_nonneg st.

(** Every flow of an allocation is non-negative. *)
Definition alloc_nonneg (a : allocation) : Prop :=
  forall kv, In kv a -> 0 <= snd kv.

(** The names of a scenario make every allocation key parse:
    [k.split('_to_')[0].split('_',1)[1]] is then the path. *)
Definition keys_parse (sc : scenario) : Prop :=
  (forall h, In h (endhosts sc) -> contains "_" h = false) /\
  (forall h p, In p (dget_or (paths_per_endhost sc) h []) ->
     contains "_to_" ("_" ++ p ++ "_to") = false).

(** Every entry of a simulator allocation is a positive flow from an end
    host, towards a destination with a declared demand, on the path of one
    of the pair's candidates in [paths]. *)
Definition alloc_on_candidates (paths : string -> string -> list path_info)
    (sc : scenario) (a : allocation) : Prop :=
  forall k v, In (k, v) a ->
    0 < v /\ In (t_host k) (endhosts sc) /\
    In (t_dest k) (map fst (traffic_per_destination sc)) /\
    exists q, In q (paths (t_host k) (t_dest k)) /\ pi_path q = t_path k.

(** A path of [ps] uses the egress that [path_to_egress_mapping] gives it. *)
Definition paths_mapped (sc : scenario) (ps : list path_info) : Prop :=
  forall p, In p ps -> dget (path_to_egress_mapping sc) (pi_path p) = Some (pi_egress p).

(* ------------------------------------------------------------------ *)
(** ** A solver that meets the contract *)

(** A solver that proposes the point [cand lp] and reports [Optimal] only
    when the point is feasible (its optimality is not checked; the
    allocators rely on feasibility alone). *)
Definition checking_solver (cand : lp_problem -> lp_values) (lp : lp_problem) :
    lp_status * lp_values :=
  let vals := cand lp in
  if feasibleb lp vals then (Optimal, vals) else (Infeasible, vals).

(** Every [x] variable set to [x], every [y] variable to [y]. *)
Definition uniform_point (x y : Q) : lp_problem -> lp_values :=
  fun _ v => match v with XVar _ => Some x | YVar _ => Some y end.

(* ------------------------------------------------------------------ *)
(** ** The scenarios of the spec's testable properties *)

(** A scenario with other uplinks. *)
Definition set_uplinks (sc : scenario) (u : dict Q) : scenario := {|
  endhosts := endhosts sc;
  egress_interfaces := egress_interfaces sc;
  destinations := destinations sc;
  paths_per_endhost := paths_per_endhost sc;
  path_to_egress_mapping := path_to_egress_mapping sc;
  egress_to_destination_reachability := egress_to_destination_reachability sc;
  endhost_uplinks := u;
  egress_capacities := egress_capacities sc;
  egress_costs := egress_costs sc;
  egress_base_costs := egress_base_costs sc;
  egress_latencies := egress_latencies sc;
  egress_types := egress_types sc;
  traffic_per_destination := traffic_per_destination sc
|}.

(** A scenario with another reachability map. *)
Definition set_reachability (sc : scenario) (reach : dict (list string)) : scenario := {|
  endhosts := endhosts sc;
  egress_interfaces := egress_interfaces sc;
  destinations := destinations sc;
  paths_per_endhost := paths_per_endhost sc;
  path_to_egress_mapping := path_to_egress_mapping sc;
  egress_to_destination_reachability := reach;
  endhost_uplinks := endhost_uplinks sc;
  egress_capacities := egress_capacities sc;
  egress_costs := egress_costs sc;
  egress_base_costs := egress_base_costs sc;
  egress_latencies := egress_latencies sc;
  egress_types := egress_types sc;
  traffic_per_destination := traffic_per_destination sc
|}.

(** A scenario with other base costs. *)
Definition set_base_costs (sc : scenario) (b : dict Q) : scenario := {|
  endhosts := endhosts sc;
  egress_interfaces := egress_interfaces sc;
  destinations := destinations sc;
  paths_per_endhost := paths_per_endhost sc;
  path_to_egress_mapping := path_to_egress_mapping sc;
  egress_to_destination_reachability := egress_to_destination_reachability sc;
  endhost_uplinks := endhost_uplinks sc;
  egress_capacities := egress_capacities sc;
  egress_costs := egress_costs sc;
  egress_base_costs := b;
  egress_latencies := egress_latencies sc;
  egress_types := egress_types sc;
  traffic_per_destination := traffic_per_destination sc
|}.

(** A scenario with other paths. *)
Definition set_paths (sc : scenario) (ppe : dict (list string)) (pm : dict string) :
    scenario := {|
  endhosts := endhosts sc;
  egress_interfaces := egress_interfaces sc;
  destinations := destinations sc;
  paths_per_endhost := ppe;
  path_to_egress_mapping := pm;
  egress_to_destination_reachability := egress_to_destination_reachability sc;
  endhost_uplinks := endhost_uplinks sc;
  egress_capacities := egress_capacities sc;
  egress_costs := egress_costs sc;
  egress_base_costs := egress_base_costs sc;
  egress_latencies := egress_latencies sc;
  egress_types := egress_types sc;
  traffic_per_destination := traffic_per_destination sc
|}.

(** Two hosts with uplink 100, a transit egress (capacity 50, latency 60,
    cost 10) and a peering egress (capacity 30, latency 15, cost 1), both
    reaching ["X"], which has demand [demand]. *)
Definition two_host_scenario (demand : Q) : scenario := {|
  endhosts := ["h1"; "h2"];
  egress_interfaces := ["transit"; "peering"];
  destinations := ["X"];
  paths_per_endhost :=
    [("h1", ["p_h1_transit"; "p_h1_peering"]);
     ("h2", ["p_h2_transit"; "p_h2_peering"])];
  path_to_egress_mapping :=
    [("p_h1_transit", "transit"); ("p_h1_peering", "peering");
     ("p_h2_transit", "transit"); ("p_h2_peering", "peering")];
  egress_to_destination_reachability :=
    [("transit", ["X"]); ("peering", ["X"])];
  endhost_uplinks := [("h1", 100); ("h2", 100)];
  egress_capacities := [("transit", 50); ("peering", 30)];
  egress_costs := [("transit", 10); ("peering", 1)];
  egress_base_costs := [];
  egress_latencies := [("transit", 60); ("peering", 15)];
  egress_types := [("transit", "transit"); ("peering", "peering")];
  traffic_per_destination := [("X", demand)]
|}.

(** One host ["h1"] (uplink 100) with four paths to ["X"], over egresses
    ["e1"] to ["e4"] (capacity 100 each, latencies 10, 20, 30 and 40);
    ["X"] has demand 40. *)
Definition four_path_scenario : scenario := {|
  endhosts := ["h1"];
  egress_interfaces := ["e1"; "e2"; "e3"; "e4"];
  destinations := ["X"];
  paths_per_endhost := [("h1", ["p_h1_e1"; "p_h1_e2"; "p_h1_e3"; "p_h1_e4"])];
  path_to_egress_mapping :=
    [("p_h1_e1", "e1"); ("p_h1_e2", "e2"); ("p_h1_e3", "e3"); ("p_h1_e4", "e4")];
  egress_to_destination_reachability :=
    [("e1", ["X"]); ("e2", ["X"]); ("e3", ["X"]); ("e4", ["X"])];
  endhost_uplinks := [("h1", 100)];
  egress_capacities := [("e1", 100); ("e2", 100); ("e3", 100); ("e4", 100)];
  egress_costs := [("e1", 1); ("e2", 1); ("e3", 1); ("e4", 1)];
  egress_base_costs := [];
  egress_latencies := [("e1", 10); ("e2", 20); ("e3", 30); ("e4", 40)];
  egress_types := [("e1", "peering"); ("e2", "peering"); ("e3", "peering");
                   ("e4", "peering")];
  traffic_per_destination := [("X", 40)]
|}.

(** Modelled from the spec's words ("Fair share (N paths)"), for comparison
    with the simulators: the [N] lowest-latency candidates, or all of them
    when there are fewer than [N]. *)
Definition lowest_latency_paths (N : nat) (ps : list path_info) : list path_info :=
  firstn N (sort_by_latency ps).

(* ================================================================== *)
(** * Proofs *)

(* ------------------------------------------------------------------ *)
(** ** The allocation-key convention *)

Lemma strip_prefix_app (sep b : string) :
  strip_prefix sep (sep ++ b) = Some b.
Proof.
  induction sep as [|c sep IH]; simpl; [reflexivity|].
  now rewrite Ascii.eqb_refl.
Qed.

Lemma strip_prefix_long (sep x y : string) :
  strip_prefix sep x = None -> (length sep <= length x)%nat ->
  strip_prefix sep (x ++ y) = None.
Proof.
  revert x. induction sep as [|c sep IH]; intros x Hn Hl; [discriminate|].
  destruct x as [|c' x]; simpl in *; [lia|].
  destruct (Ascii.eqb c c'); [apply IH; [exact Hn|lia]|reflexivity].
Qed.

Lemma contains_cons_false (sep : string) (c : ascii) (s : string) :
  contains sep (String c s) = false ->
  strip_prefix sep (String c s) = None /\ contains sep s = false.
Proof.
  simpl. destruct (strip_prefix sep (String c s)); [discriminate|auto].
Qed.

Lemma length_append (a b : string) : length (a ++ b) = (length a + length b)%nat.
Proof. induction a; simpl; auto. Qed.

Lemma append_assoc (a b c : string) : (a ++ b) ++ c = a ++ (b ++ c).
Proof. induction a; simpl; congruence. Qed.

Lemma split_once_unfold (sep s : string) :
  split_once sep s =
  match strip_prefix sep s with
  | Some rest => Some (EmptyString, rest)
  | None => match s with
            | EmptyString => None
            | String c s' =>
                match split_once sep s' with
                | Some (a, b) => Some (String c a, b)
                | None => None
                end
            end
  end.
Proof. destruct s; reflexivity. Qed.

(** If [sep = init ++ z] has no occurrence in [a ++ init], then the first
    occurrence of [sep] in [a ++ sep ++ b] is the displayed one. *)
Lemma split_once_app (init : string) (z : ascii) (a b : string) :
  contains (init ++ String z EmptyString) (a ++ init) = false ->
  split_once (init ++ String z EmptyString)
             (a ++ (init ++ String z EmptyString) ++ b) = Some (a, b).
Proof.
  set (sep := init ++ String z EmptyString).
  induction a as [|c a IH]; intros H.
  - simpl. rewrite split_once_unfold, strip_prefix_app. reflexivity.
  - apply contains_cons_false in H as [Hs Hc].
    cbn [append]. rewrite split_once_unfold.
    assert (Hn : strip_prefix sep (String c (a ++ sep ++ b)) = None).
    { replace (String c (a ++ sep ++ b))
        with (String c (a ++ init) ++ String z b).
      - apply strip_prefix_long; [exact Hs|].
        unfold sep. rewrite length_append. simpl.
        rewrite length_append. lia.
      - simpl. f_equal. unfold sep.
        rewrite append_assoc, append_assoc. reflexivity. }
    rewrite Hn, (IH Hc). reflexivity.
Qed.

Lemma split_once_none (sep s : string) :
  contains sep s = false -> split_once sep s = None.
Proof.
  induction s as [|c s IH]; intros H; rewrite split_once_unfold;
    simpl in H; destruct (strip_prefix sep _); try discriminate; auto.
  now rewrite (IH H).
Qed.

Lemma py_split_fuel_none (f : nat) (sep s : string) :
  split_once sep s = None -> py_split_fuel f sep s = [s].
Proof. destruct f; simpl; [reflexivity|]. now intros ->. Qed.

(** A host without ['_'] cannot start an occurrence of a separator that
    begins with ['_']. *)
Lemma contains_underscore_prefix (x h b : string) :
  contains "_" h = false ->
  contains (String "_" x) (h ++ b) = contains (String "_" x) b.
Proof.
  induction h as [|c h IH]; intros H; [reflexivity|].
  cbn [contains strip_prefix append] in H |- *. destruct (Ascii.eqb "_" c); [discriminate|].
  apply IH. exact H.
Qed.

Lemma append_empty_r (s : string) : s ++ EmptyString = s.
Proof. induction s; simpl; congruence. Qed.

Lemma py_split_key (h p d : string) :
  contains "_" h = false ->
  contains "_to_" ("_" ++ p ++ "_to") = false ->
  contains "_to_" d = false ->
  py_split "_to_" (alloc_key h p d) = [h ++ "_" ++ p; d].
Proof.
  intros Hh Hp Hd.
  assert (Hk : alloc_key h p d = (h ++ "_" ++ p) ++ ("_to" ++ "_") ++ d).
  { unfold alloc_key. rewrite !append_assoc. reflexivity. }
  assert (Hs : split_once ("_to" ++ String "_" EmptyString) (alloc_key h p d)
               = Some (h ++ "_" ++ p, d)).
  { rewrite Hk. apply split_once_app.
    rewrite append_assoc.
    change ("_to" ++ String "_" EmptyString) with (String "_" "to_").
    rewrite contains_underscore_prefix by exact Hh. exact Hp. }
  unfold py_split.
  destruct (length (alloc_key h p d)) as [|f] eqn:Hl.
  - exfalso. rewrite Hk in Hl. rewrite !length_append in Hl. simpl in Hl. lia.
  - simpl. simpl in Hs. rewrite Hs.
    rewrite py_split_fuel_none by (apply split_once_none; exact Hd).
    reflexivity.
Qed.

Lemma py_split1_host (h p : string) :
  contains "_" h = false -> py_split1 "_" (h ++ "_" ++ p) = [h; p].
Proof.
  intros Hh. unfold py_split1.
  pose proof (split_once_app EmptyString "_" h p) as E.
  simpl in E |- *. rewrite append_empty_r in E. rewrite (E Hh). reflexivity.
Qed.

(** C7 (amended): the key ["{h}_{p}_to_{d}"] parses back to [(h, p, d)]
    when the host has no underscore, the destination has no ["_to_"], and
    ["_{p}_to"] has no ["_to_"] (the path contains no ["_to_"], does not end
    in ["_to"], and is neither ["to"] nor starts with ["to_"]). *)
Theorem alloc_key_roundtrip (h p d : string) :
  contains "_" h = false ->
  contains "_to_" ("_" ++ p ++ "_to") = false ->
  contains "_to_" d = false ->
  parse_key (alloc_key h p d) = Some (h, p, d).
Proof.
  intros Hh Hp Hd. unfold parse_key.
  rewrite (py_split_key h p d Hh Hp Hd), (py_split1_host h p Hh).
  reflexivity.
Qed.

Lemma alloc_key_roundtrip_witness :
  contains "_" "h1" = false /\
  contains "_to_" ("_" ++ "p_h1_e2" ++ "_to") = false /\
  contains "_to_" "D_Peer_e2" = false /\
  parse_key (alloc_key "h1" "p_h1_e2" "D_Peer_e2")
  = Some ("h1", "p_h1_e2", "D_Peer_e2").
Proof.
  split; [reflexivity|]. split; [reflexivity|]. split; [reflexivity|].
  apply alloc_key_roundtrip; reflexivity.
Defined.

(** C7 (counterexample): host ["h"] has no underscore and neither the path
    ["x_to"] nor the destination ["d"] contains ["_to_"], yet the key
    ["h_x_to_to_d"] parses as host ["h"], path ["x"], destination ["to_d"]. *)
Lemma alloc_key_roundtrip_counterexample :
  contains "_" "h" = false /\
  contains "_to_" "h" = false /\
  contains "_to_" "x_to" = false /\
  contains "_to_" "d" = false /\
  parse_key (alloc_key "h" "x_to" "d") = Some ("h", "x", "to_d") /\
  parse_key (alloc_key "h" "x_to" "d") <> Some ("h", "x_to", "d").
Proof.
  repeat split; try reflexivity. vm_compute. congruence.
Qed.

(* ------------------------------------------------------------------ *)
(** ** Dictionaries, sums and the shared counters *)

Lemma qltb_true (a b : Q) : qltb a b = true <-> a < b.
Proof.
  unfold qltb. rewrite negb_true_iff.
  split; intros H.
  - apply Qnot_le_lt. intros Hle. apply Qle_bool_iff in Hle. congruence.
  - destruct (Qle_bool b a) eqn:E; [|reflexivity].
    apply Qle_bool_iff in E. exfalso. apply (Qlt_not_le _ _ H E).
Qed.

Lemma qltb_false (a b : Q) : qltb a b = false <-> b <= a.
Proof.
  unfold qltb. rewrite negb_false_iff. apply Qle_bool_iff.
Qed.

Lemma Qmin_cases (a b : Q) :
  (Qmin a b = a /\ a <= b) \/ (Qmin a b = b /\ b < a).
Proof.
  unfold Qmin, GenericMinMax.gmin.
  destruct (Qcompare_spec a b) as [H|H|H].
  - left. split; [reflexivity|]. rewrite H. apply Qle_refl.
  - left. split; [reflexivity|]. apply Qlt_le_weak. exact H.
  - right. split; [reflexivity|exact H].
Qed.

Lemma Qmin_le_l (a b : Q) : Qmin a b <= a.
Proof. destruct (Qmin_cases a b) as [[-> _]|[-> H]]; lra. Qed.

Lemma Qmin_le_r (a b : Q) : Qmin a b <= b.
Proof. destruct (Qmin_cases a b) as [[-> H]|[-> _]]; lra. Qed.

Lemma clamp_le (st : sim_state) (h e : string) (x : Q) :
  clamp st h e x <= x /\
  clamp st h e x <= dget_or (rem_uplink st) h 0 /\
  clamp st h e x <= dget_or (rem_egress st) e 0.
Proof.
  unfold clamp.
  pose proof (Qmin_le_l (Qmin x (dget_or (rem_uplink st) h 0))
                        (dget_or (rem_egress st) e 0)).
  pose proof (Qmin_le_r (Qmin x (dget_or (rem_uplink st) h 0))
                        (dget_or (rem_egress st) e 0)).
  pose proof (Qmin_le_l x (dget_or (rem_uplink st) h 0)).
  pose proof (Qmin_le_r x (dget_or (rem_uplink st) h 0)).
  repeat split; lra.
Qed.

(** [clamp] is one of its three arguments. *)
Lemma clamp_cases (st : sim_state) (h e : string) (x : Q) :
  clamp st h e x = x \/ clamp st h e x = dget_or (rem_uplink st) h 0 \/
  clamp st h e x = dget_or (rem_egress st) e 0.
Proof.
  unfold clamp.
  destruct (Qmin_cases (Qmin x (dget_or (rem_uplink st) h 0))
                       (dget_or (rem_egress st) e 0)) as [[-> _]|[-> _]];
    [|auto].
  destruct (Qmin_cases x (dget_or (rem_uplink st) h 0)) as [[-> _]|[-> _]];
    auto.
Qed.

Lemma dget_or_dset {V : Type} (m : dict V) (k k' : string) (v d : V) :
  dget_or (dset m k v) k' d = if String.eqb k' k then v else dget_or m k' d.
Proof.
  unfold dget_or. induction m as [|[k0 v0] m IH]; simpl.
  - destruct (String.eqb k' k); reflexivity.
  - destruct (String.eqb k k0) eqn:E1; simpl.
    + apply String.eqb_eq in E1. subst k0.
      destruct (String.eqb k' k); reflexivity.
    + destruct (String.eqb k' k0) eqn:E2.
      * apply String.eqb_eq in E2. subst k0.
        destruct (String.eqb k' k) eqn:E3; [|reflexivity].
        apply String.eqb_eq in E3. subst k'. rewrite String.eqb_refl in E1.
        discriminate.
      * exact IH.
Qed.

Lemma dget_or_nonneg (m : dict Q) (k : string) :
  (forall k' v, In (k', v) m -> 0 <= v) -> 0 <= dget_or m k 0.
Proof.
  unfold dget_or. induction m as [|[k0 v0] m IH]; simpl; intros H.
  - apply Qle_refl.
  - destruct (String.eqb k k0).
    + apply (H k0). left. reflexivity.
    + apply IH. intros k' v Hin. apply (H k'). right. exact Hin.
Qed.

Lemma triple_eqb_eq (x y : triple) : triple_eqb x y = true -> x = y.
Proof.
  destruct x as [[h p] d], y as [[h' p'] d']. simpl.
  intros H. apply andb_prop in H as [H H3]. apply andb_prop in H as [H1 H2].
  apply String.eqb_eq in H1, H2, H3. subst. reflexivity.
Qed.

Lemma alloc_sum_add (f : triple -> bool) (k : triple) (v : Q) (a : allocation) :
  alloc_sum f (alloc_add k v a) == alloc_sum f a + (if f k then v else 0).
Proof.
  unfold alloc_sum. induction a as [|[k' v'] a IH]; simpl.
  - destruct (f k); simpl; lra.
  - destruct (triple_eqb k k') eqn:E.
    + apply triple_eqb_eq in E. subst k'. simpl.
      destruct (f k); simpl; lra.
    + simpl. destruct (f k'); simpl; rewrite IH; lra.
Qed.

Lemma host_flow_sum (a : allocation) (h : string) :
  host_flow a h = alloc_sum (fun k => String.eqb (t_host k) h) a.
Proof. reflexivity. Qed.

Lemma egress_flow_sum (pm : dict string) (a : allocation) (e : string) :
  egress_flow pm a e =
  alloc_sum (fun k => match dget pm (t_path k) with
                      | Some e' => String.eqb e' e
                      | None => false
                      end) a.
Proof. reflexivity. Qed.

Lemma total_flow_sum (a : allocation) :
  total_flow a = alloc_sum (fun _ => true) a.
Proof.
  unfold total_flow, alloc_sum. f_equal.
  induction a; simpl; congruence.
Qed.

Lemma dset_in {V : Type} (m : dict V) (k k' : string) (v v' : V) :
  In (k', v') (dset m k v) -> In (k', v') m \/ v' = v.
Proof.
  induction m as [|[k0 v0] m IH]; simpl.
  - intros [H|[]]. inversion H. auto.
  - destruct (String.eqb k k0); simpl.
    + intros [H|H]; [inversion H; auto|auto].
    + intros [H|H]; [auto|]. destruct (IH H); auto.
Qed.

Lemma counters_nonneg_dset (m : dict Q) (k : string) (v : Q) :
  (forall k' v', In (k', v') m -> 0 <= v') -> 0 <= v ->
  forall k' v', In (k', v') (dset m k v) -> 0 <= v'.
Proof.
  intros Hm Hv k' v' Hin. destruct (dset_in m k k' v v' Hin) as [H| ->]; auto.
  exact (Hm _ _ H).
Qed.

(** The send step keeps the ledger when [sent] fits both counters. *)
Lemma commit_ledger (sc : scenario) (st : sim_state) (h p e d : string) (sent : Q) :
  ledger_inv sc st ->
  dget (path_to_egress_mapping sc) p = Some e ->
  sent <= dget_or (rem_uplink st) h 0 ->
  sent <= dget_or (rem_egress st) e 0 ->
  ledger_inv sc (commit h p e d sent st).
Proof.
  intros [Hh [He [Hu Hg]]] Hpm Hsu Hse.
  unfold commit. destruct (qltb 0 sent) eqn:Hs; [|exact (conj Hh (conj He (conj Hu Hg)))].
  apply qltb_true in Hs.
  split; [|split; [|split]]; simpl.
  - intros h'. rewrite host_flow_sum, alloc_sum_add, <- host_flow_sum.
    rewrite dget_or_dset. simpl.
    specialize (Hh h').
    destruct (String.eqb_spec h' h) as [->|Hne].
    + rewrite String.eqb_refl. lra.
    + replace (String.eqb h h') with false
        by (symmetry; apply String.eqb_neq; congruence).
      lra.
  - intros e'. rewrite egress_flow_sum, alloc_sum_add, <- egress_flow_sum.
    rewrite dget_or_dset. simpl. rewrite Hpm.
    specialize (He e').
    destruct (String.eqb_spec e' e) as [->|Hne].
    + rewrite String.eqb_refl. lra.
    + replace (String.eqb e e') with false
        by (symmetry; apply String.eqb_neq; congruence).
      lra.
  - apply counters_nonneg_dset; [exact Hu|]. lra.
  - apply counters_nonneg_dset; [exact Hg|]. lra.
Qed.

(** A clamped send step keeps every counter non-negative. *)
Lemma commit_clamp_nonneg (st : sim_state) (h p e d : string) (x : Q) :
  counters_nonneg st ->
  counters_nonneg (commit h p e d (clamp st h e x) st).
Proof.
  intros [Hu Hg]. destruct (clamp_le st h e x) as [_ [H1 H2]].
  unfold commit. destruct (qltb 0 (clamp st h e x)); [|exact (conj Hu Hg)].
  split; simpl; apply counters_nonneg_dset; auto; lra.
Qed.

Lemma total_flow_commit (st : sim_state) (h p e d : string) (sent : Q) :
  total_flow (sim_alloc (commit h p e d sent st))
  == total_flow (sim_alloc st) + (if qltb 0 sent then sent else 0).
Proof.
  unfold commit. destruct (qltb 0 sent); simpl.
  - rewrite !total_flow_sum, alloc_sum_add. lra.
  - lra.
Qed.

(* ------------------------------------------------------------------ *)
(** ** Every send step of a run is a clamped [commit] *)

Section Preserve.

Variable P : sim_state -> Prop.

Lemma send_each_preserve (h d : string) (x : Q) (ps : list path_info) (st : sim_state) :
  (forall p st, In p ps -> P st ->
     P (commit h (pi_path p) (pi_egress p) d (clamp st h (pi_egress p) x) st)) ->
  P st -> P (send_each h d x ps st).
Proof.
  revert st. induction ps as [|p ps IH]; intros st Hstep Hst; simpl; [exact Hst|].
  apply IH.
  - intros p' st' Hin. apply Hstep. right. exact Hin.
  - apply Hstep; [left; reflexivity|exact Hst].
Qed.

Lemma fill_greedy_preserve (h d : string) (r : Q) (ps : list path_info) (st : sim_state) :
  (forall p st r, In p ps -> P st ->
     P (commit h (pi_path p) (pi_egress p) d (clamp st h (pi_egress p) r) st)) ->
  P st -> P (fst (fill_greedy h d r ps st)).
Proof.
  revert r st. induction ps as [|p ps IH]; intros r st Hstep Hst; simpl; [exact Hst|].
  destruct (Qle_bool r eps6); [exact Hst|].
  destruct (qltb 0 (clamp st h (pi_egress p) r)); apply IH;
    try (intros p' st' r' Hin; apply Hstep; right; exact Hin); try exact Hst.
  apply Hstep; [left; reflexivity|exact Hst].
Qed.

Lemma for_each_pair_preserve (sc : scenario) (tot : Q)
    (paths : string -> string -> list path_info)
    (step : string -> string -> Q -> list path_info -> sim_state -> sim_state)
    (st : sim_state) :
  (forall h d dem st, paths h d <> [] -> P st -> P (step h d dem (paths h d) st)) ->
  P st -> P (for_each_pair sc tot paths step st).
Proof.
  intros Hstep. unfold for_each_pair.
  generalize (endhosts sc). intros hs. revert st.
  induction hs as [|h hs IH]; intros st Hst; simpl; [exact Hst|].
  apply IH.
  generalize (host_demands sc tot h). intros dds. revert st Hst.
  induction dds as [|dd dds IHd]; intros st Hst; simpl; [exact Hst|].
  apply IHd. destruct (paths h (fst dd)) eqn:E; [exact Hst|].
  rewrite <- E. apply Hstep; [rewrite E; discriminate|exact Hst].
Qed.

End Preserve.

Lemma candidate_paths_mapped (keep : string -> bool) (sc : scenario) (h d : string) :
  paths_mapped sc (candidate_paths keep sc h d).
Proof.
  intros p Hin. unfold candidate_paths in Hin.
  apply in_flat_map in Hin as [path [_ Hp]].
  destruct (dget (path_to_egress_mapping sc) path) as [egress|] eqn:E;
    [|destruct Hp].
  destruct (_ && _ && _); [|destruct Hp].
  destruct Hp as [<-|[]]. simpl. exact E.
Qed.

Lemma insert_by_latency_in (x p : path_info) (l : list path_info) :
  In p (insert_by_latency x l) -> p = x \/ In p l.
Proof.
  induction l as [|y l IH]; simpl.
  - intros [H|[]]. auto.
  - destruct (lat_lt (pi_latency x) (pi_latency y)); simpl.
    + intros [H|H]; auto.
    + intros [H|H]; auto. destruct (IH H); auto.
Qed.

Lemma sort_by_latency_in (ps : list path_info) (p : path_info) :
  In p (sort_by_latency ps) -> In p ps.
Proof.
  unfold sort_by_latency.
  assert (G : forall acc, In p (fold_left (fun acc x => insert_by_latency x acc) ps acc)
                          -> In p acc \/ In p ps).
  { induction ps as [|x ps IH]; simpl; intros acc H; [auto|].
    destruct (IH _ H) as [H'|H']; auto.
    destruct (insert_by_latency_in _ _ _ H'); auto. }
  intros H. destruct (G [] H) as [[]|H']; exact H'.
Qed.

Lemma min_by_latency_in (p : path_info) (ps : list path_info) :
  In (min_by_latency p ps) (p :: ps).
Proof.
  unfold min_by_latency. revert p.
  induction ps as [|x ps IH]; intros best; simpl; [auto|].
  specialize (IH (if lat_lt (pi_latency x) (pi_latency best) then x else best)).
  destruct (lat_lt (pi_latency x) (pi_latency best)); simpl in IH;
    destruct IH as [H|H]; auto.
Qed.

(** A clamped send step on a mapped path keeps the ledger. *)
Lemma commit_clamp_ledger (sc : scenario) (st : sim_state) (h d : string)
    (p : path_info) (x : Q) :
  dget (path_to_egress_mapping sc) (pi_path p) = Some (pi_egress p) ->
  ledger_inv sc st ->
  ledger_inv sc (commit h (pi_path p) (pi_egress p) d (clamp st h (pi_egress p) x) st).
Proof.
  intros Hpm Hst. destruct (clamp_le st h (pi_egress p) x) as [_ [H1 H2]].
  apply commit_ledger; assumption.
Qed.

Lemma ledger_counters (sc : scenario) (st : sim_state) :
  ledger_inv sc st -> counters_nonneg st.
Proof. intros [_ [_ H]]. exact H. Qed.

Lemma initial_ledger (sc : scenario) :
  rates_nonneg sc -> ledger_inv sc (initial_state sc).
Proof.
  intros [Hu Hc]. split; [|split]; simpl.
  - intros h. unfold host_flow. simpl. lra.
  - intros e. unfold egress_flow. simpl. lra.
  - split; assumption.
Qed.

(** The ledger gives the capacity bounds. *)
Lemma ledger_respects (sc : scenario) (st : sim_state) :
  ledger_inv sc st -> respects_capacities sc (sim_alloc st).
Proof.
  intros [Hh [He [Hu Hg]]]. split.
  - intros h _. specialize (Hh h).
    pose proof (dget_or_nonneg (rem_uplink st) h Hu). lra.
  - intros e _. specialize (He e).
    pose proof (dget_or_nonneg (rem_egress st) e Hg). lra.
Qed.

Section Steps.

Variable P : sim_state -> Prop.

Lemma step_r1_preserve (mode : sim_mode) (h d : string) (dem : Q)
    (ps : list path_info) (st : sim_state) :
  (forall p st x, In p ps -> P st ->
     P (commit h (pi_path p) (pi_egress p) d (clamp st h (pi_egress p) x) st)) ->
  P st -> P (step_r1 mode h d dem ps st).
Proof.
  intros Hc Hst. destruct mode; simpl.
  - apply fill_greedy_preserve; [|exact Hst].
    intros p st' r Hin. apply Hc. apply sort_by_latency_in. exact Hin.
  - apply send_each_preserve; [|exact Hst].
    intros p st' Hin. apply Hc. exact Hin.
Qed.

Lemma step_r3_preserve (mode : sim_mode) (h d : string) (dem : Q)
    (ps : list path_info) (st : sim_state) :
  (forall p st x, In p ps -> P st ->
     P (commit h (pi_path p) (pi_egress p) d (clamp st h (pi_egress p) x) st)) ->
  P st -> P (step_r3 mode h d dem ps st).
Proof.
  intros Hc Hst. unfold step_r3.
  apply send_each_preserve; [|exact Hst].
  intros p st' Hin. apply Hc.
  destruct mode; [destruct ps as [|p0 ps']|]; try exact Hin.
  destruct Hin as [<-|[]]. apply min_by_latency_in.
Qed.

Lemma step_fs_preserve (h d : string) (dem : Q) (ps : list path_info)
    (st : sim_state) :
  (forall p st x, In p ps -> P st ->
     P (commit h (pi_path p) (pi_egress p) d (clamp st h (pi_egress p) x) st)) ->
  P st -> P (step_fs h d dem ps st).
Proof.
  intros Hc Hst. unfold step_fs.
  apply send_each_preserve; [|exact Hst].
  intros p st' Hin. apply Hc. exact Hin.
Qed.

End Steps.

Section Runs.

Variable sc : scenario.
Variable P : sim_state -> Prop.

(** Whatever survives every clamped send step on a mapped path holds at
    the end of every simulator run. *)
Hypothesis P_commit : forall h d p st x,
  dget (path_to_egress_mapping sc) (pi_path p) = Some (pi_egress p) ->
  P st -> P (commit h (pi_path p) (pi_egress p) d (clamp st h (pi_egress p) x) st).

Lemma run_r1_preserve (tot : Q) (mode : sim_mode) (b : bool) (st : sim_state) :
  P st -> P (for_each_pair sc tot (possible_paths_r1 sc b) (step_r1 mode) st).
Proof.
  intros Hst. apply for_each_pair_preserve; [|exact Hst].
  intros h d dem st' _ Hst'. apply step_r1_preserve; [|exact Hst'].
  intros p st'' x Hin. apply P_commit.
  eapply (candidate_paths_mapped _ sc h d). exact Hin.
Qed.

Lemma run_r3_preserve (tot : Q) (mode : sim_mode) (st : sim_state) :
  P st -> P (for_each_pair sc tot (possible_paths sc) (step_r3 mode) st).
Proof.
  intros Hst. apply for_each_pair_preserve; [|exact Hst].
  intros h d dem st' _ Hst'. apply step_r3_preserve; [|exact Hst'].
  intros p st'' x Hin. apply P_commit.
  eapply (candidate_paths_mapped _ sc h d). exact Hin.
Qed.

Lemma run_fs_preserve (tot : Q) (st : sim_state) :
  P st -> P (for_each_pair sc tot (possible_paths sc) step_fs st).
Proof.
  intros Hst. apply for_each_pair_preserve; [|exact Hst].
  intros h d dem st' _ Hst'. apply step_fs_preserve; [|exact Hst'].
  intros p st'' x Hin. apply P_commit.
  eapply (candidate_paths_mapped _ sc h d). exact Hin.
Qed.

End Runs.

(* ------------------------------------------------------------------ *)
(** ** Sums *)

Lemma qsum_app (l1 l2 : list Q) : qsum (app l1 l2) == qsum l1 + qsum l2.
Proof. induction l1 as [|x l1 IH]; simpl; [lra|rewrite IH; lra]. Qed.

Lemma qsum_map_le {A : Type} (l : list A) (g1 g2 : A -> Q) :
  (forall x, In x l -> g1 x <= g2 x) -> qsum (map g1 l) <= qsum (map g2 l).
Proof.
  induction l as [|x l IH]; simpl; intros H; [lra|].
  pose proof (H x (or_introl eq_refl)).
  assert (qsum (map g1 l) <= qsum (map g2 l)) by (apply IH; auto). lra.
Qed.

Lemma qsum_map_eq {A : Type} (l : list A) (g1 g2 : A -> Q) :
  (forall x, In x l -> g1 x == g2 x) -> qsum (map g1 l) == qsum (map g2 l).
Proof.
  intros H. apply Qle_antisym; apply qsum_map_le; intros x Hx; rewrite (H x Hx); lra.
Qed.

Lemma qsum_map_nonneg {A : Type} (l : list A) (g : A -> Q) :
  (forall x, In x l -> 0 <= g x) -> 0 <= qsum (map g l).
Proof.
  intros H. pose proof (qsum_map_le l (fun _ => 0) g H) as H'.
  replace (qsum (map (fun _ => 0) l)) with 0 in H'; [exact H'|].
  clear. induction l; simpl; [reflexivity|rewrite <- IHl; reflexivity].
Qed.

Lemma qsum_filter_le {A : Type} (l : list A) (g : A -> Q) (f : A -> bool) :
  (forall x, In x l -> 0 <= g x) -> qsum (map g (filter f l)) <= qsum (map g l).
Proof.
  induction l as [|x l IH]; simpl; intros H; [lra|].
  pose proof (H x (or_introl eq_refl)).
  assert (qsum (map g (filter f l)) <= qsum (map g l)) by (apply IH; auto).
  destruct (f x); simpl; lra.
Qed.

Lemma qlen_cons {A : Type} (x : A) (l : list A) : qlen (x :: l) == 1 + qlen l.
Proof.
  unfold qlen. simpl List.length. rewrite Nat2Z.inj_succ.
  unfold Z.succ. rewrite inject_Z_plus. change (inject_Z 1) with 1. lra.
Qed.

Lemma qlen_nil {A : Type} : qlen (@nil A) == 0.
Proof. reflexivity. Qed.

Lemma qlen_nonneg {A : Type} (l : list A) : 0 <= qlen l.
Proof.
  induction l as [|x l IH]; [rewrite qlen_nil; lra|].
  rewrite qlen_cons. lra.
Qed.

(** Sum of [g] minus a per-element slack [c]. *)
Lemma qsum_map_lower {A : Type} (l : list A) (g1 g2 : A -> Q) (c : Q) :
  (forall x, In x l -> g2 x - c <= g1 x) ->
  qsum (map g2 l) - qlen l * c <= qsum (map g1 l).
Proof.
  induction l as [|x l IH]; simpl; intros H; [rewrite qlen_nil; lra|].
  rewrite qlen_cons.
  pose proof (H x (or_introl eq_refl)).
  assert (qsum (map g2 l) - qlen l * c <= qsum (map g1 l)) by (apply IH; auto).
  lra.
Qed.

(* ------------------------------------------------------------------ *)
(** ** The linear programs: feasible points and the reported allocation *)

Lemma feasibleb_spec (lp : lp_problem) (vals : lp_values) :
  feasibleb lp vals = true ->
  (forall v, In v (lp_continuous lp) -> 0 <= val vals v) /\
  (forall c, In c (lp_constraints lp) -> constr_holds vals c = true).
Proof.
  unfold feasibleb. intros H.
  apply andb_prop in H as [H H3]. apply andb_prop in H as [H1 _].
  rewrite forallb_forall in H1, H3. split.
  - intros v Hv. apply Qle_bool_iff. exact (H1 v Hv).
  - exact H3.
Qed.

Lemma constr_le (vals : lp_values) (l : lin) (r : Q) :
  constr_holds vals (mk_constr l LLe r) = true -> eval_lin vals l <= r.
Proof. unfold constr_holds. simpl. apply Qle_bool_iff. Qed.

Lemma constr_eq (vals : lp_values) (l : lin) (r : Q) :
  constr_holds vals (mk_constr l LEq r) = true -> eval_lin vals l == r.
Proof. unfold constr_holds. simpl. apply Qeq_bool_iff. Qed.

Lemma eval_xsum (vals : lp_values) (keys : list triple) (sel : triple -> bool) :
  eval_lin vals (xsum keys sel) == qsum (map (fun k => val vals (XVar k)) (filter sel keys)).
Proof.
  unfold eval_lin, xsum. rewrite map_map. apply qsum_map_eq.
  intros k _. simpl. lra.
Qed.

Lemma triple_eqb_refl (k : triple) : triple_eqb k k = true.
Proof.
  destruct k as [[h p] d]. simpl. rewrite !String.eqb_refl. reflexivity.
Qed.

Lemma triple_eqb_neq (x y : triple) : x <> y -> triple_eqb x y = false.
Proof.
  intros H. destruct (triple_eqb x y) eqn:E; [|reflexivity].
  apply triple_eqb_eq in E. contradiction.
Qed.

Lemma dedup_in (l : list triple) (k : triple) :
  In k (dedup_triples l) <-> In k l.
Proof.
  induction l as [|x l IH]; simpl; [tauto|].
  rewrite filter_In, IH. split.
  - intros [H|[H _]]; auto.
  - intros [H|H]; [auto|].
    destruct (triple_eqb x k) eqn:E.
    + left. apply triple_eqb_eq in E. exact E.
    + right. split; [exact H|reflexivity].
Qed.

Lemma dedup_nodup (l : list triple) : NoDup l -> dedup_triples l = l.
Proof.
  induction l as [|x l IH]; simpl; intros H; [reflexivity|].
  inversion H as [|? ? Hx Hl]; subst. rewrite (IH Hl). f_equal.
  clear IH H. induction l as [|y l IHl]; simpl; [reflexivity|].
  inversion Hl; subst.
  rewrite triple_eqb_neq by (intros ->; apply Hx; left; reflexivity). simpl.
  f_equal. apply IHl; [intros Hin; apply Hx; right; exact Hin|assumption].
Qed.

Lemma filter_comm {A : Type} (f g : A -> bool) (l : list A) :
  filter f (filter g l) = filter g (filter f l).
Proof.
  induction l as [|x l IH]; simpl; [reflexivity|].
  destruct (g x) eqn:Eg, (f x) eqn:Ef; simpl; rewrite ?Eg, ?Ef, IH; reflexivity.
Qed.

Lemma qsum_dedup_le (l : list triple) (g : triple -> Q) (f : triple -> bool) :
  (forall k, In k l -> 0 <= g k) ->
  qsum (map g (filter f (dedup_triples l))) <= qsum (map g (filter f l)).
Proof.
  induction l as [|x l IH]; simpl; intros H; [lra|].
  rewrite filter_comm.
  assert (Hd : qsum (map g (filter (fun k' => negb (triple_eqb x k'))
                               (filter f (dedup_triples l))))
               <= qsum (map g (filter f (dedup_triples l)))).
  { apply qsum_filter_le. intros k Hk. apply filter_In in Hk as [Hk _].
    apply H. right. apply dedup_in. exact Hk. }
  assert (qsum (map g (filter f (dedup_triples l))) <= qsum (map g (filter f l)))
    by (apply IH; auto).
  destruct (f x); simpl; [|lra].
  pose proof (H x (or_introl eq_refl)). lra.
Qed.

(** The allocation reported after a solve, entry by entry. *)
Lemma lp_alloc_sum (vals : lp_values) (keys : list triple) (f : triple -> bool) :
  alloc_sum f (lp_allocation vals keys) ==
  qsum (map (fun k => match vals (XVar k) with
                      | Some q => if qltb eps6 q then q else 0
                      | None => 0
                      end) (filter f (dedup_triples keys))).
Proof.
  unfold lp_allocation, alloc_sum. generalize (dedup_triples keys) as l.
  induction l as [|k l IH]; cbn [flat_map filter map qsum]; [lra|].
  destruct (f k) eqn:Ef; cbn [filter map qsum fst snd];
    destruct (vals (XVar k)) as [q|]; try destruct (qltb eps6 q);
    cbn [app filter map qsum fst snd]; rewrite ?Ef; cbn [map qsum snd];
    rewrite ?IH; lra.
Qed.

Lemma eps6_pos : 0 < eps6.
Proof. reflexivity. Qed.

Lemma lp_entry_le (vals : lp_values) (k : triple) :
  0 <= val vals (XVar k) ->
  match vals (XVar k) with
  | Some q => if qltb eps6 q then q else 0
  | None => 0
  end <= val vals (XVar k).
Proof.
  unfold val. destruct (vals (XVar k)) as [q|]; [|lra].
  destruct (qltb eps6 q); lra.
Qed.

Lemma lp_entry_ge (vals : lp_values) (k : triple) :
  val vals (XVar k) - eps6 <=
  match vals (XVar k) with
  | Some q => if qltb eps6 q then q else 0
  | None => 0
  end.
Proof.
  pose proof eps6_pos.
  unfold val. destruct (vals (XVar k)) as [q|]; [|lra].
  destruct (qltb eps6 q) eqn:E; [lra|].
  apply qltb_false in E. lra.
Qed.

(** Every sum of the reported allocation is at most the same sum of the
    variables. *)
Lemma lp_alloc_le (vals : lp_values) (keys : list triple) (f : triple -> bool) :
  (forall k, In k keys -> 0 <= val vals (XVar k)) ->
  alloc_sum f (lp_allocation vals keys)
  <= qsum (map (fun k => val vals (XVar k)) (filter f keys)).
Proof.
  intros H. rewrite lp_alloc_sum.
  eapply Qle_trans; [|apply qsum_dedup_le; exact H].
  apply qsum_map_le. intros k Hk. apply lp_entry_le. apply H.
  apply filter_In in Hk as [Hk _]. apply dedup_in. exact Hk.
Qed.

(** Without duplicate keys it loses at most [1e-6] per variable. *)
Lemma lp_alloc_ge (vals : lp_values) (keys : list triple) (f : triple -> bool) :
  NoDup keys ->
  qsum (map (fun k => val vals (XVar k)) (filter f keys))
  - qlen (filter f keys) * eps6 <= alloc_sum f (lp_allocation vals keys).
Proof.
  intros Hnd. rewrite lp_alloc_sum, (dedup_nodup keys Hnd).
  apply qsum_map_lower. intros k _. apply lp_entry_ge.
Qed.

Lemma lp_alloc_respects (sc : scenario) (keys : list triple) (vals : lp_values) :
  (forall k, In k keys -> 0 <= val vals (XVar k)) ->
  (forall h, In h (endhosts sc) ->
     eval_lin vals (xsum keys (fun k => String.eqb (t_host k) h))
     <= dget_or (endhost_uplinks sc) h 0) ->
  (forall e, In e (egress_interfaces sc) ->
     eval_lin vals (xsum keys (on_egress sc e)) <= dget_or (egress_capacities sc) e 0) ->
  respects_capacities sc (lp_allocation vals keys).
Proof.
  intros Hnn Hu Hc. split.
  - intros h Hh. rewrite host_flow_sum.
    eapply Qle_trans; [apply lp_alloc_le; exact Hnn|].
    rewrite <- eval_xsum. apply Hu. exact Hh.
  - intros e He. rewrite egress_flow_sum.
    eapply Qle_trans; [apply (lp_alloc_le vals keys (on_egress sc e)); exact Hnn|].
    rewrite <- eval_xsum. apply Hc. exact He.
Qed.

Lemma continuous_keys (vals : lp_values) (keys : list triple) :
  (forall v, In v (map XVar (dedup_triples keys)) -> 0 <= val vals v) ->
  forall k, In k keys -> 0 <= val vals (XVar k).
Proof.
  intros H k Hk. apply H. apply in_map. apply dedup_in. exact Hk.
Qed.

Lemma uplink_constraints_hold (sc : scenario) (keys : list triple) (vals : lp_values) :
  (forall c, In c (uplink_constraints sc keys) -> constr_holds vals c = true) ->
  forall h, In h (endhosts sc) ->
    eval_lin vals (xsum keys (fun k => String.eqb (t_host k) h))
    <= dget_or (endhost_uplinks sc) h 0.
Proof.
  intros H h Hh. apply constr_le. apply H. unfold uplink_constraints.
  apply (in_map (fun hh => mk_constr (xsum keys (fun k => String.eqb (t_host k) hh)) LLe
                   (dget_or (endhost_uplinks sc) hh 0))). exact Hh.
Qed.

Lemma capacity_constraints_hold (sc : scenario) (keys : list triple) (vals : lp_values) :
  (forall c, In c (capacity_constraints sc keys) -> constr_holds vals c = true) ->
  forall e, In e (egress_interfaces sc) ->
    eval_lin vals (xsum keys (on_egress sc e)) <= dget_or (egress_capacities sc) e 0.
Proof.
  intros H e He. apply constr_le. apply H. unfold capacity_constraints.
  apply (in_map (fun e => mk_constr (xsum keys (on_egress sc e)) LLe
                  (dget_or (egress_capacities sc) e 0))). exact He.
Qed.

Lemma egress_constraints_r3_hold (sc : scenario) (keys : list triple) (vals : lp_values) :
  (forall c, In c (egress_constraints_r3 sc keys) -> constr_holds vals c = true) ->
  forall e, In e (egress_interfaces sc) ->
    eval_lin vals (xsum keys (on_egress sc e)) <= dget_or (egress_capacities sc) e 0.
Proof.
  intros H e He. apply constr_le. apply H. unfold egress_constraints_r3.
  apply in_flat_map. exists e. split; [exact He|left; reflexivity].
Qed.

Lemma demand_constraints_hold (sc : scenario) (keys : list triple) (vals : lp_values) :
  (forall c, In c (demand_constraints sc keys) -> constr_holds vals c = true) ->
  forall d, In d (destinations sc) ->
    eval_lin vals (xsum keys (fun k => String.eqb (t_dest k) d))
    == dget_or (traffic_per_destination sc) d 0.
Proof.
  intros H d Hd. apply constr_eq. apply H. unfold demand_constraints.
  apply (in_map (fun dd => mk_constr (xsum keys (fun k => String.eqb (t_dest k) dd)) LEq
                   (dget_or (traffic_per_destination sc) dd 0))). exact Hd.
Qed.

Lemma in_app3_l {A : Type} (x : A) (l1 l2 l3 : list A) :
  In x l1 -> In x (app l1 (app l2 l3)).
Proof. intros H. apply in_or_app. left. exact H. Qed.

Lemma in_app3_m {A : Type} (x : A) (l1 l2 l3 : list A) :
  In x l2 -> In x (app l1 (app l2 l3)).
Proof. intros H. apply in_or_app. right. apply in_or_app. left. exact H. Qed.

Lemma in_app3_r {A : Type} (x : A) (l1 l2 l3 : list A) :
  In x l3 -> In x (app l1 (app l2 l3)).
Proof. intros H. apply in_or_app. right. apply in_or_app. right. exact H. Qed.

(** An optimal solve of each linear program gives a feasible point. *)
Lemma solve_cost_lp_feasible (solve : lp_problem -> lp_status * lp_values)
    (sc : scenario) (goal : lp_sense) (r : lp_report) :
  solver_sound solve ->
  solve_cost_lp solve sc goal = LPOk r -> lp_status_of r = Optimal ->
  exists keys vals,
    x_vars_keys (fun e => mem e (egress_interfaces sc)) sc = keys /\
    keys <> [] /\
    feasibleb (cost_lp_problem sc goal keys) vals = true /\
    lp_traffic_allocation r = lp_allocation vals keys.
Proof.
  intros Hs. unfold solve_cost_lp.
  destruct (x_vars_keys (fun e => mem e (egress_interfaces sc)) sc) as [|k0 l0] eqn:Ek;
    [discriminate|].
  destruct (solve (cost_lp_problem sc goal (k0 :: l0))) as [st vals] eqn:Es.
  intros [= <-] Hopt. simpl in Hopt. subst st.
  exists (k0 :: l0), vals. split; [reflexivity|]. split; [discriminate|].
  split; [|reflexivity].
  pose proof (Hs (cost_lp_problem sc goal (k0 :: l0))) as H. rewrite Es in H.
  apply H. reflexivity.
Qed.

Lemma solve_latency_lp_feasible (solve : lp_problem -> lp_status * lp_values)
    (sc : scenario) (r : lp_report) :
  solver_sound solve ->
  solve_latency_lp solve sc = LPOk r -> lp_status_of r = Optimal ->
  exists keys vals,
    feasibleb (latency_lp_problem sc keys) vals = true /\
    lp_traffic_allocation r = lp_allocation vals keys.
Proof.
  intros Hs. unfold solve_latency_lp.
  destruct (x_vars_keys (fun e => mem e (egress_interfaces sc)) sc) as [|k0 l0] eqn:Ek;
    [discriminate|].
  destruct (solve (latency_lp_problem sc (k0 :: l0))) as [st vals] eqn:Es.
  intros [= <-] Hopt. simpl in Hopt. subst st.
  exists (k0 :: l0), vals. split; [|reflexivity].
  pose proof (Hs (latency_lp_problem sc (k0 :: l0))) as H. rewrite Es in H.
  apply H. reflexivity.
Qed.

(** [lp_model_costs]: an allocation is either empty or read from a
    feasible point. *)
Lemma adversarial_alloc_cases (solve : lp_problem -> lp_status * lp_values)
    (sc : scenario) (goal : lp_sense) (s : string) (o : option Q) (a : allocation) :
  solver_sound solve ->
  solve_adversarial_path_selection solve sc goal = (s, o, Some a) ->
  a = [] \/
  exists keys vals,
    x_vars_keys (fun e => mem e (map fst (egress_costs sc))) sc = keys /\
    s = "Optimal" /\
    feasibleb (adversarial_lp_problem sc goal keys) vals = true /\
    a = lp_allocation vals keys.
Proof.
  intros Hs. unfold solve_adversarial_path_selection.
  destruct (negb _); [discriminate|].
  destruct (x_vars_keys (fun e => mem e (map fst (egress_costs sc))) sc) as [|k0 l0] eqn:Ek.
  { intros [= _ _ <-]. left. reflexivity. }
  destruct (solve (adversarial_lp_problem sc goal (k0 :: l0))) as [st vals] eqn:Es.
  intros [= <- _ <-].
  destruct st; [right|left; reflexivity..].
  exists (k0 :: l0), vals. split; [reflexivity|]. split; [reflexivity|].
  split; [|reflexivity].
  pose proof (Hs (adversarial_lp_problem sc goal (k0 :: l0))) as H. rewrite Es in H.
  apply H. reflexivity.
Qed.

Lemma empty_respects (sc : scenario) :
  rates_nonneg sc -> respects_capacities sc [].
Proof.
  intros [Hu Hc]. split.
  - intros h _. unfold host_flow. simpl. apply dget_or_nonneg. exact Hu.
  - intros e _. unfold egress_flow. simpl. apply dget_or_nonneg. exact Hc.
Qed.

Lemma checking_solver_sound (cand : lp_problem -> lp_values) :
  solver_sound (checking_solver cand).
Proof.
  intros lp. unfold checking_solver.
  destruct (feasibleb lp (cand lp)) eqn:E; simpl; [auto|discriminate].
Qed.

(* ------------------------------------------------------------------ *)
(** ** What a simulator run returns *)

Lemma run_r1_result (sc : scenario) (mode : sim_mode) (b : bool) (r : sim_report) :
  run_behavioral_sim_r1 sc mode b = SimOk r ->
  ~ total_uplink_of sc == 0 /\
  traffic_allocation r =
    sim_alloc (for_each_pair sc (total_uplink_of sc) (possible_paths_r1 sc b)
                 (step_r1 mode) (initial_state sc)) /\
  total_sent_traffic r = total_flow (traffic_allocation r) /\
  total_unsent_traffic r =
    qsum (map snd (traffic_per_destination sc)) - total_sent_traffic r.
Proof.
  unfold run_behavioral_sim_r1. destruct (Qeq_bool (total_uplink_of sc) 0) eqn:E;
    [discriminate|].
  unfold finish_r13.
  destruct (total_cost _ _ _); [|discriminate].
  unfold finish. intros [= <-]. simpl. repeat split.
  intros H. apply Qeq_bool_iff in H. congruence.
Qed.

Lemma run_r3_result (sc : scenario) (mode : sim_mode) (r : sim_report) :
  run_behavioral_sim_r3 sc mode = SimOk r ->
  ~ total_uplink_of sc == 0 /\
  traffic_allocation r =
    sim_alloc (for_each_pair sc (total_uplink_of sc) (possible_paths sc)
                 (step_r3 mode) (initial_state sc)) /\
  total_sent_traffic r = total_flow (traffic_allocation r) /\
  total_unsent_traffic r =
    qsum (map snd (traffic_per_destination sc)) - total_sent_traffic r.
Proof.
  unfold run_behavioral_sim_r3. destruct (Qeq_bool (total_uplink_of sc) 0) eqn:E;
    [discriminate|].
  unfold finish_r13.
  destruct (total_cost _ _ _); [|discriminate].
  unfold finish. intros [= <-]. simpl. repeat split.
  intros H. apply Qeq_bool_iff in H. congruence.
Qed.

Lemma run_fs_result (sc : scenario) (r : sim_report) :
  simulate_fair_share sc = Some r ->
  ~ total_uplink_of sc == 0 /\
  traffic_allocation r =
    sim_alloc (for_each_pair sc (total_uplink_of sc) (possible_paths sc)
                 step_fs (initial_state sc)) /\
  total_sent_traffic r = total_flow (traffic_allocation r) /\
  total_unsent_traffic r =
    qsum (map snd (traffic_per_destination sc)) - total_sent_traffic r.
Proof.
  unfold simulate_fair_share. destruct (Qeq_bool (total_uplink_of sc) 0) eqn:E;
    [discriminate|].
  unfold finish. intros [= <-]. simpl. repeat split.
  intros H. apply Qeq_bool_iff in H. congruence.
Qed.

Lemma commit_clamp_ledger_any (sc : scenario) (h d : string) (p : path_info)
    (st : sim_state) (x : Q) :
  dget (path_to_egress_mapping sc) (pi_path p) = Some (pi_egress p) ->
  ledger_inv sc st ->
  ledger_inv sc (commit h (pi_path p) (pi_egress p) d (clamp st h (pi_egress p) x) st).
Proof. apply commit_clamp_ledger. Qed.

Lemma rates_nonnegb_spec (sc : scenario) :
  rates_nonnegb sc = true -> rates_nonneg sc.
Proof.
  unfold rates_nonnegb. intros H. apply andb_prop in H as [H1 H2].
  rewrite forallb_forall in H1, H2. split.
  - intros k v Hin. apply Qle_bool_iff. exact (H1 (k, v) Hin).
  - intros k v Hin. apply Qle_bool_iff. exact (H2 (k, v) Hin).
Qed.

Lemma demands_nonnegb_spec (sc : scenario) :
  demands_nonnegb sc = true ->
  forall k v, In (k, v) (traffic_per_destination sc) -> 0 <= v.
Proof.
  unfold demands_nonnegb. intros H k v Hin. rewrite forallb_forall in H.
  apply Qle_bool_iff. exact (H (k, v) Hin).
Qed.

(* ------------------------------------------------------------------ *)
(** ** Fair share: the candidates and the per-path bound *)

Lemma commit_alloc_sum (f : triple -> bool) (st : sim_state) (h p e d : string)
    (sent : Q) :
  alloc_sum f (sim_alloc (commit h p e d sent st))
  == alloc_sum f (sim_alloc st)
     + (if qltb 0 sent then (if f (h, p, d) then sent else 0) else 0).
Proof.
  unfold commit. destruct (qltb 0 sent); simpl.
  - apply alloc_sum_add.
  - lra.
Qed.

(** [send_each] adds at most [x] per occurrence of a path name. *)
Lemma send_each_path_flow (h d pp : string) (x : Q) (ps : list path_info)
    (st : sim_state) :
  0 <= x ->
  alloc_sum (triple_eqb (h, pp, d)) (sim_alloc (send_each h d x ps st))
  <= alloc_sum (triple_eqb (h, pp, d)) (sim_alloc st)
     + qlen (filter (fun p => String.eqb pp (pi_path p)) ps) * x.
Proof.
  intros Hx. revert st. induction ps as [|p ps IH]; intros st; simpl.
  - rewrite qlen_nil. lra.
  - specialize (IH (commit h (pi_path p) (pi_egress p) d
                      (clamp st h (pi_egress p) x) st)).
    rewrite commit_alloc_sum in IH.
    destruct (clamp_le st h (pi_egress p) x) as [Hle _].
    assert (Hf : triple_eqb (h, pp, d) (h, pi_path p, d)
                 = String.eqb pp (pi_path p)).
    { simpl. rewrite !String.eqb_refl. simpl. apply andb_true_r. }
    rewrite Hf in IH.
    destruct (String.eqb pp (pi_path p)).
    + rewrite qlen_cons.
      destruct (qltb 0 (clamp st h (pi_egress p) x)); lra.
    + destruct (qltb 0 (clamp st h (pi_egress p) x)); lra.
Qed.

(** The candidates of a pair are every path of the host that is mapped to a
    non-empty egress reaching the destination. *)
Lemma possible_paths_in_iff (sc : scenario) (h d : string) (q : path_info) :
  In q (possible_paths sc h d) <->
  In (pi_path q) (dget_or (paths_per_endhost sc) h []) /\
  dget (path_to_egress_mapping sc) (pi_path q) = Some (pi_egress q) /\
  pi_egress q <> "" /\
  mem d (dget_or (egress_to_destination_reachability sc) (pi_egress q) []) = true /\
  pi_latency q = latency_of sc (pi_egress q).
Proof.
  unfold possible_paths, candidate_paths. rewrite in_flat_map. split.
  - intros [path [Hin Hp]].
    destruct (dget (path_to_egress_mapping sc) path) as [egress|] eqn:E;
      [|destruct Hp].
    destruct (negb (String.eqb egress "")) eqn:E1; [|destruct Hp].
    destruct (mem d _) eqn:E2; [|destruct Hp].
    simpl in Hp. destruct Hp as [<-|[]]. simpl.
    apply negb_true_iff, String.eqb_neq in E1.
    repeat split; auto.
  - intros [Hin [Hm [Hne [Hr Hl]]]]. exists (pi_path q). split; [exact Hin|].
    rewrite Hm. apply String.eqb_neq, negb_true_iff in Hne.
    rewrite Hne, Hr. simpl. left.
    destruct q as [qp qe ql]. simpl in *. rewrite Hl. reflexivity.
Qed.

(* ------------------------------------------------------------------ *)
(** ** The performance analyzers *)

(** The egress of a path, when it is truthy, is [e]. *)
Lemma add_egress_traffic_get (pm : dict string) (p : string) (v : Q)
    (acc : dict Q) (e : string) :
  dget_or (add_egress_traffic pm p v acc) e 0
  == dget_or acc e 0 +
     match dget pm p with
     | Some e' => if negb (String.eqb e' "") && String.eqb e' e then v else 0
     | None => 0
     end.
Proof.
  unfold add_egress_traffic.
  destruct (dget pm p) as [egress|]; [|lra].
  destruct (String.eqb egress "") eqn:E0; simpl; [lra|].
  rewrite dget_or_dset.
  destruct (String.eqb e egress) eqn:E1.
  - apply String.eqb_eq in E1. subst e. rewrite String.eqb_refl. lra.
  - destruct (String.eqb egress e) eqn:E2; [|lra].
    apply String.eqb_eq in E2. subst e. rewrite String.eqb_refl in E1.
    discriminate.
Qed.

Lemma egress_traffic_cons (path_of : string -> option string) (pm : dict string)
    (key : string) (v : Q) (rest : str_allocation) (e : string) :
  egress_traffic path_of pm ((key, v) :: rest) e
  == match path_of key with
     | Some p => match dget pm p with
                 | Some e' => if negb (String.eqb e' "") && String.eqb e' e
                              then v else 0
                 | None => 0
                 end
     | None => 0
     end + egress_traffic path_of pm rest e.
Proof.
  unfold egress_traffic. simpl.
  destruct (path_of key) as [p|]; [|lra].
  destruct (dget pm p) as [e'|]; [|lra].
  destruct (negb (String.eqb e' "") && String.eqb e' e); simpl; lra.
Qed.

Lemma traffic_on_egress_r3_some (pm : dict string) (alloc : str_allocation)
    (acc : dict Q) :
  (exists toe, traffic_on_egress_r3 pm alloc acc = Some toe) <->
  (forall kv, In kv alloc -> path_id_r3 (fst kv) <> None).
Proof.
  revert acc. induction alloc as [|[key v] rest IH]; intros acc; simpl.
  - split; [intros _ kv []|intros _; eauto].
  - destruct (path_id_r3 key) as [p|] eqn:E.
    + rewrite IH. split.
      * intros H kv [<-|Hin]; [simpl; rewrite E; discriminate|auto].
      * intros H kv Hin. apply H. auto.
    + split; [intros [toe Ht]; discriminate|].
      intros H. exfalso. apply (H (key, v)); [left; reflexivity|exact E].
Qed.

Lemma traffic_on_egress_r3_value (pm : dict string) (alloc : str_allocation)
    (acc toe : dict Q) :
  traffic_on_egress_r3 pm alloc acc = Some toe ->
  forall e, dget_or toe e 0 == dget_or acc e 0 + egress_traffic path_id_r3 pm alloc e.
Proof.
  revert acc. induction alloc as [|[key v] rest IH]; intros acc H e; simpl in H.
  - injection H as <-. unfold egress_traffic. simpl. lra.
  - rewrite egress_traffic_cons.
    destruct (path_id_r3 key) as [p|] eqn:E; [|discriminate].
    rewrite (IH _ H e), add_egress_traffic_get. lra.
Qed.

Lemma traffic_on_egress_pa_some (pm : dict string) (alloc : str_allocation)
    (acc : dict Q) :
  (exists toe, traffic_on_egress_pa pm alloc acc = Some toe) <->
  (forall kv, In kv alloc -> (2 <= List.length (py_split "_to_" (fst kv)))%nat).
Proof.
  revert acc. induction alloc as [|[key v] rest IH]; intros acc; simpl.
  - split; [intros _ kv []|intros _; eauto].
  - destruct (py_split "_to_" key) as [|h_p [|x parts]] eqn:E.
    + split; [intros [toe Ht]; discriminate|].
      intros H. specialize (H (key, v) (or_introl eq_refl)). simpl in H.
      rewrite E in H. simpl in H. lia.
    + split; [intros [toe Ht]; discriminate|].
      intros H. specialize (H (key, v) (or_introl eq_refl)). simpl in H.
      rewrite E in H. simpl in H. lia.
    + assert (G : forall acc', (exists toe, traffic_on_egress_pa pm rest acc' = Some toe)
                   <-> (forall kv, In kv ((key, v) :: rest) ->
                          (2 <= List.length (py_split "_to_" (fst kv)))%nat)).
      { intros acc'. rewrite IH. split.
        - intros H kv [<-|Hin]; [simpl; rewrite E; simpl; lia|auto].
        - intros H kv Hin. apply H. right. exact Hin. }
      destruct (py_split1 "_" h_p) as [|y [|p ys]]; apply G.
Qed.

Lemma traffic_on_egress_pa_value (pm : dict string) (alloc : str_allocation)
    (acc toe : dict Q) :
  traffic_on_egress_pa pm alloc acc = Some toe ->
  forall e, dget_or toe e 0 == dget_or acc e 0 + egress_traffic path_id_pa pm alloc e.
Proof.
  revert acc. induction alloc as [|[key v] rest IH]; intros acc H e; simpl in H.
  - injection H as <-. unfold egress_traffic. simpl. lra.
  - rewrite egress_traffic_cons. unfold path_id_pa at 1.
    destruct (py_split "_to_" key) as [|h_p [|x parts]]; try discriminate.
    destruct (py_split1 "_" h_p) as [|y [|p ys]].
    + rewrite (IH _ H e). lra.
    + rewrite (IH _ H e). lra.
    + rewrite (IH _ H e), add_egress_traffic_get. lra.
Qed.

(** The metric of an egress of [caps]. *)
Lemma egress_utilization_in (caps toe : dict Q) (e : string) (cap : Q) :
  In (e, cap) caps ->
  In (e, mk_util_metric (dget_or toe e 0) cap
           (if qltb 0 cap then (dget_or toe e 0 / cap) * 100 else 0))
     (egress_utilization caps toe).
Proof.
  intros Hin. unfold egress_utilization.
  exact (in_map (fun ec =>
    (fst ec, mk_util_metric (dget_or toe (fst ec) 0) (snd ec)
               (if qltb 0 (snd ec) then (dget_or toe (fst ec) 0 / snd ec) * 100
                else 0))) caps (e, cap) Hin).
Qed.

(** The metrics of an analyzer's egress table. *)
Lemma utilization_metrics (path_of : string -> option string) (pm : dict string)
    (caps toe : dict Q) (alloc : str_allocation) :
  (forall e, dget_or toe e 0 == egress_traffic path_of pm alloc e) ->
  forall e cap, In (e, cap) caps -> exists u,
    In (e, u) (egress_utilization caps toe) /\ um_capacity u = cap /\
    um_traffic u == egress_traffic path_of pm alloc e /\
    (0 < cap -> um_utilization_percent u == 100 * um_traffic u / cap) /\
    (cap <= 0 -> um_utilization_percent u == 0).
Proof.
  intros Ht e cap Hin. eexists. split; [exact (egress_utilization_in caps toe e cap Hin)|].
  simpl. split; [reflexivity|]. split; [apply Ht|]. split.
  - intros Hc. apply qltb_true in Hc. rewrite Hc. unfold Qdiv. ring.
  - intros Hc. destruct (qltb 0 cap) eqn:E; [|reflexivity].
    apply qltb_true in E. exfalso. lra.
Qed.

Lemma mem_true (x : string) (l : list string) : mem x l = true <-> In x l.
Proof.
  unfold mem. rewrite existsb_exists. split.
  - intros [y [Hy E]]. apply String.eqb_eq in E. subst y. exact Hy.
  - intros H. exists x. split; [exact H|apply String.eqb_refl].
Qed.

Lemma candidate_paths_in_iff (keep : string -> bool) (sc : scenario) (h d : string)
    (q : path_info) :
  In q (candidate_paths keep sc h d) <->
  In (pi_path q) (dget_or (paths_per_endhost sc) h []) /\
  dget (path_to_egress_mapping sc) (pi_path q) = Some (pi_egress q) /\
  pi_egress q <> "" /\
  mem d (dget_or (egress_to_destination_reachability sc) (pi_egress q) []) = true /\
  keep (pi_egress q) = true /\
  pi_latency q = latency_of sc (pi_egress q).
Proof.
  unfold candidate_paths. rewrite in_flat_map. split.
  - intros [path [Hin Hp]].
    destruct (dget (path_to_egress_mapping sc) path) as [egress|] eqn:E;
      [|destruct Hp].
    destruct (negb (String.eqb egress "")) eqn:E1; [|destruct Hp].
    destruct (mem d _) eqn:E2; [|destruct Hp].
    destruct (keep egress) eqn:E3; [|destruct Hp].
    simpl in Hp. destruct Hp as [<-|[]]. simpl.
    apply negb_true_iff, String.eqb_neq in E1.
    repeat split; auto.
  - intros [Hin [Hm [Hne [Hr [Hk Hl]]]]]. exists (pi_path q). split; [exact Hin|].
    rewrite Hm. apply String.eqb_neq, negb_true_iff in Hne.
    rewrite Hne, Hr, Hk. simpl. left.
    destruct q as [qp qe ql]. simpl in *. rewrite Hl. reflexivity.
Qed.

Lemma host_demands_keys (sc : scenario) (tot : Q) (h : string) (dd : string * Q) :
  In dd (host_demands sc tot h) -> In (fst dd) (map fst (traffic_per_destination sc)).
Proof.
  unfold host_demands. intros Hin. apply in_map_iff in Hin as [kv [<- Hkv]].
  simpl. apply in_map. exact Hkv.
Qed.

(** [for_each_pair] only runs its step on an end host, a destination of
    its demand split and the pair's non-empty candidate list. *)
Lemma for_each_pair_preserve_in (P : sim_state -> Prop) (sc : scenario) (tot : Q)
    (paths : string -> string -> list path_info)
    (step : string -> string -> Q -> list path_info -> sim_state -> sim_state)
    (st : sim_state) :
  (forall h dd st, In h (endhosts sc) -> In dd (host_demands sc tot h) ->
     paths h (fst dd) <> [] -> P st ->
     P (step h (fst dd) (snd dd) (paths h (fst dd)) st)) ->
  P st -> P (for_each_pair sc tot paths step st).
Proof.
  intros Hstep. unfold for_each_pair.
  assert (G : forall hs st, (forall h, In h hs -> In h (endhosts sc)) -> P st ->
    P (fold_left (fun st h =>
         fold_left (fun st dd =>
           match paths h (fst dd) with
           | [] => st
           | ps => step h (fst dd) (snd dd) ps st
           end) (host_demands sc tot h) st) hs st)).
  { induction hs as [|h hs IH]; intros st0 Hhs Hst; simpl; [exact Hst|].
    apply IH; [intros h' Hh'; apply Hhs; right; exact Hh'|].
    assert (Hh : In h (endhosts sc)) by (apply Hhs; left; reflexivity).
    assert (Gd : forall dds st, (forall dd, In dd dds -> In dd (host_demands sc tot h)) ->
              P st ->
              P (fold_left (fun st dd =>
                   match paths h (fst dd) with
                   | [] => st
                   | ps => step h (fst dd) (snd dd) ps st
                   end) dds st)).
    { induction dds as [|dd dds IHd]; intros st1 Hdd Hst1; simpl; [exact Hst1|].
      apply IHd; [intros dd' Hd'; apply Hdd; right; exact Hd'|].
      destruct (paths h (fst dd)) eqn:E; [exact Hst1|].
      rewrite <- E. apply Hstep; [exact Hh|apply Hdd; left; reflexivity| |exact Hst1].
      rewrite E. discriminate. }
    apply Gd; [auto|exact Hst]. }
  intros Hst. apply G; [auto|exact Hst].
Qed.

Lemma alloc_add_in (k0 : triple) (s : Q) (a : allocation) (k : triple) (v : Q) :
  In (k, v) (alloc_add k0 s a) ->
  In (k, v) a \/ (k = k0 /\ (v = s \/ exists v', In (k, v') a /\ v = v' + s)).
Proof.
  induction a as [|[k' v'] a IH]; simpl.
  - intros [H|[]]. injection H as <- <-. right. auto.
  - destruct (triple_eqb k0 k') eqn:E.
    + apply triple_eqb_eq in E. subst k'. intros [H|H].
      * injection H as <- <-. right. split; [reflexivity|].
        right. exists v'. split; [left; reflexivity|reflexivity].
      * left. right. exact H.
    + intros [H|H]; [left; left; exact H|].
      destruct (IH H) as [H'|[Hk [Hv|[v'' [Hin Hv]]]]].
      * left. right. exact H'.
      * right. auto.
      * right. split; [exact Hk|]. right. exists v''. split; [right; exact Hin|exact Hv].
Qed.

Lemma commit_on_candidates (paths : string -> string -> list path_info)
    (sc : scenario) (h d : string) (p : path_info) (x : Q) (st : sim_state) :
  In h (endhosts sc) -> In d (map fst (traffic_per_destination sc)) ->
  In p (paths h d) ->
  alloc_on_candidates paths sc (sim_alloc st) ->
  alloc_on_candidates paths sc (sim_alloc (commit h (pi_path p) (pi_egress p) d x st)).
Proof.
  intros Hh Hd Hp Hst. unfold commit.
  destruct (qltb 0 x) eqn:Ex; [|exact Hst]. apply qltb_true in Ex. simpl.
  intros k v Hin. apply alloc_add_in in Hin as [Hin|[-> [->|[v' [Hin ->]]]]].
  - apply Hst. exact Hin.
  - simpl. split; [exact Ex|]. split; [exact Hh|]. split; [exact Hd|].
    exists p. split; [exact Hp|reflexivity].
  - destruct (Hst _ _ Hin) as [Hv' Hrest]. split; [lra|exact Hrest].
Qed.

Lemma run_on_candidates (sc : scenario) (tot : Q)
    (paths : string -> string -> list path_info)
    (step : string -> string -> Q -> list path_info -> sim_state -> sim_state) :
  (forall h d dem ps st (P : sim_state -> Prop),
     (forall p st x, In p ps -> P st ->
        P (commit h (pi_path p) (pi_egress p) d (clamp st h (pi_egress p) x) st)) ->
     P st -> P (step h d dem ps st)) ->
  alloc_on_candidates paths sc
    (sim_alloc (for_each_pair sc tot paths step (initial_state sc))).
Proof.
  intros Hstep. apply for_each_pair_preserve_in.
  - intros h dd st Hh Hdd _ Hst. apply Hstep; [|exact Hst].
    intros p st' x Hp Hst'. apply commit_on_candidates; try assumption.
    apply (host_demands_keys sc tot h dd Hdd).
  - intros k v [].
Qed.

Lemma run_r1_on_candidates (sc : scenario) (mode : sim_mode) (b : bool) (r : sim_report) :
  run_behavioral_sim_r1 sc mode b = SimOk r ->
  alloc_on_candidates (possible_paths_r1 sc b) sc (traffic_allocation r).
Proof.
  intros Hr. destruct (run_r1_result sc mode b r Hr) as [_ [-> _]].
  apply run_on_candidates. intros h d dem ps st P Hc Hst.
  apply (step_r1_preserve P); assumption.
Qed.

Lemma run_r3_on_candidates (sc : scenario) (mode : sim_mode) (r : sim_report) :
  run_behavioral_sim_r3 sc mode = SimOk r ->
  alloc_on_candidates (possible_paths sc) sc (traffic_allocation r).
Proof.
  intros Hr. destruct (run_r3_result sc mode r Hr) as [_ [-> _]].
  apply run_on_candidates. intros h d dem ps st P Hc Hst.
  apply (step_r3_preserve P); assumption.
Qed.

Lemma path_id_r3_key (h p d : string) :
  contains "_" h = false ->
  contains "_to_" ("_" ++ p ++ "_to") = false ->
  path_id_r3 (alloc_key h p d) = Some p.
Proof.
  intros Hh Hp.
  assert (Hk : alloc_key h p d = (h ++ "_" ++ p) ++ ("_to" ++ "_") ++ d).
  { unfold alloc_key. rewrite !append_assoc. reflexivity. }
  assert (Hs : split_once ("_to" ++ String "_" EmptyString) (alloc_key h p d)
               = Some (h ++ "_" ++ p, d)).
  { rewrite Hk. apply split_once_app.
    rewrite append_assoc.
    change ("_to" ++ String "_" EmptyString) with (String "_" "to_").
    rewrite contains_underscore_prefix by exact Hh. exact Hp. }
  unfold path_id_r3, py_split.
  destruct (length (alloc_key h p d)) as [|f] eqn:Hl.
  - exfalso. rewrite Hk in Hl. rewrite !length_append in Hl. simpl in Hl. lia.
  - change ("_to" ++ String "_" EmptyString) with "_to_" in Hs.
    cbn [py_split_fuel]. rewrite Hs. cbv beta iota.
    rewrite (py_split1_host h p Hh). reflexivity.
Qed.

(** On names for which the keys parse, [total_cost] raises nothing. *)
Lemma total_cost_parses (pm : dict string) (costs : dict Q) (alloc : str_allocation) :
  (forall kv, In kv alloc -> path_id_r3 (fst kv) <> None) ->
  total_cost pm costs alloc <> None.
Proof.
  induction alloc as [|[k v] rest IH]; intros H; simpl; [discriminate|].
  destruct (path_id_r3 k) as [p|] eqn:E;
    [|exfalso; apply (H (k, v) (or_introl eq_refl)); exact E].
  destruct (total_cost pm costs rest) as [c|] eqn:Ec; [discriminate|].
  exfalso. apply IH; [|reflexivity]. intros kv Hkv. apply H. right. exact Hkv.
Qed.

Lemma str_keys_parse (sc : scenario) (paths : string -> string -> list path_info)
    (a : allocation) :
  (forall h d q, In q (paths h d) -> In (pi_path q) (dget_or (paths_per_endhost sc) h [])) ->
  keys_parse sc -> alloc_on_candidates paths sc a ->
  forall kv, In kv (str_of_allocation a) -> path_id_r3 (fst kv) <> None.
Proof.
  intros Hpp [Hh Hp] Ha kv Hkv. unfold str_of_allocation in Hkv.
  apply in_map_iff in Hkv as [[k v] [<- Hin]]. simpl.
  destruct (Ha k v Hin) as [_ [Hk [_ [q [Hq Hqp]]]]].
  rewrite (path_id_r3_key (t_host k) (t_path k) (t_dest k)); [discriminate|
    apply Hh; exact Hk|].
  apply (Hp (t_host k)). rewrite <- Hqp. apply (Hpp _ _ _ Hq).
Qed.

(** On such names rounds 1 and 3 end as [finish] does. *)
Lemma finish_r13_parses (sc : scenario) (paths : string -> string -> list path_info)
    (st : sim_state) :
  (forall h d q, In q (paths h d) -> In (pi_path q) (dget_or (paths_per_endhost sc) h [])) ->
  keys_parse sc -> alloc_on_candidates paths sc (sim_alloc st) ->
  finish_r13 sc st = finish sc st.
Proof.
  intros Hpp Hk Ha. unfold finish_r13.
  destruct (total_cost _ _ _) eqn:E; [reflexivity|].
  exfalso. revert E. apply total_cost_parses. apply (str_keys_parse sc paths); assumption.
Qed.

Lemma candidate_paths_of_host (keep : string -> bool) (sc : scenario) (h d : string)
    (q : path_info) :
  In q (candidate_paths keep sc h d) -> In (pi_path q) (dget_or (paths_per_endhost sc) h []).
Proof. intros Hq. apply candidate_paths_in_iff in Hq. apply Hq. Qed.

Lemma solve_cost_lp_r1_feasible (solve : lp_problem -> lp_status * lp_values)
    (sc : scenario) (goal : lp_sense) (r : lp_report) :
  solver_sound solve ->
  solve_cost_lp_r1 solve sc goal = LPOk r -> lp_status_of r = Optimal ->
  exists vals,
    feasibleb (adversarial_lp_problem sc goal
                 (x_vars_keys (fun e => mem e (map fst (egress_costs sc))) sc)) vals = true /\
    lp_traffic_allocation r =
      lp_allocation vals (x_vars_keys (fun e => mem e (map fst (egress_costs sc))) sc).
Proof.
  intros Hs. unfold solve_cost_lp_r1.
  destruct (x_vars_keys (fun e => mem e (map fst (egress_costs sc))) sc) as [|k0 l0];
    [discriminate|].
  destruct (solve (adversarial_lp_problem sc goal (k0 :: l0))) as [st vals] eqn:Es.
  intros [= <-] Hopt. simpl in Hopt. subst st.
  exists vals. split; [|reflexivity].
  pose proof (Hs (adversarial_lp_problem sc goal (k0 :: l0))) as H. rewrite Es in H.
  apply H. reflexivity.
Qed.

(* ================================================================== *)
(** * The claims *)

(* ------------------------------------------------------------------ *)
(** ** C1: the capacity invariant *)

(** C1 (capacity invariant), as the code has it.  Given non-negative
    uplinks and capacities, every allocation a heuristic allocator returns
    respects every host uplink and every egress capacity, with no tolerance
    needed: the round 1 simulator (both modes, with or without transit
    links), the round 3 simulator (both modes, also [model_eval]) and
    [simulate_fair_share].  The LP allocators respect them when the solver
    reports [Optimal] (given a solver whose [Optimal] points are feasible):
    the round 3 cost LP (both senses) and latency LP, and the round 1 cost
    LP (also [model_eval]); [lp_model_costs] fills its allocation only under
    [Optimal], so every allocation it returns respects them. *)
Theorem capacity_invariant (solve : lp_problem -> lp_status * lp_values)
    (sc : scenario) :
  rates_nonneg sc -> solver_sound solve ->
  (forall mode b r, run_behavioral_sim_r1 sc mode b = SimOk r ->
     respects_capacities sc (traffic_allocation r)) /\
  (forall mode r, run_behavioral_sim_r3 sc mode = SimOk r ->
     respects_capacities sc (traffic_allocation r)) /\
  (forall r, simulate_fair_share sc = Some r ->
     respects_capacities sc (traffic_allocation r)) /\
  (forall goal r, solve_cost_lp solve sc goal = LPOk r ->
     lp_status_of r = Optimal -> respects_capacities sc (lp_traffic_allocation r)) /\
  (forall r, solve_latency_lp solve sc = LPOk r ->
     lp_status_of r = Optimal -> respects_capacities sc (lp_traffic_allocation r)) /\
  (forall goal r, solve_cost_lp_r1 solve sc goal = LPOk r ->
     lp_status_of r = Optimal -> respects_capacities sc (lp_traffic_allocation r)) /\
  (forall goal s o a, solve_adversarial_path_selection solve sc goal = (s, o, Some a) ->
     respects_capacities sc a).
Proof.
  intros Hr Hs.
  assert (Hc : forall h d p st x,
     dget (path_to_egress_mapping sc) (pi_path p) = Some (pi_egress p) ->
     ledger_inv sc st ->
     ledger_inv sc (commit h (pi_path p) (pi_egress p) d (clamp st h (pi_egress p) x) st))
    by (intros; apply commit_clamp_ledger; assumption).
  pose proof (initial_ledger sc Hr) as H0.
  split; [|split; [|split; [|split; [|split; [|split]]]]].
  - intros mode b r Hrun. destruct (run_r1_result sc mode b r Hrun) as [_ [-> _]].
    apply ledger_respects. apply run_r1_preserve; assumption.
  - intros mode r Hrun. destruct (run_r3_result sc mode r Hrun) as [_ [-> _]].
    apply ledger_respects. apply run_r3_preserve; assumption.
  - intros r Hrun. destruct (run_fs_result sc r Hrun) as [_ [-> _]].
    apply ledger_respects. apply run_fs_preserve; assumption.
  - intros goal r Hrun Hopt.
    destruct (solve_cost_lp_feasible solve sc goal r Hs Hrun Hopt)
      as [keys [vals [_ [_ [Hf ->]]]]].
    destruct (feasibleb_spec _ _ Hf) as [Hnn Hcs]. simpl in Hnn, Hcs.
    apply lp_alloc_respects.
    + apply continuous_keys. exact Hnn.
    + apply uplink_constraints_hold. intros c Hc'. apply Hcs. apply in_app3_m. exact Hc'.
    + apply egress_constraints_r3_hold. intros c Hc'. apply Hcs. apply in_app3_r. exact Hc'.
  - intros r Hrun Hopt.
    destruct (solve_latency_lp_feasible solve sc r Hs Hrun Hopt)
      as [keys [vals [Hf ->]]].
    destruct (feasibleb_spec _ _ Hf) as [Hnn Hcs]. simpl in Hnn, Hcs.
    apply lp_alloc_respects.
    + apply continuous_keys. exact Hnn.
    + apply uplink_constraints_hold. intros c Hc'. apply Hcs. right.
      apply in_or_app. left. exact Hc'.
    + apply capacity_constraints_hold. intros c Hc'. apply Hcs. right.
      apply in_or_app. right. exact Hc'.
  - intros goal r Hrun Hopt.
    destruct (solve_cost_lp_r1_feasible solve sc goal r Hs Hrun Hopt) as [vals [Hf ->]].
    destruct (feasibleb_spec _ _ Hf) as [Hnn Hcs]. simpl in Hnn, Hcs.
    apply lp_alloc_respects.
    + apply continuous_keys. exact Hnn.
    + apply uplink_constraints_hold. intros c Hc'. apply Hcs. apply in_app3_m. exact Hc'.
    + apply capacity_constraints_hold. intros c Hc'. apply Hcs. apply in_app3_r. exact Hc'.
  - intros goal s o a Hrun.
    destruct (adversarial_alloc_cases solve sc goal s o a Hs Hrun)
      as [->|[keys [vals [_ [_ [Hf ->]]]]]]; [apply empty_respects; exact Hr|].
    destruct (feasibleb_spec _ _ Hf) as [Hnn Hcs]. simpl in Hnn, Hcs.
    apply lp_alloc_respects.
    + apply continuous_keys. exact Hnn.
    + apply uplink_constraints_hold. intros c Hc'. apply Hcs. apply in_app3_m. exact Hc'.
    + apply capacity_constraints_hold. intros c Hc'. apply Hcs. apply in_app3_r. exact Hc'.
Qed.

Lemma capacity_invariant_witness :
  rates_nonneg (two_host_scenario 40) /\
  solver_sound (checking_solver (uniform_point 10 1)) /\
  match solve_cost_lp (checking_solver (uniform_point 10 1))
          (two_host_scenario 40) LpMaximize with
  | LPOk r => lp_status_of r = Optimal /\
              respects_capacities (two_host_scenario 40) (lp_traffic_allocation r)
  | LPError _ => False
  end /\
  match run_behavioral_sim_r1 (two_host_scenario 40) thundering_herd true with
  | SimOk r => respects_capacities (two_host_scenario 40) (traffic_allocation r)
  | _ => False
  end.
Proof.
  assert (Hr : rates_nonneg (two_host_scenario 40))
    by (apply rates_nonnegb_spec; vm_compute; reflexivity).
  pose proof (checking_solver_sound (uniform_point 10 1)) as Hs.
  destruct (capacity_invariant (checking_solver (uniform_point 10 1))
              (two_host_scenario 40) Hr Hs) as [Hr1 [_ [_ [Hcost _]]]].
  split; [exact Hr|]. split; [exact Hs|]. split.
  - destruct (solve_cost_lp (checking_solver (uniform_point 10 1))
                (two_host_scenario 40) LpMaximize) as [msg|r] eqn:E.
    + vm_compute in E. discriminate.
    + assert (Ho : lp_status_of r = Optimal)
        by (vm_compute in E; injection E as <-; reflexivity).
      split; [exact Ho|]. exact (Hcost LpMaximize r E Ho).
  - destruct (run_behavioral_sim_r1 (two_host_scenario 40) thundering_herd true)
      as [msg|r|msg] eqn:E.
    + vm_compute in E. discriminate.
    + exact (Hr1 thundering_herd true r E).
    + vm_compute in E. discriminate.
Defined.

(** The LP allocators read the solver's values whatever the status: on the
    two-host scenario with demand 1000 (above the 80 the egresses can
    carry), a solver that leaves every [x] at 250 reports [Infeasible], and
    the round 3 cost LP, the latency LP and the round 1 cost LP all return
    that point, 500 on the transit egress of capacity 50. *)
Lemma capacity_invariant_counterexample :
  rates_nonneg (two_host_scenario 1000) /\
  solver_sound (checking_solver (uniform_point 250 1)) /\
  (exists r, solve_cost_lp (checking_solver (uniform_point 250 1))
               (two_host_scenario 1000) LpMinimize = LPOk r /\
     lp_status_of r = Infeasible /\
     ~ respects_capacities (two_host_scenario 1000) (lp_traffic_allocation r)) /\
  (exists r, solve_latency_lp (checking_solver (uniform_point 250 1))
               (two_host_scenario 1000) = LPOk r /\
     lp_status_of r = Infeasible /\
     ~ respects_capacities (two_host_scenario 1000) (lp_traffic_allocation r)) /\
  (exists r, solve_cost_lp_r1 (checking_solver (uniform_point 250 1))
               (two_host_scenario 1000) LpMinimize = LPOk r /\
     lp_status_of r = Infeasible /\
     ~ respects_capacities (two_host_scenario 1000) (lp_traffic_allocation r)).
Proof.
  assert (Hn : forall a, egress_flow (path_to_egress_mapping (two_host_scenario 1000)) a
                           "transit" == 500 ->
                ~ respects_capacities (two_host_scenario 1000) a).
  { intros a Ha [_ He]. specialize (He "transit" (or_introl eq_refl)).
    rewrite Ha in He. vm_compute in He. apply He. reflexivity. }
  split; [apply rates_nonnegb_spec; vm_compute; reflexivity|].
  split; [apply checking_solver_sound|].
  split; [|split]; (eexists; split; [vm_compute; reflexivity|]);
    (split; [reflexivity|apply Hn; vm_compute; reflexivity]).
Qed.

(* ------------------------------------------------------------------ *)
(** ** Totals of a simulator run *)

Lemma qsum_map_scale {A : Type} (l : list A) (g : A -> Q) (c : Q) :
  qsum (map (fun x => g x * c) l) == qsum (map g l) * c.
Proof. induction l as [|x l IH]; simpl; [lra|rewrite IH; ring]. Qed.

Lemma qsum_map_scale_l {A : Type} (l : list A) (g : A -> Q) (c : Q) :
  qsum (map (fun x => c * g x) l) == c * qsum (map g l).
Proof. induction l as [|x l IH]; simpl; [lra|rewrite IH; ring]. Qed.

Lemma qsum_map_zero {A : Type} (l : list A) : qsum (map (fun _ => 0) l) == 0.
Proof. induction l as [|x l IH]; simpl; [lra|rewrite IH; lra]. Qed.

Lemma dget_or_dremove {V : Type} (m : dict V) (k k' : string) (d : V) :
  k' <> k -> dget_or (dremove m k) k' d = dget_or m k' d.
Proof.
  intros Hne. unfold dget_or. induction m as [|[k0 v0] m IH]; simpl; [reflexivity|].
  destruct (String.eqb_spec k k0) as [->|Hk]; simpl.
  - replace (String.eqb k' k0) with false
      by (symmetry; apply String.eqb_neq; exact Hne). reflexivity.
  - destruct (String.eqb k' k0); [reflexivity|exact IH].
Qed.

Lemma qsum_dremove (m : dict Q) (k : string) :
  qsum (map snd m) == dget_or m k 0 + qsum (map snd (dremove m k)).
Proof.
  unfold dget_or. induction m as [|[k0 v0] m IH]; simpl; [lra|].
  destruct (String.eqb k k0); simpl; [lra|]. rewrite IH. lra.
Qed.

Lemma dremove_in {V : Type} (m : dict V) (k a : string) (b : V) :
  In (a, b) (dremove m k) -> In (a, b) m.
Proof.
  induction m as [|[k0 v0] m IH]; simpl; [auto|].
  destruct (String.eqb k k0); simpl; [auto|]. intros [H|H]; auto.
Qed.

(** Distinct hosts hold at most the total uplink between them. *)
Lemma sum_hosts_le (U : dict Q) (H : list string) :
  (forall k v, In (k, v) U -> 0 <= v) -> NoDup H ->
  qsum (map (fun h => dget_or U h 0) H) <= qsum (map snd U).
Proof.
  revert U. induction H as [|h H IH]; intros U Hu Hnd; simpl.
  - pose proof (qsum_map_nonneg U snd) as Hn.
    assert (0 <= qsum (map snd U)) by (apply Hn; intros [k v] Hin; exact (Hu k v Hin)).
    lra.
  - inversion Hnd as [|? ? Hh Hnd']; subst.
    rewrite (qsum_dremove U h).
    assert (E : qsum (map (fun h' => dget_or U h' 0) H)
                == qsum (map (fun h' => dget_or (dremove U h) h' 0) H)).
    { apply qsum_map_eq. intros h' Hin. rewrite dget_or_dremove; [lra|].
      intros ->. exact (Hh Hin). }
    rewrite E.
    assert (qsum (map (fun h' => dget_or (dremove U h) h' 0) H)
            <= qsum (map snd (dremove U h))).
    { apply IH; [|exact Hnd']. intros k v Hin. apply (Hu k v).
      apply (dremove_in U h). exact Hin. }
    lra.
Qed.

Lemma commit_total_le (st : sim_state) (h p e d : string) (sent : Q) :
  total_flow (sim_alloc (commit h p e d sent st))
  <= total_flow (sim_alloc st) + Qmax 0 sent.
Proof.
  rewrite total_flow_commit.
  pose proof (Q.le_max_l 0 sent). pose proof (Q.le_max_r 0 sent).
  destruct (qltb 0 sent); lra.
Qed.

Lemma send_each_total (h d : string) (x : Q) (ps : list path_info) (st : sim_state) :
  0 <= x ->
  total_flow (sim_alloc (send_each h d x ps st))
  <= total_flow (sim_alloc st) + qlen ps * x.
Proof.
  intros Hx. revert st. induction ps as [|p ps IH]; intros st; simpl.
  - rewrite qlen_nil. lra.
  - rewrite qlen_cons.
    specialize (IH (commit h (pi_path p) (pi_egress p) d
                      (clamp st h (pi_egress p) x) st)).
    pose proof (commit_total_le st h (pi_path p) (pi_egress p) d
                  (clamp st h (pi_egress p) x)) as Hc.
    destruct (clamp_le st h (pi_egress p) x) as [Hle _].
    assert (Qmax 0 (clamp st h (pi_egress p) x) <= x)
      by (apply Q.max_lub; lra).
    lra.
Qed.

(** The greedy fill sends what it takes off the remaining demand, and
    the remaining demand stays non-negative. *)
Lemma fill_greedy_total (h d : string) (r : Q) (ps : list path_info) (st : sim_state) :
  0 <= r ->
  total_flow (sim_alloc (fst (fill_greedy h d r ps st))) + snd (fill_greedy h d r ps st)
  == total_flow (sim_alloc st) + r /\
  0 <= snd (fill_greedy h d r ps st).
Proof.
  revert r st. induction ps as [|p ps IH]; intros r st Hr; simpl; [split; lra|].
  destruct (Qle_bool r eps6); simpl; [split; lra|].
  destruct (qltb 0 (clamp st h (pi_egress p) r)) eqn:Ec.
  - destruct (clamp_le st h (pi_egress p) r) as [Hle _].
    destruct (IH (r - clamp st h (pi_egress p) r)
                 (commit h (pi_path p) (pi_egress p) d (clamp st h (pi_egress p) r) st))
      as [IH1 IH2]; [lra|].
    rewrite total_flow_commit, Ec in IH1. split; [lra|exact IH2].
  - apply IH. exact Hr.
Qed.

Lemma div_nonneg (a b : Q) : 0 <= a -> 0 < b -> 0 <= a / b.
Proof.
  intros Ha Hb. apply Qle_shift_div_l; [exact Hb|]. lra.
Qed.

Lemma qlen_pos {A : Type} (x : A) (l : list A) : 0 < qlen (x :: l).
Proof. rewrite qlen_cons. pose proof (qlen_nonneg l). lra. Qed.

Lemma qlen_share {A : Type} (l : list A) (dem : Q) :
  l <> [] -> qlen l * (dem / qlen l) == dem.
Proof.
  destruct l as [|x l]; [congruence|]. intros _.
  pose proof (qlen_pos x l). apply Qmult_div_r. lra.
Qed.

Lemma send_share_total (h d : string) (dem : Q) (ps : list path_info) (st : sim_state) :
  ps <> [] -> 0 <= dem ->
  total_flow (sim_alloc (send_each h d (dem / qlen ps) ps st))
  <= total_flow (sim_alloc st) + dem.
Proof.
  intros Hps Hd. destruct ps as [|p ps']; [congruence|].
  pose proof (qlen_pos p ps').
  pose proof (send_each_total h d (dem / qlen (p :: ps')) (p :: ps') st
                (div_nonneg _ _ Hd H)).
  rewrite (qlen_share (p :: ps') dem Hps) in H0. exact H0.
Qed.

Lemma step_r1_total (mode : sim_mode) (h d : string) (dem : Q) (ps : list path_info)
    (st : sim_state) :
  ps <> [] -> 0 <= dem ->
  total_flow (sim_alloc (step_r1 mode h d dem ps st)) <= total_flow (sim_alloc st) + dem.
Proof.
  intros Hps Hd. destruct mode; simpl.
  - destruct (fill_greedy_total h d dem (sort_by_latency ps) st Hd) as [H1 H2]. lra.
  - apply send_share_total; assumption.
Qed.

Lemma step_r3_total (mode : sim_mode) (h d : string) (dem : Q) (ps : list path_info)
    (st : sim_state) :
  ps <> [] -> 0 <= dem ->
  total_flow (sim_alloc (step_r3 mode h d dem ps st)) <= total_flow (sim_alloc st) + dem.
Proof.
  intros Hps Hd. unfold step_r3.
  destruct mode; [destruct ps as [|p ps']; [congruence|]|];
    apply send_share_total; try assumption; discriminate.
Qed.

Lemma step_fs_total (h d : string) (dem : Q) (ps : list path_info) (st : sim_state) :
  ps <> [] -> 0 <= dem ->
  total_flow (sim_alloc (step_fs h d dem ps st)) <= total_flow (sim_alloc st) + dem.
Proof. apply send_share_total. Qed.

Lemma for_each_pair_total (sc : scenario) (tot : Q)
    (paths : string -> string -> list path_info)
    (step : string -> string -> Q -> list path_info -> sim_state -> sim_state)
    (st : sim_state) :
  (forall h d dem ps st, ps <> [] -> 0 <= dem ->
     total_flow (sim_alloc (step h d dem ps st)) <= total_flow (sim_alloc st) + dem) ->
  (forall h dd, In dd (host_demands sc tot h) -> 0 <= snd dd) ->
  total_flow (sim_alloc (for_each_pair sc tot paths step st))
  <= total_flow (sim_alloc st)
     + qsum (map (fun h => qsum (map snd (host_demands sc tot h))) (endhosts sc)).
Proof.
  intros Hstep Hdem. unfold for_each_pair.
  generalize (endhosts sc) as hs. intros hs. revert st.
  induction hs as [|h hs IH]; intros st; simpl; [lra|].
  match goal with
  | |- context [fold_left ?F hs (fold_left ?G ?L st)] =>
      specialize (IH (fold_left G L st));
      assert (Hin : total_flow (sim_alloc (fold_left G L st))
                    <= total_flow (sim_alloc st) + qsum (map snd L))
  end.
  { assert (Hd : forall dd, In dd (host_demands sc tot h) -> 0 <= snd dd)
      by (intros dd; apply Hdem).
    clear IH. revert Hd. generalize (host_demands sc tot h) as dds. intros dds. revert st.
    induction dds as [|dd dds IHd]; intros st Hd'; simpl; [lra|].
    pose proof (Hd' dd (or_introl eq_refl)) as H0.
    match goal with
    | |- context [fold_left ?G dds ?s] =>
        assert (Hs : total_flow (sim_alloc s) <= total_flow (sim_alloc st) + snd dd)
    end.
    { destruct (paths h (fst dd)) as [|p ps] eqn:E; [lra|].
      apply Hstep; [discriminate|exact H0]. }
    match goal with
    | |- context [fold_left ?G dds ?s] =>
        assert (total_flow (sim_alloc (fold_left G dds s))
                <= total_flow (sim_alloc s) + qsum (map snd dds))
          by (apply IHd; intros; apply Hd'; right; assumption)
    end.
    lra. }
  lra.
Qed.

(** Splitting the demands by uplink share hands out at most the total
    demand. *)
Lemma host_demands_total (sc : scenario) :
  rates_nonneg sc -> NoDup (endhosts sc) ->
  (forall k v, In (k, v) (traffic_per_destination sc) -> 0 <= v) ->
  0 < total_uplink_of sc ->
  qsum (map (fun h => qsum (map snd (host_demands sc (total_uplink_of sc) h)))
            (endhosts sc))
  <= qsum (map snd (traffic_per_destination sc)).
Proof.
  intros [Hu _] Hnd Ht Htot.
  set (S := qsum (map snd (traffic_per_destination sc))).
  set (tot := total_uplink_of sc). change (0 < tot) in Htot.
  assert (E : qsum (map (fun h => qsum (map snd (host_demands sc tot h))) (endhosts sc))
              == S * (qsum (map (fun h => dget_or (endhost_uplinks sc) h 0) (endhosts sc))
                      * / tot)).
  { rewrite <- (qsum_map_scale _ _ (/ tot)), <- qsum_map_scale_l.
    apply qsum_map_eq. intros h _. unfold host_demands. rewrite map_map. simpl.
    unfold Qdiv. rewrite (qsum_map_scale _ snd). fold S. ring. }
  rewrite E.
  assert (HS : 0 <= S).
  { apply qsum_map_nonneg. intros [k v] Hin. exact (Ht k v Hin). }
  assert (Hsum : qsum (map (fun h => dget_or (endhost_uplinks sc) h 0) (endhosts sc)) <= tot)
    by (apply sum_hosts_le; assumption).
  assert (H0 : 0 <= qsum (map (fun h => dget_or (endhost_uplinks sc) h 0) (endhosts sc))).
  { apply qsum_map_nonneg. intros h _. apply dget_or_nonneg. exact Hu. }
  assert (Hi : 0 <= / tot) by (apply Qinv_le_0_compat; lra).
  assert (Hx : qsum (map (fun h => dget_or (endhost_uplinks sc) h 0) (endhosts sc)) * / tot
               <= 1).
  { assert (Hx' : qsum (map (fun h => dget_or (endhost_uplinks sc) h 0) (endhosts sc)) * / tot
                  <= tot * / tot) by (apply Qmult_le_compat_r; assumption).
    assert (tot * / tot == 1) by (apply Qmult_inv_r; lra). lra. }
  assert (Hx0 : 0 <= qsum (map (fun h => dget_or (endhost_uplinks sc) h 0) (endhosts sc)) * / tot)
    by (apply Qmult_le_0_compat; assumption).
  pose proof (Qmult_le_compat_r _ _ S Hx HS). lra.
Qed.

Lemma total_uplink_pos (sc : scenario) :
  rates_nonneg sc -> ~ (total_uplink_of sc == 0) -> 0 < total_uplink_of sc.
Proof.
  intros [Hu _] Hz. unfold total_uplink_of.
  assert (0 <= qsum (map snd (endhost_uplinks sc))).
  { apply qsum_map_nonneg. intros [k v] Hin. exact (Hu k v Hin). }
  unfold total_uplink_of in Hz. lra.
Qed.

Lemma host_demands_nonneg (sc : scenario) (tot : Q) (h : string) (dd : string * Q) :
  rates_nonneg sc -> 0 < tot ->
  (forall k v, In (k, v) (traffic_per_destination sc) -> 0 <= v) ->
  In dd (host_demands sc tot h) -> 0 <= snd dd.
Proof.
  intros [Hu _] Htot Ht Hin. unfold host_demands in Hin.
  apply in_map_iff in Hin as [[k v] [<- Hin]]. simpl.
  apply Qmult_le_0_compat; [exact (Ht k v Hin)|].
  apply div_nonneg; [apply dget_or_nonneg; exact Hu|exact Htot].
Qed.

Lemma total_flow_initial (sc : scenario) : total_flow (sim_alloc (initial_state sc)) == 0.
Proof. reflexivity. Qed.

(* ------------------------------------------------------------------ *)
(** ** C4: unsent traffic is never negative *)

(** C4 (unsent traffic).  For a scenario with distinct hosts and
    non-negative uplinks, capacities and demands, every heuristic run that
    returns a result (which requires a positive total uplink) reports as
    unsent traffic exactly the total demand minus the total sent, with no
    clamping, and that value is non-negative. *)
Theorem unsent_traffic_nonneg (sc : scenario) :
  rates_nonneg sc -> NoDup (endhosts sc) ->
  (forall k v, In (k, v) (traffic_per_destination sc) -> 0 <= v) ->
  (forall mode b r, run_behavioral_sim_r1 sc mode b = SimOk r ->
     total_unsent_traffic r =
       qsum (map snd (traffic_per_destination sc)) - total_sent_traffic r /\
     0 <= total_unsent_traffic r) /\
  (forall mode r, run_behavioral_sim_r3 sc mode = SimOk r ->
     total_unsent_traffic r =
       qsum (map snd (traffic_per_destination sc)) - total_sent_traffic r /\
     0 <= total_unsent_traffic r) /\
  (forall r, simulate_fair_share sc = Some r ->
     total_unsent_traffic r =
       qsum (map snd (traffic_per_destination sc)) - total_sent_traffic r /\
     0 <= total_unsent_traffic r).
Proof.
  intros Hr Hnd Ht.
  assert (Hdem : forall tot h dd, 0 < tot -> In dd (host_demands sc tot h) -> 0 <= snd dd)
    by (intros tot h dd Htot; apply host_demands_nonneg; assumption).
  split; [|split].
  - intros mode b r Hrun. destruct (run_r1_result sc mode b r Hrun) as [Hz [Ha [Hs Hu]]].
    split; [exact Hu|]. rewrite Hu, Hs, Ha.
    pose proof (total_uplink_pos sc Hr Hz) as Hpos.
    pose proof (for_each_pair_total sc (total_uplink_of sc) (possible_paths_r1 sc b)
                  (step_r1 mode) (initial_state sc) (step_r1_total mode)
                  (fun h dd => Hdem _ h dd Hpos)).
    pose proof (host_demands_total sc Hr Hnd Ht Hpos).
    rewrite total_flow_initial in H. lra.
  - intros mode r Hrun. destruct (run_r3_result sc mode r Hrun) as [Hz [Ha [Hs Hu]]].
    split; [exact Hu|]. rewrite Hu, Hs, Ha.
    pose proof (total_uplink_pos sc Hr Hz) as Hpos.
    pose proof (for_each_pair_total sc (total_uplink_of sc) (possible_paths sc)
                  (step_r3 mode) (initial_state sc) (step_r3_total mode)
                  (fun h dd => Hdem _ h dd Hpos)).
    pose proof (host_demands_total sc Hr Hnd Ht Hpos).
    rewrite total_flow_initial in H. lra.
  - intros r Hrun. destruct (run_fs_result sc r Hrun) as [Hz [Ha [Hs Hu]]].
    split; [exact Hu|]. rewrite Hu, Hs, Ha.
    pose proof (total_uplink_pos sc Hr Hz) as Hpos.
    pose proof (for_each_pair_total sc (total_uplink_of sc) (possible_paths sc)
                  step_fs (initial_state sc) step_fs_total
                  (fun h dd => Hdem _ h dd Hpos)).
    pose proof (host_demands_total sc Hr Hnd Ht Hpos).
    rewrite total_flow_initial in H. lra.
Qed.

Lemma unsent_traffic_nonneg_witness :
  rates_nonneg (two_host_scenario 100) /\ NoDup (endhosts (two_host_scenario 100)) /\
  (forall k v, In (k, v) (traffic_per_destination (two_host_scenario 100)) -> 0 <= v) /\
  match run_behavioral_sim_r1 (two_host_scenario 100) thundering_herd true with
  | SimOk r => total_unsent_traffic r == 20 /\ 0 <= total_unsent_traffic r
  | _ => False
  end.
Proof.
  assert (Hr : rates_nonneg (two_host_scenario 100))
    by (apply rates_nonnegb_spec; vm_compute; reflexivity).
  assert (Hn : NoDup (endhosts (two_host_scenario 100)))
    by (simpl; repeat constructor; simpl; intuition discriminate).
  assert (Ht : forall k v, In (k, v) (traffic_per_destination (two_host_scenario 100)) -> 0 <= v)
    by (apply demands_nonnegb_spec; vm_compute; reflexivity).
  destruct (unsent_traffic_nonneg (two_host_scenario 100) Hr Hn Ht) as [H1 _].
  split; [exact Hr|]. split; [exact Hn|]. split; [exact Ht|].
  destruct (run_behavioral_sim_r1 (two_host_scenario 100) thundering_herd true)
    as [msg|r|msg] eqn:E.
  - vm_compute in E. discriminate.
  - split; [vm_compute in E; injection E as <-; reflexivity|].
    exact (proj2 (H1 thundering_herd true r E)).
  - vm_compute in E. discriminate.
Defined.

(* ------------------------------------------------------------------ *)
(** ** C9: the shared counters never go negative *)

(** C9 (non-negative counters).  Each send step sends the [min] of the
    wanted amount and both remaining counters, so it sends at most each
    counter and keeps every counter non-negative; hence from the initial
    counters of a scenario with non-negative rates, through every pair of
    every heuristic run (round 1 both modes, round 3 both modes,
    [simulate_fair_share]), every counter stays non-negative. *)
Theorem counters_stay_nonneg (sc : scenario) :
  rates_nonneg sc ->
  counters_nonneg (initial_state sc) /\
  (forall st h p e d x, counters_nonneg st ->
     clamp st h e x <= dget_or (rem_uplink st) h 0 /\
     clamp st h e x <= dget_or (rem_egress st) e 0 /\
     counters_nonneg (commit h p e d (clamp st h e x) st)) /\
  (forall tot mode b st, counters_nonneg st ->
     counters_nonneg (for_each_pair sc tot (possible_paths_r1 sc b) (step_r1 mode) st)) /\
  (forall tot mode st, counters_nonneg st ->
     counters_nonneg (for_each_pair sc tot (possible_paths sc) (step_r3 mode) st)) /\
  (forall tot st, counters_nonneg st ->
     counters_nonneg (for_each_pair sc tot (possible_paths sc) step_fs st)).
Proof.
  intros Hr.
  assert (Hc : forall h d p st x, dget (path_to_egress_mapping sc) (pi_path p) = Some (pi_egress p) ->
     counters_nonneg st ->
     counters_nonneg (commit h (pi_path p) (pi_egress p) d (clamp st h (pi_egress p) x) st))
    by (intros; apply commit_clamp_nonneg; assumption).
  split; [exact Hr|]. split; [|split; [|split]].
  - intros st h p e d x Hst. destruct (clamp_le st h e x) as [_ [H1 H2]].
    split; [exact H1|]. split; [exact H2|]. apply commit_clamp_nonneg. exact Hst.
  - intros tot mode b st Hst. apply run_r1_preserve; assumption.
  - intros tot mode st Hst. apply run_r3_preserve; assumption.
  - intros tot st Hst. apply run_fs_preserve; assumption.
Qed.

Lemma counters_stay_nonneg_witness :
  rates_nonneg (two_host_scenario 40) /\
  counters_nonneg (for_each_pair (two_host_scenario 40)
                     (total_uplink_of (two_host_scenario 40))
                     (possible_paths_r1 (two_host_scenario 40) true)
                     (step_r1 thundering_herd) (initial_state (two_host_scenario 40))).
Proof.
  assert (Hr : rates_nonneg (two_host_scenario 40))
    by (apply rates_nonnegb_spec; vm_compute; reflexivity).
  destruct (counters_stay_nonneg (two_host_scenario 40) Hr) as [H0 [_ [H1 _]]].
  split; [exact Hr|]. apply H1. exact H0.
Defined.

(* ------------------------------------------------------------------ *)
(** ** C10: a zero total uplink is an error *)

Lemma alloc_add_nonneg (k : triple) (v : Q) (a : allocation) :
  alloc_nonneg a -> 0 <= v -> alloc_nonneg (alloc_add k v a).
Proof.
  intros Ha Hv. induction a as [|[k' v'] a IH]; simpl.
  - intros kv [<-|[]]. exact Hv.
  - assert (Hv' : 0 <= v') by exact (Ha (k', v') (or_introl eq_refl)).
    assert (Ha' : alloc_nonneg a) by (intros kv Hin; apply Ha; right; exact Hin).
    destruct (triple_eqb k k').
    + intros kv [<-|Hin]; [simpl; lra|exact (Ha' kv Hin)].
    + intros kv [<-|Hin]; [exact Hv'|exact (IH Ha' kv Hin)].
Qed.

Lemma commit_alloc_nonneg (st : sim_state) (h p e d : string) (sent : Q) :
  alloc_nonneg (sim_alloc st) -> alloc_nonneg (sim_alloc (commit h p e d sent st)).
Proof.
  intros Ha. unfold commit. destruct (qltb 0 sent) eqn:E; [|exact Ha].
  apply qltb_true in E. simpl. apply alloc_add_nonneg; [exact Ha|lra].
Qed.

Lemma alloc_sum_nonneg (f : triple -> bool) (a : allocation) :
  alloc_nonneg a -> 0 <= alloc_sum f a.
Proof.
  intros Ha. unfold alloc_sum. apply qsum_map_nonneg. intros kv Hin.
  apply filter_In in Hin as [Hin _]. exact (Ha kv Hin).
Qed.

Lemma ledger_zero_flow (sc : scenario) (st : sim_state) :
  ledger_inv sc st -> alloc_nonneg (sim_alloc st) ->
  zero_capacity_zero_flow sc (sim_alloc st).
Proof.
  intros [Hh [He [Hu Hg]]] Ha. split.
  - intros h Hz. specialize (Hh h).
    pose proof (dget_or_nonneg (rem_uplink st) h Hu).
    pose proof (alloc_sum_nonneg (fun k => String.eqb (t_host k) h) _ Ha).
    rewrite host_flow_sum in Hh |- *. lra.
  - intros e Hz. specialize (He e).
    pose proof (dget_or_nonneg (rem_egress st) e Hg).
    pose proof (alloc_sum_nonneg (fun k => match dget (path_to_egress_mapping sc) (t_path k) with
                                           | Some e' => String.eqb e' e
                                           | None => false
                                           end) _ Ha).
    rewrite egress_flow_sum in He |- *. lra.
Qed.

(** C10 (zero total uplink).  When the uplinks sum to zero, both
    [run_behavioral_sim] versions return the error ["Total uplink capacity
    is zero."] and [simulate_fair_share] returns [None]: no allocation.
    When the sum is not zero (and the rates are non-negative), that error
    is never returned: [simulate_fair_share] returns an allocation, and
    rounds 1 and 3 return one too unless [total_cost] raises its
    [IndexError] on a key (never on names for which the keys parse); in
    every allocation returned, a host with zero uplink and an egress with
    zero capacity carry zero flow. *)
Theorem zero_total_uplink (sc : scenario) :
  (total_uplink_of sc == 0 ->
     (forall mode b, run_behavioral_sim_r1 sc mode b =
                     SimError "Total uplink capacity is zero.") /\
     (forall mode, run_behavioral_sim_r3 sc mode =
                   SimError "Total uplink capacity is zero.") /\
     simulate_fair_share sc = None) /\
  (rates_nonneg sc -> ~ (total_uplink_of sc == 0) ->
     (forall mode b,
        ((exists r, run_behavioral_sim_r1 sc mode b = SimOk r /\
            zero_capacity_zero_flow sc (traffic_allocation r)) \/
         run_behavioral_sim_r1 sc mode b = SimRaise "IndexError") /\
        (keys_parse sc -> exists r, run_behavioral_sim_r1 sc mode b = SimOk r)) /\
     (forall mode,
        ((exists r, run_behavioral_sim_r3 sc mode = SimOk r /\
            zero_capacity_zero_flow sc (traffic_allocation r)) \/
         run_behavioral_sim_r3 sc mode = SimRaise "IndexError") /\
        (keys_parse sc -> exists r, run_behavioral_sim_r3 sc mode = SimOk r)) /\
     (exists r, simulate_fair_share sc = Some r /\
        zero_capacity_zero_flow sc (traffic_allocation r))).
Proof.
  split.
  - intros Hz. apply Qeq_bool_iff in Hz.
    unfold run_behavioral_sim_r1, run_behavioral_sim_r3, simulate_fair_share.
    rewrite Hz. split; [|split]; reflexivity.
  - intros Hr Hz.
    assert (Hb : Qeq_bool (total_uplink_of sc) 0 = false).
    { destruct (Qeq_bool (total_uplink_of sc) 0) eqn:E; [|reflexivity].
      apply Qeq_bool_iff in E. contradiction. }
    set (P := fun st => ledger_inv sc st /\ alloc_nonneg (sim_alloc st)).
    assert (Hc : forall h d p st x,
       dget (path_to_egress_mapping sc) (pi_path p) = Some (pi_egress p) ->
       P st -> P (commit h (pi_path p) (pi_egress p) d (clamp st h (pi_egress p) x) st)).
    { intros h d p st x Hpm [Hl Ha]. split.
      - apply commit_clamp_ledger; assumption.
      - apply commit_alloc_nonneg. exact Ha. }
    assert (H0 : P (initial_state sc)).
    { split; [apply initial_ledger; exact Hr|intros kv []]. }
    assert (Hend : forall st, P st ->
      ((exists r, finish_r13 sc st = SimOk r /\
          zero_capacity_zero_flow sc (traffic_allocation r)) \/
       finish_r13 sc st = SimRaise "IndexError")).
    { intros st [Hl Ha]. unfold finish_r13.
      destruct (total_cost _ _ _); [left|right; reflexivity].
      eexists. split; [reflexivity|]. simpl. apply ledger_zero_flow; assumption. }
    unfold run_behavioral_sim_r1, run_behavioral_sim_r3, simulate_fair_share.
    rewrite Hb. split; [|split].
    + intros mode b. split.
      * apply Hend. apply (run_r1_preserve sc P Hc (total_uplink_of sc) mode b _ H0).
      * intros Hk. rewrite (finish_r13_parses sc (possible_paths_r1 sc b));
          [eexists; reflexivity| |exact Hk|].
        -- intros h d q Hq. exact (candidate_paths_of_host _ _ _ _ _ Hq).
        -- apply run_on_candidates. intros h d dem ps st P' Hc' Hst'.
           apply (step_r1_preserve P'); assumption.
    + intros mode. split.
      * apply Hend. apply (run_r3_preserve sc P Hc (total_uplink_of sc) mode _ H0).
      * intros Hk. rewrite (finish_r13_parses sc (possible_paths sc));
          [eexists; reflexivity| |exact Hk|].
        -- intros h d q Hq. exact (candidate_paths_of_host _ _ _ _ _ Hq).
        -- apply run_on_candidates. intros h d dem ps st P' Hc' Hst'.
           apply (step_r3_preserve P'); assumption.
    + eexists. split; [reflexivity|]. simpl.
      destruct (run_fs_preserve sc P Hc (total_uplink_of sc) _ H0).
      apply ledger_zero_flow; assumption.
Qed.

Lemma zero_total_uplink_witness :
  (total_uplink_of (set_uplinks (two_host_scenario 40) [("h1", 0); ("h2", 0)]) == 0 /\
   simulate_fair_share (set_uplinks (two_host_scenario 40) [("h1", 0); ("h2", 0)]) = None) /\
  (rates_nonneg (set_uplinks (two_host_scenario 40) [("h1", 100); ("h2", 0)]) /\
   ~ (total_uplink_of (set_uplinks (two_host_scenario 40) [("h1", 100); ("h2", 0)]) == 0) /\
   keys_parse (set_uplinks (two_host_scenario 40) [("h1", 100); ("h2", 0)]) /\
   (exists r, run_behavioral_sim_r3 (set_uplinks (two_host_scenario 40)
                                      [("h1", 100); ("h2", 0)]) fair_share = SimOk r) /\
   exists r, run_behavioral_sim_r1 (set_uplinks (two_host_scenario 40)
                                      [("h1", 100); ("h2", 0)]) thundering_herd true = SimOk r /\
             host_flow (traffic_allocation r) "h2" == 0).
Proof.
  split.
  - assert (Hz : total_uplink_of (set_uplinks (two_host_scenario 40) [("h1", 0); ("h2", 0)]) == 0)
      by reflexivity.
    split; [exact Hz|].
    exact (proj2 (proj2 (proj1 (zero_total_uplink _) Hz))).
  - assert (Hr : rates_nonneg (set_uplinks (two_host_scenario 40) [("h1", 100); ("h2", 0)]))
      by (apply rates_nonnegb_spec; vm_compute; reflexivity).
    assert (Hz : ~ (total_uplink_of (set_uplinks (two_host_scenario 40)
                                       [("h1", 100); ("h2", 0)]) == 0))
      by (vm_compute; discriminate).
    assert (Hk : keys_parse (set_uplinks (two_host_scenario 40) [("h1", 100); ("h2", 0)])).
    { split.
      - simpl. intros h [<-|[<-|[]]]; reflexivity.
      - intros h p Hin. unfold dget_or in Hin. simpl in Hin.
        destruct (String.eqb h "h1"); [|destruct (String.eqb h "h2")]; simpl in Hin;
          repeat destruct Hin as [<-|Hin]; try reflexivity; contradiction. }
    split; [exact Hr|]. split; [exact Hz|]. split; [exact Hk|].
    destruct (proj2 (zero_total_uplink _) Hr Hz) as [H1 [H3 _]].
    split; [exact (proj2 (H3 fair_share) Hk)|].
    destruct (proj1 (H1 thundering_herd true)) as [[r [Er [Hh _]]]|Er].
    + exists r. split; [exact Er|]. apply Hh. reflexivity.
    + vm_compute in Er. discriminate.
Defined.

(* ------------------------------------------------------------------ *)
(** ** C2: the two thundering-herd implementations *)

Lemma commit_uplink_mono (st : sim_state) (h p e d k : string) (sent : Q) :
  dget_or (rem_uplink (commit h p e d sent st)) k 0 <= dget_or (rem_uplink st) k 0.
Proof.
  unfold commit. destruct (qltb 0 sent) eqn:E; simpl; [|lra].
  apply qltb_true in E. rewrite dget_or_dset.
  destruct (String.eqb_spec k h) as [->|_]; lra.
Qed.

Lemma commit_egress_mono (st : sim_state) (h p e d k : string) (sent : Q) :
  dget_or (rem_egress (commit h p e d sent st)) k 0 <= dget_or (rem_egress st) k 0.
Proof.
  unfold commit. destruct (qltb 0 sent) eqn:E; simpl; [|lra].
  apply qltb_true in E. rewrite dget_or_dset.
  destruct (String.eqb_spec k e) as [->|_]; lra.
Qed.

Lemma fill_greedy_mono (h d : string) (r : Q) (ps : list path_info) (st : sim_state)
    (k : string) :
  dget_or (rem_uplink (fst (fill_greedy h d r ps st))) k 0 <= dget_or (rem_uplink st) k 0 /\
  dget_or (rem_egress (fst (fill_greedy h d r ps st))) k 0 <= dget_or (rem_egress st) k 0 /\
  snd (fill_greedy h d r ps st) <= r.
Proof.
  revert r st. induction ps as [|p ps IH]; intros r st; simpl; [repeat split; lra|].
  destruct (Qle_bool r eps6); simpl; [repeat split; lra|].
  destruct (qltb 0 (clamp st h (pi_egress p) r)) eqn:Ec.
  - apply qltb_true in Ec.
    destruct (IH (r - clamp st h (pi_egress p) r)
                 (commit h (pi_path p) (pi_egress p) d (clamp st h (pi_egress p) r) st))
      as [H1 [H2 H3]].
    pose proof (commit_uplink_mono st h (pi_path p) (pi_egress p) d k
                  (clamp st h (pi_egress p) r)).
    pose proof (commit_egress_mono st h (pi_path p) (pi_egress p) d k
                  (clamp st h (pi_egress p) r)).
    repeat split; lra.
  - apply IH.
Qed.

(** A greedy fill that leaves more than [1e-6] of demand has used up, on
    every candidate path, the host uplink or the path's egress. *)
Lemma fill_greedy_exhausts (h d : string) (r : Q) (ps : list path_info) (st : sim_state) :
  eps6 < snd (fill_greedy h d r ps st) ->
  forall p, In p ps ->
    dget_or (rem_uplink (fst (fill_greedy h d r ps st))) h 0 <= 0 \/
    dget_or (rem_egress (fst (fill_greedy h d r ps st))) (pi_egress p) 0 <= 0.
Proof.
  revert r st. induction ps as [|p ps IH]; intros r st; simpl; [intros _ _ []|].
  destruct (Qle_bool r eps6) eqn:Er; simpl.
  { apply Qle_bool_iff in Er. lra. }
  set (c := clamp st h (pi_egress p) r).
  destruct (qltb 0 c) eqn:Ec; intros Hgt q Hq.
  - apply qltb_true in Ec.
    set (st' := commit h (pi_path p) (pi_egress p) d c st).
    change (commit h (pi_path p) (pi_egress p) d c st) with st' in Hgt.
    destruct Hq as [<-|Hq]; [|apply IH; assumption].
    destruct (fill_greedy_mono h d (r - c) ps st' h) as [Mu [_ Mr]].
    destruct (fill_greedy_mono h d (r - c) ps st' (pi_egress p)) as [_ [Me _]].
    assert (Hu : dget_or (rem_uplink st') h 0 == dget_or (rem_uplink st) h 0 - c).
    { unfold st', commit. apply qltb_true in Ec. rewrite Ec. simpl.
      rewrite dget_or_dset, String.eqb_refl. reflexivity. }
    assert (He : dget_or (rem_egress st') (pi_egress p) 0
                 == dget_or (rem_egress st) (pi_egress p) 0 - c).
    { unfold st', commit. apply qltb_true in Ec. rewrite Ec. simpl.
      rewrite dget_or_dset, String.eqb_refl. reflexivity. }
    destruct (clamp_cases st h (pi_egress p) r) as [E|[E|E]]; fold c in E;
      (assert (E' : c == c) by apply Qeq_refl; rewrite E in E' at 2).
    + pose proof eps6_pos. exfalso. lra.
    + left. lra.
    + right. lra.
  - apply qltb_false in Ec.
    destruct (fill_greedy_mono h d r ps st h) as [Mu [_ Mr]].
    destruct (fill_greedy_mono h d r ps st (pi_egress q)) as [_ [Me _]].
    destruct Hq as [<-|Hq]; [|apply IH; assumption].
    destruct (clamp_cases st h (pi_egress p) r) as [E|[E|E]]; fold c in E;
      (assert (E' : c == c) by apply Qeq_refl; rewrite E in E' at 2).
    + pose proof eps6_pos. exfalso. lra.
    + left. lra.
    + right. lra.
Qed.

Lemma lat_lt_asym (a b : xq) : lat_lt a b = true -> lat_lt b a = false.
Proof.
  destruct a as [x|], b as [y|]; simpl; try discriminate; try reflexivity.
  intros H. apply qltb_true in H. apply qltb_false. lra.
Qed.

Lemma lat_lt_irrefl (a : xq) : lat_lt a a = false.
Proof. destruct a as [x|]; simpl; [apply qltb_false; lra|reflexivity]. Qed.

Lemma lat_lt_trans (a b c : xq) :
  lat_lt a b = true -> lat_lt b c = true -> lat_lt a c = true.
Proof.
  destruct a as [x|], b as [y|], c as [z|]; simpl; try discriminate; try reflexivity.
  intros H1 H2. apply qltb_true in H1, H2. apply qltb_true. lra.
Qed.

Lemma insert_by_latency_in_iff (x p : path_info) (l : list path_info) :
  In p (insert_by_latency x l) <-> p = x \/ In p l.
Proof.
  split; [apply insert_by_latency_in|].
  induction l as [|y l IH]; simpl.
  - intros [->|[]]. left. reflexivity.
  - destruct (lat_lt (pi_latency x) (pi_latency y)); simpl.
    + intros [->|[->|H]]; auto.
    + intros [->|[->|H]]; auto.
Qed.

Lemma sort_by_latency_in_iff (ps : list path_info) (p : path_info) :
  In p (sort_by_latency ps) <-> In p ps.
Proof.
  split; [apply sort_by_latency_in|].
  unfold sort_by_latency.
  assert (G : forall acc, In p acc \/ In p ps ->
                In p (fold_left (fun acc x => insert_by_latency x acc) ps acc)).
  { induction ps as [|x ps IH]; simpl; intros acc H; [destruct H as [H|[]]; exact H|].
    apply IH. rewrite insert_by_latency_in_iff.
    destruct H as [H|[->|H]]; auto. }
  intros H. apply G. right. exact H.
Qed.

Lemma insert_by_latency_hd (x y : path_info) (l : list path_info) :
  HdRel lat_before y l -> lat_before y x -> HdRel lat_before y (insert_by_latency x l).
Proof.
  intros Hl Hx. destruct l as [|z l]; simpl.
  - constructor. exact Hx.
  - destruct (lat_lt (pi_latency x) (pi_latency z)); constructor; [exact Hx|].
    inversion Hl. assumption.
Qed.

Lemma insert_by_latency_sorted (x : path_info) (l : list path_info) :
  Sorted lat_before l -> Sorted lat_before (insert_by_latency x l).
Proof.
  induction l as [|y l IH]; simpl; intros Hs.
  - repeat constructor.
  - destruct (lat_lt (pi_latency x) (pi_latency y)) eqn:E.
    + constructor; [exact Hs|]. constructor. unfold lat_before.
      apply lat_lt_asym. exact E.
    + inversion Hs as [|? ? Hl Hhd]; subst. constructor; [apply IH; exact Hl|].
      apply insert_by_latency_hd; [exact Hhd|exact E].
Qed.

(** [sorted(..., key=latency)] is in ascending latency. *)
Lemma sort_by_latency_sorted (ps : list path_info) :
  Sorted lat_before (sort_by_latency ps).
Proof.
  unfold sort_by_latency.
  assert (G : forall acc, Sorted lat_before acc ->
            Sorted lat_before (fold_left (fun acc x => insert_by_latency x acc) ps acc)).
  { induction ps as [|x ps IH]; simpl; intros acc H; [exact H|].
    apply IH. apply insert_by_latency_sorted. exact H. }
  apply G. constructor.
Qed.

(** [min(..., key=latency)] has the least latency. *)
Lemma min_by_latency_least (p : path_info) (ps : list path_info) :
  forall q, In q (p :: ps) -> lat_before (min_by_latency p ps) q.
Proof.
  unfold min_by_latency, lat_before.
  assert (G : forall seen best,
     (forall q, In q seen -> lat_lt (pi_latency q) (pi_latency best) = false) ->
     lat_lt (pi_latency best) (pi_latency best) = false ->
     forall q, In q (app seen ps) ->
       lat_lt (pi_latency q)
         (pi_latency (fold_left (fun best x =>
            if lat_lt (pi_latency x) (pi_latency best) then x else best) ps best)) = false).
  { clear p. induction ps as [|x ps IH]; simpl; intros seen best Hs Hb q Hq.
    - rewrite app_nil_r in Hq. exact (Hs q Hq).
    - apply (IH (app seen [x])); [| |rewrite <- app_assoc; exact Hq].
      + intros q' Hq'. apply in_app_or in Hq' as [Hq'|[<-|[]]].
        * destruct (lat_lt (pi_latency x) (pi_latency best)) eqn:E; [|exact (Hs q' Hq')].
          destruct (lat_lt (pi_latency q') (pi_latency x)) eqn:E2; [|reflexivity].
          pose proof (Hs q' Hq') as H.
          rewrite (lat_lt_trans _ _ _ E2 E) in H. discriminate.
        * destruct (lat_lt (pi_latency x) (pi_latency best)) eqn:E;
            [apply lat_lt_irrefl|exact E].
      + apply lat_lt_irrefl. }
  intros q Hq. apply (G [p] p).
  - intros q' [<-|[]]. apply lat_lt_irrefl.
  - apply lat_lt_irrefl.
  - exact Hq.
Qed.

Lemma lat_lt_neg_trans (a b c : xq) :
  lat_lt a c = true -> lat_lt a b = true \/ lat_lt b c = true.
Proof.
  destruct a as [x|], b as [y|], c as [z|]; simpl; try discriminate; auto.
  intros H. apply qltb_true in H. rewrite !qltb_true.
  destruct (Qlt_le_dec x y); [left; exact q|right; lra].
Qed.

Lemma lat_before_trans (a b c : path_info) :
  lat_before a b -> lat_before b c -> lat_before a c.
Proof.
  unfold lat_before. intros H1 H2.
  destruct (lat_lt (pi_latency c) (pi_latency a)) eqn:E; [|reflexivity].
  destruct (lat_lt_neg_trans _ (pi_latency b) _ E) as [E'|E']; congruence.
Qed.

Lemma insert_by_latency_same (l : xq) (x : path_info) (acc : list path_info) :
  StronglySorted lat_before acc ->
  filter (same_latency l) (insert_by_latency x acc)
  = app (filter (same_latency l) acc) (filter (same_latency l) [x]).
Proof.
  induction acc as [|y acc IH]; intros Hs; simpl; [reflexivity|].
  inversion Hs as [|? ? Hs' Hall]; subst.
  destruct (lat_lt (pi_latency x) (pi_latency y)) eqn:Exy.
  - simpl. destruct (same_latency l x) eqn:Ex.
    + assert (Hz : forall z, In z (y :: acc) -> same_latency l z = false).
      { intros z Hz. unfold same_latency in *.
        apply andb_true_iff in Ex as [Ex1 Ex2]. apply negb_true_iff in Ex1, Ex2.
        assert (Hxz : lat_lt (pi_latency x) (pi_latency z) = true).
        { destruct Hz as [<-|Hz]; [exact Exy|].
          destruct (lat_lt_neg_trans _ (pi_latency z) _ Exy) as [H|H]; [exact H|].
          rewrite Forall_forall in Hall. specialize (Hall z Hz).
          unfold lat_before in Hall. congruence. }
        destruct (lat_lt_neg_trans _ l _ Hxz) as [H|H]; [congruence|].
        rewrite H. apply andb_false_r. }
      assert (Hnil : filter (same_latency l) (y :: acc) = []).
      { clear IH Hs Hs' Hall. induction (y :: acc) as [|z zs IHz]; simpl; [reflexivity|].
        rewrite (Hz z (or_introl eq_refl)). apply IHz. intros w Hw. apply Hz. right. exact Hw. }
      simpl in Hnil. rewrite Hnil. reflexivity.
    + simpl. rewrite app_nil_r. reflexivity.
  - simpl. rewrite (IH Hs').
    destruct (same_latency l y); reflexivity.
Qed.

Lemma sort_by_latency_same (l : xq) (ps : list path_info) :
  filter (same_latency l) (sort_by_latency ps) = filter (same_latency l) ps.
Proof.
  unfold sort_by_latency.
  assert (G : forall acc, Sorted lat_before acc ->
    filter (same_latency l) (fold_left (fun acc x => insert_by_latency x acc) ps acc)
    = app (filter (same_latency l) acc) (filter (same_latency l) ps)).
  { induction ps as [|x ps IH]; intros acc Hs; simpl; [rewrite app_nil_r; reflexivity|].
    rewrite IH by (apply insert_by_latency_sorted; exact Hs).
    rewrite insert_by_latency_same
      by (apply Sorted_StronglySorted; [exact lat_before_trans|exact Hs]).
    rewrite <- app_assoc. simpl. destruct (same_latency l x); reflexivity. }
  apply G. constructor.
Qed.

Lemma insert_by_latency_perm (x : path_info) (l : list path_info) :
  Permutation (insert_by_latency x l) (x :: l).
Proof.
  induction l as [|y l IH]; simpl; [reflexivity|].
  destruct (lat_lt (pi_latency x) (pi_latency y)); [reflexivity|].
  eapply perm_trans; [apply perm_skip; exact IH|apply perm_swap].
Qed.

Lemma sort_by_latency_perm (ps : list path_info) :
  Permutation (sort_by_latency ps) ps.
Proof.
  unfold sort_by_latency.
  assert (G : forall acc,
    Permutation (fold_left (fun acc x => insert_by_latency x acc) ps acc) (app acc ps)).
  { induction ps as [|x ps IH]; intros acc; simpl; [rewrite app_nil_r; reflexivity|].
    eapply perm_trans; [apply IH|].
    eapply perm_trans; [apply Permutation_app_tail; apply insert_by_latency_perm|].
    simpl. apply Permutation_middle. }
  apply G.
Qed.

(** [min] returns the first element of least key. *)
Lemma min_by_latency_first (p : path_info) (ps : list path_info) :
  exists pre post, p :: ps = app pre (min_by_latency p ps :: post) /\
    (forall x, In x pre ->
       lat_lt (pi_latency (min_by_latency p ps)) (pi_latency x) = true) /\
    (forall x, In x post ->
       lat_lt (pi_latency x) (pi_latency (min_by_latency p ps)) = false).
Proof.
  unfold min_by_latency.
  assert (G : forall ps b seen pre post, seen = app pre (b :: post) ->
     (forall x, In x pre -> lat_lt (pi_latency b) (pi_latency x) = true) ->
     (forall x, In x post -> lat_lt (pi_latency x) (pi_latency b) = false) ->
     let m := fold_left (fun best x =>
                if lat_lt (pi_latency x) (pi_latency best) then x else best) ps b in
     exists pre' post', app seen ps = app pre' (m :: post') /\
       (forall x, In x pre' -> lat_lt (pi_latency m) (pi_latency x) = true) /\
       (forall x, In x post' -> lat_lt (pi_latency x) (pi_latency m) = false)).
  { clear p ps. induction ps as [|x ps IH]; intros b seen pre post Hs Hpre Hpost; simpl.
    - exists pre, post. rewrite app_nil_r. auto.
    - destruct (lat_lt (pi_latency x) (pi_latency b)) eqn:E.
      + destruct (IH x (app seen [x]) seen [] eq_refl) as [pre' [post' [Heq Hr]]].
        * intros y Hy. rewrite Hs in Hy. apply in_app_or in Hy as [Hy|[<-|Hy]].
          -- exact (lat_lt_trans _ _ _ E (Hpre y Hy)).
          -- exact E.
          -- destruct (lat_lt_neg_trans _ (pi_latency y) _ E) as [H|H]; [exact H|].
             rewrite (Hpost y Hy) in H. discriminate.
        * intros y [].
        * exists pre', post'. rewrite <- app_assoc in Heq. split; [exact Heq|exact Hr].
      + destruct (IH b (app seen [x]) pre (app post [x])) as [pre' [post' [Heq Hr]]].
        * rewrite Hs, <- app_assoc. reflexivity.
        * exact Hpre.
        * intros y Hy. apply in_app_or in Hy as [Hy|[<-|[]]]; [exact (Hpost y Hy)|exact E].
        * exists pre', post'. rewrite <- app_assoc in Heq. split; [exact Heq|exact Hr].
  }
  exact (G ps p [p] [] [] eq_refl (fun x H => match H with end)
           (fun x H => match H with end)).
Qed.

Lemma fill_greedy_done (h d : string) (r : Q) (ps : list path_info) (st : sim_state) :
  Qle_bool r eps6 = true -> fill_greedy h d r ps st = (st, r).
Proof. destruct ps; simpl; [reflexivity|]. intros ->. reflexivity. Qed.

(** The greedy fill of [pre ++ post] fills [pre] first and hands what is
    left to [post]. *)
Lemma fill_greedy_app (h d : string) (r : Q) (pre post : list path_info) (st : sim_state) :
  fill_greedy h d r (app pre post) st
  = fill_greedy h d (snd (fill_greedy h d r pre st)) post (fst (fill_greedy h d r pre st)).
Proof.
  revert r st. induction pre as [|p pre IH]; intros r st; simpl; [reflexivity|].
  destruct (Qle_bool r eps6) eqn:Er; simpl.
  - symmetry. apply fill_greedy_done. exact Er.
  - destruct (qltb 0 (clamp st h (pi_egress p) r)); apply IH.
Qed.

(** C2, as the code has it.  Round 1 ([thundering_herd_all_links] and
    [thundering_herd_peering_only]) sorts the candidates with a stable sort
    on latency (ascending, a permutation of the candidates, keeping the
    order of equal latencies) and fills them greedily in that order: what
    the fill of a prefix leaves is handed on to the rest, the sent flow is
    what the remaining demand loses, and demand is handed on past a prefix
    only after every candidate in it has used up the host uplink or its
    egress; on the spec's scenario it places 30 on peering and 10 on
    transit, sending 40 with 0 unsent.  Round 3 (and [model_eval]) sends
    each pair's demand on the single first path of least latency (every
    earlier candidate has a strictly higher latency, no later one a lower
    one), with no spill; on the same scenario it places 30 on peering and
    0 on transit, sending 30 with 10 unsent. *)
Theorem thundering_herd_rounds :
  (forall ps, Sorted lat_before (sort_by_latency ps) /\
              Permutation (sort_by_latency ps) ps /\
              (forall l, filter (same_latency l) (sort_by_latency ps)
                         = filter (same_latency l) ps)) /\
  (forall h d dem ps st,
     step_r1 thundering_herd h d dem ps st
     = fst (fill_greedy h d dem (sort_by_latency ps) st)) /\
  (forall h d r pre post st,
     fill_greedy h d r (app pre post) st
     = fill_greedy h d (snd (fill_greedy h d r pre st)) post
         (fst (fill_greedy h d r pre st)) /\
     (0 <= r ->
        total_flow (sim_alloc (fst (fill_greedy h d r pre st)))
          + snd (fill_greedy h d r pre st) == total_flow (sim_alloc st) + r /\
        0 <= snd (fill_greedy h d r pre st)) /\
     (eps6 < snd (fill_greedy h d r pre st) ->
      forall p, In p pre ->
        dget_or (rem_uplink (fst (fill_greedy h d r pre st))) h 0 <= 0 \/
        dget_or (rem_egress (fst (fill_greedy h d r pre st))) (pi_egress p) 0 <= 0)) /\
  (forall h d dem p ps st,
     step_r3 thundering_herd h d dem (p :: ps) st
     = send_each h d (dem / qlen [min_by_latency p ps]) [min_by_latency p ps] st /\
     exists pre post, p :: ps = app pre (min_by_latency p ps :: post) /\
       (forall x, In x pre ->
          lat_lt (pi_latency (min_by_latency p ps)) (pi_latency x) = true) /\
       (forall x, In x post ->
          lat_lt (pi_latency x) (pi_latency (min_by_latency p ps)) = false)) /\
  match run_behavioral_sim_r1 (two_host_scenario 40) thundering_herd true with
  | SimOk r =>
      egress_flow (path_to_egress_mapping (two_host_scenario 40))
        (traffic_allocation r) "peering" == 30 /\
      egress_flow (path_to_egress_mapping (two_host_scenario 40))
        (traffic_allocation r) "transit" == 10 /\
      total_sent_traffic r == 40 /\ total_unsent_traffic r == 0
  | _ => False
  end /\
  match run_behavioral_sim_r3 (two_host_scenario 40) thundering_herd with
  | SimOk r =>
      egress_flow (path_to_egress_mapping (two_host_scenario 40))
        (traffic_allocation r) "peering" == 30 /\
      egress_flow (path_to_egress_mapping (two_host_scenario 40))
        (traffic_allocation r) "transit" == 0 /\
      total_sent_traffic r == 30 /\ total_unsent_traffic r == 10
  | _ => False
  end.
Proof.
  split; [|split; [|split; [|split; [|split]]]].
  - intros ps. split; [apply sort_by_latency_sorted|].
    split; [apply sort_by_latency_perm|]. intros l. apply sort_by_latency_same.
  - reflexivity.
  - intros h d r pre post st. split; [apply fill_greedy_app|]. split.
    + apply fill_greedy_total.
    + apply fill_greedy_exhausts.
  - intros h d dem p ps st. split; [reflexivity|]. apply min_by_latency_first.
  - vm_compute. repeat split; reflexivity.
  - vm_compute. repeat split; reflexivity.
Qed.

(** The spec's reading of C2 fails for round 3: on the spec's scenario
    nothing spills to transit and 10 units stay unsent. *)
Lemma thundering_herd_rounds_counterexample :
  match run_behavioral_sim_r3 (two_host_scenario 40) thundering_herd with
  | SimOk r =>
      ~ (egress_flow (path_to_egress_mapping (two_host_scenario 40))
           (traffic_allocation r) "transit" == 10) /\
      ~ (total_unsent_traffic r == 0)
  | _ => False
  end.
Proof. vm_compute. split; discriminate. Qed.

(** Round 1 leaves demand unsent on the scenario with demand 100: host h2
    finds peering full and transit down to 30 of its 50. *)
Lemma thundering_herd_rounds_witness :
  let ps1 := sort_by_latency (possible_paths_r1 (two_host_scenario 100) true "h1" "X") in
  let ps2 := sort_by_latency (possible_paths_r1 (two_host_scenario 100) true "h2" "X") in
  let st1 := fst (fill_greedy "h1" "X" 50 ps1 (initial_state (two_host_scenario 100))) in
  0 <= 50 /\
  total_flow (sim_alloc (fst (fill_greedy "h2" "X" 50 ps2 st1)))
    + snd (fill_greedy "h2" "X" 50 ps2 st1) == total_flow (sim_alloc st1) + 50 /\
  eps6 < snd (fill_greedy "h2" "X" 50 ps2 st1) /\
  forall p, In p ps2 ->
    dget_or (rem_uplink (fst (fill_greedy "h2" "X" 50 ps2 st1))) "h2" 0 <= 0 \/
    dget_or (rem_egress (fst (fill_greedy "h2" "X" 50 ps2 st1))) (pi_egress p) 0 <= 0.
Proof.
  intros ps1 ps2 st1.
  destruct (proj1 (proj2 (proj2 thundering_herd_rounds)) "h2" "X" 50 ps2 [] st1)
    as [_ [Ht Hx]].
  assert (H0 : 0 <= 50) by (vm_compute; discriminate).
  assert (H : eps6 < snd (fill_greedy "h2" "X" 50 ps2 st1)) by (vm_compute; reflexivity).
  split; [exact H0|]. split; [exact (proj1 (Ht H0))|]. split; [exact H|].
  exact (Hx H).
Defined.

(* ------------------------------------------------------------------ *)
(** ** C3: demand conservation of the cost LPs *)

Lemma adversarial_optimal (solve : lp_problem -> lp_status * lp_values)
    (sc : scenario) (goal : lp_sense) (o : option Q) (a : allocation) :
  solver_sound solve ->
  solve_adversarial_path_selection solve sc goal = ("Optimal", o, Some a) ->
  exists vals,
    feasibleb (adversarial_lp_problem sc goal
                 (x_vars_keys (fun e => mem e (map fst (egress_costs sc))) sc)) vals = true /\
    a = lp_allocation vals (x_vars_keys (fun e => mem e (map fst (egress_costs sc))) sc).
Proof.
  intros Hs. unfold solve_adversarial_path_selection.
  destruct (negb _); [discriminate|].
  destruct (x_vars_keys (fun e => mem e (map fst (egress_costs sc))) sc) as [|k0 l0] eqn:Ek;
    [discriminate|].
  destruct (solve (adversarial_lp_problem sc goal (k0 :: l0))) as [st vals] eqn:Es.
  destruct st; simpl; try discriminate.
  intros [= _ <-]. exists vals. split; [|reflexivity].
  pose proof (Hs (adversarial_lp_problem sc goal (k0 :: l0))) as H. rewrite Es in H.
  apply H. reflexivity.
Qed.

Lemma demand_conserved (sc : scenario) (keys : list triple) (vals : lp_values) (d : string) :
  NoDup keys ->
  (forall k, In k keys -> 0 <= val vals (XVar k)) ->
  eval_lin vals (xsum keys (fun k => String.eqb (t_dest k) d))
    == dget_or (traffic_per_destination sc) d 0 ->
  dest_flow (lp_allocation vals keys) d <= dget_or (traffic_per_destination sc) d 0 /\
  dget_or (traffic_per_destination sc) d 0
    - qlen (filter (fun k => String.eqb (t_dest k) d) keys) * eps6
    <= dest_flow (lp_allocation vals keys) d.
Proof.
  intros Hnd Hnn Heq. rewrite eval_xsum in Heq.
  change (dest_flow (lp_allocation vals keys) d)
    with (alloc_sum (fun k => String.eqb (t_dest k) d) (lp_allocation vals keys)).
  pose proof (lp_alloc_le vals keys (fun k => String.eqb (t_dest k) d) Hnn).
  pose proof (lp_alloc_ge vals keys (fun k => String.eqb (t_dest k) d) Hnd).
  split; lra.
Qed.

(** C3 (demand conservation).  When the round 3 cost LP ([isp_optimal] /
    [isp_pessimal], either sense) or [lp_model_costs] reports [Optimal],
    and its variable keys are distinct (as they are when hosts, paths and
    reachable destinations are listed without repetition), the reported
    flow to every destination [d] is at most its demand and falls short of
    it by at most [1e-6] per variable towards [d]: the LP meets the demand
    exactly and the report drops only values of at most [1e-6]. *)
Theorem cost_lp_demand_conservation (solve : lp_problem -> lp_status * lp_values)
    (sc : scenario) :
  solver_sound solve ->
  (forall goal r, solve_cost_lp solve sc goal = LPOk r -> lp_status_of r = Optimal ->
     NoDup (x_vars_keys (fun e => mem e (egress_interfaces sc)) sc) ->
     forall d, In d (destinations sc) ->
       dest_flow (lp_traffic_allocation r) d <= dget_or (traffic_per_destination sc) d 0 /\
       dget_or (traffic_per_destination sc) d 0
         - qlen (filter (fun k => String.eqb (t_dest k) d)
                   (x_vars_keys (fun e => mem e (egress_interfaces sc)) sc)) * eps6
         <= dest_flow (lp_traffic_allocation r) d) /\
  (forall goal o a, solve_adversarial_path_selection solve sc goal = ("Optimal", o, Some a) ->
     NoDup (x_vars_keys (fun e => mem e (map fst (egress_costs sc))) sc) ->
     forall d, In d (destinations sc) ->
       dest_flow a d <= dget_or (traffic_per_destination sc) d 0 /\
       dget_or (traffic_per_destination sc) d 0
         - qlen (filter (fun k => String.eqb (t_dest k) d)
                   (x_vars_keys (fun e => mem e (map fst (egress_costs sc))) sc)) * eps6
         <= dest_flow a d).
Proof.
  intros Hs. split.
  - intros goal r Hrun Hopt Hnd d Hd.
    destruct (solve_cost_lp_feasible solve sc goal r Hs Hrun Hopt)
      as [keys [vals [Ek [_ [Hf ->]]]]]. rewrite Ek in Hnd |- *.
    destruct (feasibleb_spec _ _ Hf) as [Hnn Hcs]. simpl in Hnn, Hcs.
    apply demand_conserved; [exact Hnd|apply continuous_keys; exact Hnn|].
    apply demand_constraints_hold; [|exact Hd].
    intros c Hc. apply Hcs. apply in_app3_l. exact Hc.
  - intros goal o a Hrun Hnd d Hd.
    destruct (adversarial_optimal solve sc goal o a Hs Hrun) as [vals [Hf ->]].
    destruct (feasibleb_spec _ _ Hf) as [Hnn Hcs]. simpl in Hnn, Hcs.
    apply demand_conserved; [exact Hnd|apply continuous_keys; exact Hnn|].
    apply demand_constraints_hold; [|exact Hd].
    intros c Hc. apply Hcs. apply in_app3_l. exact Hc.
Qed.

Lemma cost_lp_demand_conservation_witness :
  solver_sound (checking_solver (uniform_point 10 1)) /\
  NoDup (x_vars_keys (fun e => mem e (egress_interfaces (two_host_scenario 40)))
           (two_host_scenario 40)) /\
  match solve_cost_lp (checking_solver (uniform_point 10 1)) (two_host_scenario 40)
          LpMinimize with
  | LPOk r => lp_status_of r = Optimal /\
      dest_flow (lp_traffic_allocation r) "X" <= 40 /\
      40 - 4 * eps6 <= dest_flow (lp_traffic_allocation r) "X"
  | LPError _ => False
  end.
Proof.
  pose proof (checking_solver_sound (uniform_point 10 1)) as Hs.
  assert (Hnd : NoDup (x_vars_keys (fun e => mem e (egress_interfaces (two_host_scenario 40)))
                         (two_host_scenario 40)))
    by (vm_compute; repeat constructor; simpl; intuition discriminate).
  split; [exact Hs|]. split; [exact Hnd|].
  destruct (solve_cost_lp (checking_solver (uniform_point 10 1)) (two_host_scenario 40)
              LpMinimize) as [msg|r] eqn:E.
  - vm_compute in E. discriminate.
  - assert (Ho : lp_status_of r = Optimal)
      by (vm_compute in E; injection E as <-; reflexivity).
    split; [exact Ho|].
    exact (proj1 (cost_lp_demand_conservation _ _ Hs) LpMinimize r E Ho Hnd "X"
             (or_introl eq_refl)).
Defined.

(* ------------------------------------------------------------------ *)
(** ** C5: no variables *)

(** No egress reaches a declared destination: no variable. *)
Lemma x_vars_keys_unreachable (valid : string -> bool) (sc : scenario) :
  (forall e d, In d (dget_or (egress_to_destination_reachability sc) e []) ->
     mem d (destinations sc) = false) ->
  x_vars_keys valid sc = [].
Proof.
  intros H. unfold x_vars_keys.
  induction (endhosts sc) as [|h hs IH]; simpl; [reflexivity|].
  rewrite IH, app_nil_r.
  induction (dget_or (paths_per_endhost sc) h []) as [|p ps IHp]; simpl; [reflexivity|].
  rewrite IHp, app_nil_r.
  destruct (dget (path_to_egress_mapping sc) p) as [e|]; [|reflexivity].
  destruct (_ && _); [|reflexivity].
  assert (E : filter (fun d => mem d (destinations sc))
                (dget_or (egress_to_destination_reachability sc) e []) = []).
  { specialize (H e). induction (dget_or (egress_to_destination_reachability sc) e [])
      as [|d ds IHd]; simpl; [reflexivity|].
    rewrite (H d (or_introl eq_refl)). apply IHd. intros d' Hd'. apply H. right. exact Hd'. }
  rewrite E. reflexivity.
Qed.

(** C5, as the code has it.  With no valid (host, path, destination)
    triple (for instance when no egress reaches a declared destination),
    [lp_model_costs] returns status ["No_Variables"], cost [0] and an empty
    allocation when hosts, egresses, destinations and demands are all
    non-empty (["Input_Error"] with no cost and no allocation otherwise),
    while the round 3 cost LP (and the latency LP) return the error ["No
    valid variables for LP model could be created."], with no status and
    no allocation.  None of these results depends on the solver. *)
Theorem no_variables_results (sc : scenario) :
  ((forall e d, In d (dget_or (egress_to_destination_reachability sc) e []) ->
      mem d (destinations sc) = false) ->
   x_vars_keys (fun e => mem e (map fst (egress_costs sc))) sc = [] /\
   x_vars_keys (fun e => mem e (egress_interfaces sc)) sc = []) /\
  (x_vars_keys (fun e => mem e (map fst (egress_costs sc))) sc = [] ->
   forall solve goal,
     solve_adversarial_path_selection solve sc goal =
       if seq_empty (endhosts sc) || seq_empty (egress_interfaces sc)
          || seq_empty (destinations sc) || seq_empty (traffic_per_destination sc)
       then ("Input_Error", None, None)
       else ("No_Variables", Some 0, Some [])) /\
  (x_vars_keys (fun e => mem e (egress_interfaces sc)) sc = [] ->
   forall solve goal,
     solve_cost_lp solve sc goal =
       LPError "No valid variables for LP model could be created." /\
     solve_latency_lp solve sc =
       LPError "No valid variables for LP model could be created.").
Proof.
  split; [|split].
  - intros H. split; apply x_vars_keys_unreachable; exact H.
  - intros Hk solve goal. unfold solve_adversarial_path_selection. rewrite Hk.
    destruct (seq_empty (endhosts sc)), (seq_empty (egress_interfaces sc)),
      (seq_empty (destinations sc)), (seq_empty (traffic_per_destination sc));
      reflexivity.
  - intros Hk solve goal. unfold solve_cost_lp, solve_latency_lp. rewrite Hk.
    split; reflexivity.
Qed.

(** The spec's reading of C5 fails for round 3: with no destination
    reachable, [solve_cost_lp] reports an error, not the status
    ["No_Variables"] with an empty allocation and cost 0, whatever the
    solver. *)
Lemma no_variables_results_counterexample :
  solve_cost_lp (checking_solver (uniform_point 10 1))
    (set_reachability (two_host_scenario 40) []) LpMinimize
  = LPError "No valid variables for LP model could be created." /\
  forall r, solve_cost_lp (checking_solver (uniform_point 10 1))
              (set_reachability (two_host_scenario 40) []) LpMinimize <> LPOk r.
Proof. split; [reflexivity|intros r; discriminate]. Qed.

Lemma no_variables_results_witness :
  (forall e d, In d (dget_or (egress_to_destination_reachability
                                (set_reachability (two_host_scenario 40) [])) e []) ->
     mem d (destinations (set_reachability (two_host_scenario 40) [])) = false) /\
  solve_adversarial_path_selection (checking_solver (uniform_point 10 1))
    (set_reachability (two_host_scenario 40) []) LpMaximize
  = ("No_Variables", Some 0, Some []) /\
  solve_cost_lp (checking_solver (uniform_point 10 1))
    (set_reachability (two_host_scenario 40) []) LpMinimize
  = LPError "No valid variables for LP model could be created.".
Proof.
  assert (Hu : forall e d, In d (dget_or (egress_to_destination_reachability
                                (set_reachability (two_host_scenario 40) [])) e []) ->
     mem d (destinations (set_reachability (two_host_scenario 40) [])) = false)
    by (intros e d []).
  destruct (proj1 (no_variables_results (set_reachability (two_host_scenario 40) [])) Hu)
    as [H1 H2].
  split; [exact Hu|]. split.
  - exact (proj1 (proj2 (no_variables_results _)) H1 _ LpMaximize).
  - exact (proj1 (proj2 (proj2 (no_variables_results _)) H2 _ LpMinimize)).
Defined.

(** The candidate list of a pair is the host's path list, in order,
    filtered by the loop's test. *)
Lemma candidate_paths_order (keep : string -> bool) (sc : scenario) (h d : string) :
  map pi_path (candidate_paths keep sc h d)
  = filter (candidate_ok keep sc d) (dget_or (paths_per_endhost sc) h []).
Proof.
  unfold candidate_paths.
  induction (dget_or (paths_per_endhost sc) h []) as [|p ps IH]; [reflexivity|].
  cbn [flat_map filter]. rewrite map_app, IH. unfold candidate_ok at 2.
  destruct (dget (path_to_egress_mapping sc) p) as [e|]; [|reflexivity].
  destruct (negb (String.eqb e "") && mem d _ && keep e); reflexivity.
Qed.

Lemma commit_uplink_self (st : sim_state) (h p e d : string) (sent : Q) :
  dget_or (rem_uplink (commit h p e d sent st)) h 0
  == dget_or (rem_uplink st) h 0 - (if qltb 0 sent then sent else 0).
Proof.
  unfold commit. destruct (qltb 0 sent); simpl; [|lra].
  rewrite dget_or_dset, String.eqb_refl. lra.
Qed.

Lemma commit_egress_other (st : sim_state) (h p e d : string) (sent : Q) (e' : string) :
  e' <> e ->
  dget_or (rem_egress (commit h p e d sent st)) e' 0 = dget_or (rem_egress st) e' 0.
Proof.
  intros Hne. unfold commit. destruct (qltb 0 sent); simpl; [|reflexivity].
  rewrite dget_or_dset. apply String.eqb_neq in Hne. rewrite Hne. reflexivity.
Qed.

(** With distinct egresses and an uplink that covers every share, each
    path of a fair-share step receives exactly [min(share, remaining
    capacity of its egress)], whatever the other paths receive. *)
Lemma send_each_exact (h d : string) (x : Q) (ps : list path_info) (st : sim_state)
    (f : triple -> bool) :
  0 <= x -> NoDup (map pi_egress ps) ->
  qlen ps * x <= dget_or (rem_uplink st) h 0 ->
  (forall p, In p ps -> 0 <= dget_or (rem_egress st) (pi_egress p) 0) ->
  alloc_sum f (sim_alloc (send_each h d x ps st))
  == alloc_sum f (sim_alloc st)
     + qsum (map (fun q => if f (h, pi_path q, d)
                           then Qmin x (dget_or (rem_egress st) (pi_egress q) 0)
                           else 0) ps).
Proof.
  intros Hx. revert st. induction ps as [|p ps IH]; intros st Hnd Hu He.
  - cbn [send_each map qsum]. lra.
  - cbn [send_each map qsum]. cbn [map] in Hnd.
    inversion Hnd as [|? ? Hnin Hnd']; subst.
    rewrite qlen_cons in Hu. pose proof (qlen_nonneg ps) as Hq.
    assert (Hqx : 0 <= qlen ps * x) by (apply Qmult_le_0_compat; assumption).
    assert (Hu' : x + qlen ps * x <= dget_or (rem_uplink st) h 0).
    { assert (E : (1 + qlen ps) * x == x + qlen ps * x) by ring. lra. }
    assert (Hep : 0 <= dget_or (rem_egress st) (pi_egress p) 0) by (apply He; left; reflexivity).
    set (c := clamp st h (pi_egress p) x).
    assert (Hc : c == Qmin x (dget_or (rem_egress st) (pi_egress p) 0)).
    { unfold c, clamp.
      destruct (Qmin_cases x (dget_or (rem_uplink st) h 0)) as [[-> ?]|[-> ?]];
        [reflexivity|lra]. }
    assert (Hc0 : 0 <= c /\ c <= x).
    { rewrite Hc. destruct (Qmin_cases x (dget_or (rem_egress st) (pi_egress p) 0))
        as [[-> ?]|[-> ?]]; lra. }
    set (st' := commit h (pi_path p) (pi_egress p) d c st).
    assert (HE : forall q, In q ps ->
      dget_or (rem_egress st') (pi_egress q) 0 = dget_or (rem_egress st) (pi_egress q) 0).
    { intros q Hqin. apply commit_egress_other. intros Heq. apply Hnin.
      rewrite <- Heq. apply in_map. exact Hqin. }
    rewrite (IH st' Hnd').
    + rewrite (qsum_map_eq ps _
        (fun q => if f (h, pi_path q, d)
                  then Qmin x (dget_or (rem_egress st) (pi_egress q) 0) else 0)).
      * unfold st'. rewrite commit_alloc_sum.
        destruct (qltb 0 c) eqn:Ec; destruct (f (h, pi_path p, d)).
        -- lra.
        -- lra.
        -- apply qltb_false in Ec. lra.
        -- lra.
      * intros q Hqin. rewrite (HE q Hqin). reflexivity.
    + unfold st'. rewrite commit_uplink_self. destruct (qltb 0 c); lra.
    + intros q Hqin. rewrite (HE q Hqin). apply He. right. exact Hqin.
Qed.

(** C6 (amended): the fair-share allocators ([simulate_fair_share], and
    the [fair_share] mode of rounds 1 and 3) split the demand of [d] over
    the hosts as [T d * (U h / total_uplink)]; for a pair they take ALL its
    candidate paths: the paths of [paths_per_endhost[h]], in that order,
    that map to a non-empty egress reaching [d] (round 1 without transit
    links also drops the paths whose egress has type ["transit"]), with no
    [N] and no latency selection.  On them they send [traffic_per_path =
    demand / len(paths)] as [min(traffic_per_path, remaining uplink,
    remaining egress)] on each in turn, the share fixed before the loop: a
    path never receives more than the share, and with distinct egresses
    and an uplink covering the shares each path receives exactly
    [min(share, remaining capacity of its egress)], so no shortfall is
    redistributed. *)
Lemma fair_share_all_paths (sc : scenario) (b : bool) (h d : string) :
  (forall tot, host_demands sc tot h =
     map (fun kv => (fst kv, snd kv * (dget_or (endhost_uplinks sc) h 0 / tot)))
         (traffic_per_destination sc)) /\
  map pi_path (possible_paths sc h d)
    = filter (candidate_ok (fun _ => true) sc d) (dget_or (paths_per_endhost sc) h []) /\
  map pi_path (possible_paths_r1 sc b h d)
    = filter (candidate_ok (keep_r1 sc b) sc d) (dget_or (paths_per_endhost sc) h []) /\
  (forall q, In q (possible_paths_r1 sc false h d) ->
     dget (egress_types sc) (pi_egress q) <> Some "transit") /\
  (forall dem st,
     step_fs h d dem (possible_paths sc h d) st
       = send_each h d (dem / qlen (possible_paths sc h d)) (possible_paths sc h d) st /\
     step_r3 fair_share h d dem (possible_paths sc h d) st
       = send_each h d (dem / qlen (possible_paths sc h d)) (possible_paths sc h d) st /\
     step_r1 fair_share h d dem (possible_paths_r1 sc b h d) st
       = send_each h d (dem / qlen (possible_paths_r1 sc b h d))
           (possible_paths_r1 sc b h d) st) /\
  (forall x ps st pp, 0 <= x ->
     alloc_sum (triple_eqb (h, pp, d)) (sim_alloc (send_each h d x ps st))
     <= alloc_sum (triple_eqb (h, pp, d)) (sim_alloc st)
        + qlen (filter (fun p => String.eqb pp (pi_path p)) ps) * x) /\
  (forall x ps st f, 0 <= x -> NoDup (map pi_egress ps) ->
     qlen ps * x <= dget_or (rem_uplink st) h 0 ->
     (forall p, In p ps -> 0 <= dget_or (rem_egress st) (pi_egress p) 0) ->
     alloc_sum f (sim_alloc (send_each h d x ps st))
     == alloc_sum f (sim_alloc st)
        + qsum (map (fun q => if f (h, pi_path q, d)
                              then Qmin x (dget_or (rem_egress st) (pi_egress q) 0)
                              else 0) ps)).
Proof.
  split; [reflexivity|].
  split; [apply candidate_paths_order|].
  split; [apply candidate_paths_order|].
  split.
  { intros q Hq Ht. apply candidate_paths_in_iff in Hq.
    destruct Hq as [_ [_ [_ [_ [Hk _]]]]]. unfold keep_r1 in Hk.
    rewrite Ht, String.eqb_refl in Hk. discriminate. }
  split; [intros dem st; split; [|split]; reflexivity|].
  split.
  - intros x ps st pp Hx. apply send_each_path_flow. exact Hx.
  - intros x ps st f Hx Hnd Hu He. apply send_each_exact; assumption.
Qed.

(** The spec's N-path reading of C6 fails for [N] = 2 and [N] = 3: in
    [four_path_scenario] the path over ["e4"] (latency 40) is a candidate
    outside the 2 and the 3 lowest-latency ones, yet [simulate_fair_share]
    and round 3's fair share send 10 on it (40 split over four paths). *)
Lemma fair_share_all_paths_counterexample :
  In (mk_path_info "p_h1_e4" "e4" (Fin 40)) (possible_paths four_path_scenario "h1" "X") /\
  ~ In (mk_path_info "p_h1_e4" "e4" (Fin 40))
       (lowest_latency_paths 2 (possible_paths four_path_scenario "h1" "X")) /\
  ~ In (mk_path_info "p_h1_e4" "e4" (Fin 40))
       (lowest_latency_paths 3 (possible_paths four_path_scenario "h1" "X")) /\
  (exists r, simulate_fair_share four_path_scenario = Some r /\
     alloc_sum (triple_eqb ("h1", "p_h1_e4", "X")) (traffic_allocation r) == 10) /\
  (exists r, run_behavioral_sim_r3 four_path_scenario fair_share = SimOk r /\
     alloc_sum (triple_eqb ("h1", "p_h1_e4", "X")) (traffic_allocation r) == 10).
Proof.
  split; [vm_compute; auto 10|].
  split; [vm_compute; intuition discriminate|].
  split; [vm_compute; intuition discriminate|].
  split; (eexists; split; [vm_compute; reflexivity|vm_compute; reflexivity]).
Qed.

(** Four candidates with a share of 10, the fourth egress down to 5: the
    fourth path gets 5 and the other three keep 10 each, 35 in all. *)
Lemma fair_share_all_paths_witness :
  let ps := possible_paths four_path_scenario "h1" "X" in
  let st := mk_sim_state [("h1", 100)]
              [("e1", 100); ("e2", 100); ("e3", 100); ("e4", 5)] [] in
  0 <= 10 /\ NoDup (map pi_egress ps) /\
  qlen ps * 10 <= dget_or (rem_uplink st) "h1" 0 /\
  (forall p, In p ps -> 0 <= dget_or (rem_egress st) (pi_egress p) 0) /\
  alloc_sum (fun _ => true) (sim_alloc (send_each "h1" "X" 10 ps st)) == 35 /\
  alloc_sum (triple_eqb ("h1", "p_h1_e4", "X")) (sim_alloc (send_each "h1" "X" 10 ps st)) == 5.
Proof.
  intros ps st.
  assert (Hx : 0 <= 10) by (vm_compute; discriminate).
  assert (Hnd : NoDup (map pi_egress ps)).
  { vm_compute. repeat constructor; simpl; intuition discriminate. }
  assert (Hu : qlen ps * 10 <= dget_or (rem_uplink st) "h1" 0) by (vm_compute; discriminate).
  assert (He : forall p, In p ps -> 0 <= dget_or (rem_egress st) (pi_egress p) 0).
  { intros p Hp. vm_compute in Hp.
    repeat destruct Hp as [<-|Hp]; try contradiction; vm_compute; discriminate. }
  pose proof (proj2 (proj2 (proj2 (proj2 (proj2 (proj2
    (fair_share_all_paths four_path_scenario true "h1" "X"))))))) as Hex.
  split; [exact Hx|]. split; [exact Hnd|]. split; [exact Hu|]. split; [exact He|]. split.
  - eapply Qeq_trans; [exact (Hex 10 ps st (fun _ => true) Hx Hnd Hu He)|].
    vm_compute. reflexivity.
  - eapply Qeq_trans; [exact (Hex 10 ps st (triple_eqb ("h1", "p_h1_e4", "X")) Hx Hnd Hu He)|].
    vm_compute. reflexivity.
Defined.

(** C8: both performance analyzers ([analyze_performance_of_result] of
    round 3 and [performance_analyzer.analyze_performance]) fail only on a
    key they cannot parse, whatever the capacities; and when they succeed,
    every egress [(e, cap)] of [egress_capacities] gets the traffic of the
    keys whose path is mapped to [e], utilization [100 * traffic / cap]
    when [cap > 0] and 0 otherwise (in particular when [cap = 0]). *)
Lemma utilization_percent_safe (pm : dict string) (caps : dict Q)
    (alloc : str_allocation) :
  ((exists m, analyze_performance_of_result pm caps alloc = Some m) <->
   (forall kv, In kv alloc -> path_id_r3 (fst kv) <> None)) /\
  ((exists m, analyze_performance pm caps alloc = Some m) <->
   (forall kv, In kv alloc -> (2 <= List.length (py_split "_to_" (fst kv)))%nat)) /\
  (forall m, analyze_performance_of_result pm caps alloc = Some m ->
   forall e cap, In (e, cap) caps -> exists u,
     In (e, u) m /\ um_capacity u = cap /\
     um_traffic u == egress_traffic path_id_r3 pm alloc e /\
     (0 < cap -> um_utilization_percent u == 100 * um_traffic u / cap) /\
     (cap <= 0 -> um_utilization_percent u == 0)) /\
  (forall m, analyze_performance pm caps alloc = Some m ->
   forall e cap, In (e, cap) caps -> exists u,
     In (e, u) m /\ um_capacity u = cap /\
     um_traffic u == egress_traffic path_id_pa pm alloc e /\
     (0 < cap -> um_utilization_percent u == 100 * um_traffic u / cap) /\
     (cap <= 0 -> um_utilization_percent u == 0)).
Proof.
  unfold analyze_performance_of_result, analyze_performance.
  split; [|split; [|split]].
  - rewrite <- (traffic_on_egress_r3_some pm alloc []).
    destruct (traffic_on_egress_r3 pm alloc []) as [toe|].
    + split; intros _; eauto.
    + split; intros [m Hm]; discriminate.
  - rewrite <- (traffic_on_egress_pa_some pm alloc []).
    destruct (traffic_on_egress_pa pm alloc []) as [toe|].
    + split; intros _; eauto.
    + split; intros [m Hm]; discriminate.
  - intros m Hm.
    destruct (traffic_on_egress_r3 pm alloc []) as [toe|] eqn:E; [|discriminate].
    injection Hm as <-. apply utilization_metrics.
    intros e. rewrite (traffic_on_egress_r3_value pm alloc [] toe E e).
    unfold dget_or. simpl. lra.
  - intros m Hm.
    destruct (traffic_on_egress_pa pm alloc []) as [toe|] eqn:E; [|discriminate].
    injection Hm as <-. apply utilization_metrics.
    intros e. rewrite (traffic_on_egress_pa_value pm alloc [] toe E e).
    unfold dget_or. simpl. lra.
Qed.

Lemma utilization_percent_safe_witness :
  (forall kv, In kv [("h1_p_h1_e1_to_X", 40); ("h1_p_h1_e2_to_X", 0)] ->
     path_id_r3 (fst kv) <> None) /\
  exists m,
    analyze_performance_of_result [("p_h1_e1", "e1"); ("p_h1_e2", "e2")]
      [("e1", 100); ("e2", 0)]
      [("h1_p_h1_e1_to_X", 40); ("h1_p_h1_e2_to_X", 0)] = Some m /\
    exists u, In ("e2", u) m /\ um_utilization_percent u == 0.
Proof.
  assert (Hp : forall kv, In kv [("h1_p_h1_e1_to_X", 40); ("h1_p_h1_e2_to_X", 0)] ->
                 path_id_r3 (fst kv) <> None).
  { intros kv [<-|[<-|[]]]; vm_compute; discriminate. }
  split; [exact Hp|].
  destruct (proj2 (proj1 (utilization_percent_safe
              [("p_h1_e1", "e1"); ("p_h1_e2", "e2")] [("e1", 100); ("e2", 0)]
              [("h1_p_h1_e1_to_X", 40); ("h1_p_h1_e2_to_X", 0)])) Hp) as [m Hm].
  exists m. split; [exact Hm|].
  destruct (proj1 (proj2 (proj2 (utilization_percent_safe
              [("p_h1_e1", "e1"); ("p_h1_e2", "e2")] [("e1", 100); ("e2", 0)]
              [("h1_p_h1_e1_to_X", 40); ("h1_p_h1_e2_to_X", 0)])))
              m Hm "e2" 0 (or_intror (or_introl eq_refl)))
    as [u [Hu [_ [_ [_ Hz]]]]].
  exists u. split; [exact Hu|]. apply Hz. vm_compute. discriminate.
Defined.

(* ================================================================== *)
(** * Further properties of the code *)

(* ------------------------------------------------------------------ *)
(** ** Where a simulator puts its flow *)

(** Extra: every entry of the allocation a simulator reports is a positive
    flow from one of the scenario's end hosts, towards a destination of
    [traffic_per_destination], on the path of a candidate of that pair (a
    path of the host mapped to a non-empty egress that reaches the
    destination and, in round 1 without transit links, is not of type
    ["transit"]). *)
Theorem sim_allocation_on_candidates (sc : scenario) :
  (forall mode b r, run_behavioral_sim_r1 sc mode b = SimOk r ->
     alloc_on_candidates (possible_paths_r1 sc b) sc (traffic_allocation r)) /\
  (forall mode r, run_behavioral_sim_r3 sc mode = SimOk r ->
     alloc_on_candidates (possible_paths sc) sc (traffic_allocation r)) /\
  (forall r, simulate_fair_share sc = Some r ->
     alloc_on_candidates (possible_paths sc) sc (traffic_allocation r)).
Proof.
  split; [|split].
  - exact (run_r1_on_candidates sc).
  - exact (run_r3_on_candidates sc).
  - intros r Hr. destruct (run_fs_result sc r Hr) as [_ [-> _]].
    apply run_on_candidates. intros h d dem ps st P Hc Hst.
    apply (step_fs_preserve P); assumption.
Qed.

Lemma sim_allocation_on_candidates_witness :
  exists r, run_behavioral_sim_r1 (two_host_scenario 40) thundering_herd true = SimOk r /\
    alloc_on_candidates (possible_paths_r1 (two_host_scenario 40) true)
      (two_host_scenario 40) (traffic_allocation r).
Proof.
  destruct (run_behavioral_sim_r1 (two_host_scenario 40) thundering_herd true)
    as [msg|r|msg] eqn:E; [vm_compute in E; discriminate| |vm_compute in E; discriminate].
  exists r. split; [reflexivity|].
  exact (proj1 (sim_allocation_on_candidates (two_host_scenario 40))
           thundering_herd true r E).
Defined.

Lemma filter_all_false {A : Type} (f : A -> bool) (l : list A) :
  (forall x, In x l -> f x = false) -> filter f l = [].
Proof.
  induction l as [|x l IH]; simpl; intros H; [reflexivity|].
  rewrite (H x (or_introl eq_refl)). apply IH. intros y Hy. apply H. right. exact Hy.
Qed.

(** Extra: round 1 without transit links ([thundering_herd_peering_only]
    and [fair_share_peering_only]) puts no flow on an egress whose
    [egress_types] entry is ["transit"]. *)
Theorem peering_only_avoids_transit (sc : scenario) (mode : sim_mode) (r : sim_report)
    (e : string) :
  run_behavioral_sim_r1 sc mode false = SimOk r ->
  dget (egress_types sc) e = Some "transit" ->
  egress_flow (path_to_egress_mapping sc) (traffic_allocation r) e == 0.
Proof.
  intros Hr Ht.
  pose proof (run_r1_on_candidates sc mode false r Hr) as Hc.
  unfold egress_flow. rewrite filter_all_false; [reflexivity|].
  intros [k v] Hin. destruct (Hc k v Hin) as [_ [_ [_ [q [Hq Hp]]]]].
  unfold possible_paths_r1 in Hq. apply candidate_paths_in_iff in Hq.
  destruct Hq as [_ [Hm [_ [_ [Hk _]]]]]. simpl. rewrite <- Hp, Hm.
  destruct (String.eqb (pi_egress q) e) eqn:E; [|reflexivity].
  apply String.eqb_eq in E. unfold keep_r1 in Hk. rewrite E, Ht in Hk. discriminate.
Qed.

Lemma peering_only_avoids_transit_witness :
  exists r, run_behavioral_sim_r1 (two_host_scenario 40) thundering_herd false = SimOk r /\
    dget (egress_types (two_host_scenario 40)) "transit" = Some "transit" /\
    egress_flow (path_to_egress_mapping (two_host_scenario 40)) (traffic_allocation r)
      "transit" == 0.
Proof.
  destruct (run_behavioral_sim_r1 (two_host_scenario 40) thundering_herd false)
    as [msg|r|msg] eqn:E; [vm_compute in E; discriminate| |vm_compute in E; discriminate].
  assert (Ht : dget (egress_types (two_host_scenario 40)) "transit" = Some "transit")
    by reflexivity.
  exists r. split; [reflexivity|]. split; [exact Ht|].
  exact (peering_only_avoids_transit (two_host_scenario 40) thundering_herd r "transit" E Ht).
Defined.

(* ------------------------------------------------------------------ *)
(** ** The analyzer on a simulator's report ([main]) *)

(** On well-formed names the analyzer's egress traffic is the flow the
    allocation puts through the egress. *)
Lemma egress_traffic_str (pm : dict string) (a : allocation) (e : string) :
  (forall k v, In (k, v) a ->
     contains "_" (t_host k) = false /\
     contains "_to_" ("_" ++ t_path k ++ "_to") = false) ->
  e <> "" ->
  egress_traffic path_id_r3 pm (str_of_allocation a) e == egress_flow pm a e.
Proof.
  intros Hn He. unfold egress_traffic, egress_flow, str_of_allocation.
  induction a as [|[k v] a IH]; simpl; [reflexivity|].
  destruct (Hn k v (or_introl eq_refl)) as [H1 H2].
  destruct k as [[h p] d]. simpl in H1, H2 |- *.
  rewrite (path_id_r3_key h p d H1 H2).
  assert (IH' : qsum (map snd (filter (fun kv =>
             match path_id_r3 (fst kv) with
             | Some p0 => match dget pm p0 with
                          | Some e' => negb (String.eqb e' "") && String.eqb e' e
                          | None => false
                          end
             | None => false
             end) (map (fun kv => (alloc_key (t_host (fst kv)) (t_path (fst kv))
                                    (t_dest (fst kv)), snd kv)) a)))
           == qsum (map snd (filter (fun kv =>
             match dget pm (t_path (fst kv)) with
             | Some e' => String.eqb e' e
             | None => false
             end) a))).
  { apply IH. intros k' v' Hin. apply (Hn k' v'). right. exact Hin. }
  destruct (dget pm p) as [e'|]; [|exact IH'].
  destruct (String.eqb e' e) eqn:E.
  - apply String.eqb_eq in E. subst e'.
    apply String.eqb_neq in He. rewrite He. simpl. rewrite IH'. reflexivity.
  - rewrite andb_false_r. exact IH'.
Qed.

Lemma dget_or_in_nodup (m : dict Q) (k : string) (v : Q) :
  NoDup (map fst m) -> In (k, v) m -> dget_or m k 0 = v.
Proof.
  unfold dget_or. induction m as [|[k' v'] m IH]; simpl; [intros _ []|].
  intros Hnd [H|H]; inversion Hnd as [|? ? Hk Hm]; subst.
  - injection H as <- <-. rewrite String.eqb_refl. reflexivity.
  - destruct (String.eqb k k') eqn:E.
    + apply String.eqb_eq in E. subst k'. exfalso. apply Hk.
      apply (in_map fst m (k, v)). exact H.
    + apply IH; assumption.
Qed.

Lemma util_bounds (t cap : Q) :
  0 <= t -> t <= cap ->
  0 <= (if qltb 0 cap then (t / cap) * 100 else 0) /\
  (if qltb 0 cap then (t / cap) * 100 else 0) <= 100.
Proof.
  intros Ht Hc. destruct (qltb 0 cap) eqn:E; [|split; lra].
  apply qltb_true in E.
  assert (H0 : 0 <= t / cap) by (apply div_nonneg; assumption).
  assert (H1 : t / cap <= 1) by (apply Qle_shift_div_r; [exact E|lra]).
  set (z := t / cap) in *. split; lra.
Qed.

(** The analysis of a simulator allocation that stays on candidates with
    well-formed names and within the egress capacities. *)
Lemma analyze_sim_alloc (keep : string -> bool) (sc : scenario) (a : allocation) :
  NoDup (map fst (egress_capacities sc)) ->
  (forall h, In h (endhosts sc) -> contains "_" h = false) ->
  (forall h p, In p (dget_or (paths_per_endhost sc) h []) ->
     contains "_to_" ("_" ++ p ++ "_to") = false) ->
  alloc_on_candidates (candidate_paths keep sc) sc a ->
  (forall e, egress_flow (path_to_egress_mapping sc) a e
             <= dget_or (egress_capacities sc) e 0) ->
  exists m,
    analyze_performance_of_result (path_to_egress_mapping sc) (egress_capacities sc)
      (str_of_allocation a) = Some m /\
    forall e cap, In (e, cap) (egress_capacities sc) -> e <> "" ->
      exists u, In (e, u) m /\ um_capacity u = cap /\
        um_traffic u == egress_flow (path_to_egress_mapping sc) a e /\
        0 <= um_utilization_percent u /\ um_utilization_percent u <= 100.
Proof.
  intros Hnd Hh Hp Hc Hcap.
  assert (Hn : forall k v, In (k, v) a ->
     contains "_" (t_host k) = false /\
     contains "_to_" ("_" ++ t_path k ++ "_to") = false).
  { intros k v Hin. destruct (Hc k v Hin) as [_ [Hk [_ [q [Hq Hpq]]]]].
    apply candidate_paths_in_iff in Hq as [Hq _]. rewrite Hpq in Hq.
    split; [apply Hh; exact Hk|apply (Hp (t_host k)); exact Hq]. }
  assert (Hparse : forall kv, In kv (str_of_allocation a) -> path_id_r3 (fst kv) <> None).
  { intros kv Hin. unfold str_of_allocation in Hin.
    apply in_map_iff in Hin as [[[[h p] d] v] [<- Hin]]. simpl.
    destruct (Hn _ _ Hin) as [H1 H2]. simpl in H1, H2.
    rewrite (path_id_r3_key h p d H1 H2). discriminate. }
  unfold analyze_performance_of_result.
  destruct (proj2 (traffic_on_egress_r3_some (path_to_egress_mapping sc)
                     (str_of_allocation a) []) Hparse) as [toe Htoe].
  rewrite Htoe. eexists. split; [reflexivity|].
  intros e cap Hin He.
  assert (Ht : dget_or toe e 0 == egress_flow (path_to_egress_mapping sc) a e).
  { rewrite (traffic_on_egress_r3_value _ _ [] toe Htoe e).
    rewrite (egress_traffic_str _ a e Hn He). unfold dget_or. simpl. lra. }
  assert (Hpos : 0 <= egress_flow (path_to_egress_mapping sc) a e).
  { unfold egress_flow. apply qsum_map_nonneg. intros [k v] Hkv.
    apply filter_In in Hkv as [Hkv _]. destruct (Hc k v Hkv) as [Hv _]. simpl. lra. }
  assert (Hle : egress_flow (path_to_egress_mapping sc) a e <= cap).
  { rewrite <- (dget_or_in_nodup _ e cap Hnd Hin). apply Hcap. }
  eexists. split; [exact (egress_utilization_in _ toe e cap Hin)|].
  simpl. split; [reflexivity|]. split; [exact Ht|].
  apply util_bounds; rewrite Ht; assumption.
Qed.

Lemma ledger_egress_le (sc : scenario) (st : sim_state) (e : string) :
  ledger_inv sc st ->
  egress_flow (path_to_egress_mapping sc) (sim_alloc st) e
  <= dget_or (egress_capacities sc) e 0.
Proof.
  intros [_ [He [_ Hg]]]. specialize (He e).
  pose proof (dget_or_nonneg (rem_egress st) e Hg). lra.
Qed.

(** Extra: in the reports of [main] (rounds 1 and 3), the analysis of a
    simulator's result succeeds and, for every egress of
    [egress_capacities] (listed once each, with a non-empty name), gives
    the flow the simulator put through that egress and a utilization
    between 0 and 100 percent; this needs non-negative uplinks and
    capacities, hosts without ["_"] and paths [p] for which ["_{p}_to"]
    has no ["_to_"]. *)
Theorem main_sim_utilization (sc : scenario) :
  rates_nonneg sc ->
  NoDup (map fst (egress_capacities sc)) ->
  (forall h, In h (endhosts sc) -> contains "_" h = false) ->
  (forall h p, In p (dget_or (paths_per_endhost sc) h []) ->
     contains "_to_" ("_" ++ p ++ "_to") = false) ->
  (forall mode b r, run_behavioral_sim_r1 sc mode b = SimOk r ->
   exists m,
     analyze_sim_result_r3 (path_to_egress_mapping sc) (egress_capacities sc)
       (run_behavioral_sim_r1 sc mode b) = Some (Analyzed m) /\
     forall e cap, In (e, cap) (egress_capacities sc) -> e <> "" ->
       exists u, In (e, u) m /\ um_capacity u = cap /\
         um_traffic u == egress_flow (path_to_egress_mapping sc) (traffic_allocation r) e /\
         0 <= um_utilization_percent u /\ um_utilization_percent u <= 100) /\
  (forall mode r, run_behavioral_sim_r3 sc mode = SimOk r ->
   exists m,
     analyze_sim_result_r3 (path_to_egress_mapping sc) (egress_capacities sc)
       (run_behavioral_sim_r3 sc mode) = Some (Analyzed m) /\
     forall e cap, In (e, cap) (egress_capacities sc) -> e <> "" ->
       exists u, In (e, u) m /\ um_capacity u = cap /\
         um_traffic u == egress_flow (path_to_egress_mapping sc) (traffic_allocation r) e /\
         0 <= um_utilization_percent u /\ um_utilization_percent u <= 100).
Proof.
  intros Hr Hnd Hh Hp.
  assert (Hc : forall h d p st x,
     dget (path_to_egress_mapping sc) (pi_path p) = Some (pi_egress p) ->
     ledger_inv sc st ->
     ledger_inv sc (commit h (pi_path p) (pi_egress p) d (clamp st h (pi_egress p) x) st))
    by (intros; apply commit_clamp_ledger; assumption).
  pose proof (initial_ledger sc Hr) as H0.
  split.
  - intros mode b r Hrun. rewrite Hrun. unfold analyze_sim_result_r3.
    pose proof (run_r1_on_candidates sc mode b r Hrun) as Hcand.
    destruct (run_r1_result sc mode b r Hrun) as [_ [Ha _]].
    destruct (analyze_sim_alloc _ sc (traffic_allocation r) Hnd Hh Hp Hcand) as [m [Hm Hu]].
    { intros e. rewrite Ha. apply ledger_egress_le. apply run_r1_preserve; assumption. }
    exists m. rewrite Hm. split; [reflexivity|exact Hu].
  - intros mode r Hrun. rewrite Hrun. unfold analyze_sim_result_r3.
    pose proof (run_r3_on_candidates sc mode r Hrun) as Hcand.
    destruct (run_r3_result sc mode r Hrun) as [_ [Ha _]].
    destruct (analyze_sim_alloc _ sc (traffic_allocation r) Hnd Hh Hp Hcand) as [m [Hm Hu]].
    { intros e. rewrite Ha. apply ledger_egress_le. apply run_r3_preserve; assumption. }
    exists m. rewrite Hm. split; [reflexivity|exact Hu].
Qed.

Lemma main_sim_utilization_witness :
  exists r, run_behavioral_sim_r1 (two_host_scenario 40) thundering_herd true = SimOk r /\
  exists m,
    analyze_sim_result_r3 (path_to_egress_mapping (two_host_scenario 40))
      (egress_capacities (two_host_scenario 40))
      (run_behavioral_sim_r1 (two_host_scenario 40) thundering_herd true)
      = Some (Analyzed m) /\
    forall e cap, In (e, cap) (egress_capacities (two_host_scenario 40)) -> e <> "" ->
      exists u, In (e, u) m /\ um_capacity u = cap /\
        um_traffic u == egress_flow (path_to_egress_mapping (two_host_scenario 40))
                          (traffic_allocation r) e /\
        0 <= um_utilization_percent u /\ um_utilization_percent u <= 100.
Proof.
  assert (Hr : rates_nonneg (two_host_scenario 40))
    by (apply rates_nonnegb_spec; vm_compute; reflexivity).
  assert (Hnd : NoDup (map fst (egress_capacities (two_host_scenario 40)))).
  { simpl. constructor; [simpl; intros [H|[]]; discriminate|].
    constructor; [intros []|constructor]. }
  assert (Hh : forall h, In h (endhosts (two_host_scenario 40)) -> contains "_" h = false).
  { simpl. intros h [<-|[<-|[]]]; reflexivity. }
  assert (Hp : forall h p, In p (dget_or (paths_per_endhost (two_host_scenario 40)) h []) ->
     contains "_to_" ("_" ++ p ++ "_to") = false).
  { intros h p Hin. unfold dget_or in Hin. simpl in Hin.
    destruct (String.eqb h "h1"); [|destruct (String.eqb h "h2")]; simpl in Hin;
      repeat destruct Hin as [<-|Hin]; try reflexivity; contradiction. }
  destruct (run_behavioral_sim_r1 (two_host_scenario 40) thundering_herd true)
    as [msg|r|msg] eqn:E; [vm_compute in E; discriminate| |vm_compute in E; discriminate].
  exists r. split; [reflexivity|].
  rewrite <- E.
  exact (proj1 (main_sim_utilization (two_host_scenario 40) Hr Hnd Hh Hp)
           thundering_herd true r E).
Defined.

(* ------------------------------------------------------------------ *)
(** ** Analyzing an error result: round 3 and [model_eval] *)

Lemma run_r3_zero (sc : scenario) (mode : sim_mode) :
  total_uplink_of sc == 0 ->
  run_behavioral_sim_r3 sc mode = SimError "Total uplink capacity is zero.".
Proof.
  intros Hz. apply Qeq_bool_iff in Hz. unfold run_behavioral_sim_r3. rewrite Hz.
  reflexivity.
Qed.

(** Extra: when the total uplink is zero, round 3's [main] keeps the
    simulator's error dict as it is, while [model_eval]'s [main], whose
    analyzer has no error guard, adds an analysis that reports every egress
    of [egress_capacities] with traffic 0 and utilization 0. *)
Theorem zero_uplink_analysis (sc : scenario) (mode : sim_mode) :
  total_uplink_of sc == 0 ->
  analyze_sim_result_r3 (path_to_egress_mapping sc) (egress_capacities sc)
    (run_behavioral_sim_r3 sc mode) = Some Unchanged /\
  exists m,
    analyze_sim_result_me (path_to_egress_mapping sc) (egress_capacities sc)
      (run_behavioral_sim_r3 sc mode) = Some (Analyzed m) /\
    forall e cap, In (e, cap) (egress_capacities sc) ->
      exists u, In (e, u) m /\ um_capacity u = cap /\
        um_traffic u == 0 /\ um_utilization_percent u == 0.
Proof.
  intros Hz. rewrite (run_r3_zero sc mode Hz). split; [reflexivity|].
  eexists. split; [reflexivity|].
  intros e cap Hin. eexists. split; [exact (egress_utilization_in _ [] e cap Hin)|].
  simpl. split; [reflexivity|]. unfold dget_or. simpl. split; [reflexivity|].
  destruct (qltb 0 cap); [unfold Qdiv; ring|reflexivity].
Qed.

(* ------------------------------------------------------------------ *)
(** ** Simulators on non-positive demands *)

Lemma commit_nonpos (h p e d : string) (x : Q) (st : sim_state) :
  x <= 0 -> commit h p e d x st = st.
Proof.
  intros Hx. unfold commit. destruct (qltb 0 x) eqn:E; [|reflexivity].
  apply qltb_true in E. exfalso. lra.
Qed.

Lemma send_each_nonpos (h d : string) (x : Q) (ps : list path_info) (st : sim_state) :
  x <= 0 -> send_each h d x ps st = st.
Proof.
  intros Hx. revert st. induction ps as [|p ps IH]; intros st; [reflexivity|].
  simpl. rewrite commit_nonpos; [apply IH|].
  destruct (clamp_le st h (pi_egress p) x). lra.
Qed.

Lemma fill_greedy_nonpos (h d : string) (x : Q) (ps : list path_info) (st : sim_state) :
  x <= 0 -> fst (fill_greedy h d x ps st) = st.
Proof.
  intros Hx. destruct ps as [|p ps]; [reflexivity|]. simpl.
  assert (E : Qle_bool x eps6 = true)
    by (apply Qle_bool_iff; pose proof eps6_pos; lra).
  rewrite E. reflexivity.
Qed.

Lemma div_nonpos (x q : Q) : x <= 0 -> 0 < q -> x / q <= 0.
Proof.
  intros Hx Hq. apply Qle_shift_div_r; [exact Hq|]. lra.
Qed.

Lemma host_demands_nonpos (sc : scenario) (tot : Q) (h : string) (dd : string * Q) :
  rates_nonneg sc -> 0 < tot ->
  (forall k v, In (k, v) (traffic_per_destination sc) -> v <= 0) ->
  In dd (host_demands sc tot h) -> snd dd <= 0.
Proof.
  intros [Hu _] Htot Ht Hin. unfold host_demands in Hin.
  apply in_map_iff in Hin as [[k v] [<- Hin]]. simpl.
  pose proof (Ht k v Hin) as Hv.
  assert (Hs : 0 <= dget_or (endhost_uplinks sc) h 0 / tot)
    by (apply div_nonneg; [apply dget_or_nonneg; exact Hu|exact Htot]).
  set (s := dget_or (endhost_uplinks sc) h 0 / tot) in *.
  assert (0 <= (- v) * s) by (apply Qmult_le_0_compat; lra).
  assert (E : (- v) * s == - (v * s)) by ring. lra.
Qed.

(** A step that leaves the state alone on a non-positive demand leaves the
    whole run at its initial state. *)
Lemma for_each_pair_nonpos (sc : scenario) (tot : Q)
    (paths : string -> string -> list path_info)
    (step : string -> string -> Q -> list path_info -> sim_state -> sim_state)
    (st : sim_state) :
  rates_nonneg sc -> 0 < tot ->
  (forall k v, In (k, v) (traffic_per_destination sc) -> v <= 0) ->
  (forall h d x ps st, x <= 0 -> ps <> [] -> step h d x ps st = st) ->
  for_each_pair sc tot paths step st = st.
Proof.
  intros Hr Htot Ht Hstep.
  apply (for_each_pair_preserve_in (fun st' => st' = st)); [|reflexivity].
  intros h dd st' _ Hdd Hps ->. apply Hstep; [|exact Hps].
  exact (host_demands_nonpos sc tot h dd Hr Htot Ht Hdd).
Qed.

Lemma step_r1_nonpos (mode : sim_mode) (h d : string) (x : Q) (ps : list path_info)
    (st : sim_state) :
  x <= 0 -> ps <> [] -> step_r1 mode h d x ps st = st.
Proof.
  intros Hx Hps. destruct mode; simpl.
  - apply fill_greedy_nonpos. exact Hx.
  - apply send_each_nonpos. destruct ps as [|p ps]; [congruence|].
    apply div_nonpos; [exact Hx|apply qlen_pos].
Qed.

Lemma step_r3_nonpos (mode : sim_mode) (h d : string) (x : Q) (ps : list path_info)
    (st : sim_state) :
  x <= 0 -> ps <> [] -> step_r3 mode h d x ps st = st.
Proof.
  intros Hx Hps. unfold step_r3. destruct ps as [|p ps]; [congruence|].
  apply send_each_nonpos.
  destruct mode; apply div_nonpos; (exact Hx || apply qlen_pos).
Qed.

Lemma step_fs_nonpos (h d : string) (x : Q) (ps : list path_info) (st : sim_state) :
  x <= 0 -> ps <> [] -> step_fs h d x ps st = st.
Proof.
  intros Hx Hps. unfold step_fs. destruct ps as [|p ps]; [congruence|].
  apply send_each_nonpos. apply div_nonpos; [exact Hx|apply qlen_pos].
Qed.

(** Extra: when no destination has a positive demand (and uplinks and
    capacities are non-negative), every simulator that runs sends nothing:
    an empty allocation, nothing sent, and the summed demand reported as
    unsent. *)
Theorem nonpositive_demand_no_traffic (sc : scenario) :
  rates_nonneg sc ->
  (forall d v, In (d, v) (traffic_per_destination sc) -> v <= 0) ->
  (forall mode b r, run_behavioral_sim_r1 sc mode b = SimOk r ->
     traffic_allocation r = [] /\ total_sent_traffic r == 0 /\
     total_unsent_traffic r == qsum (map snd (traffic_per_destination sc))) /\
  (forall mode r, run_behavioral_sim_r3 sc mode = SimOk r ->
     traffic_allocation r = [] /\ total_sent_traffic r == 0 /\
     total_unsent_traffic r == qsum (map snd (traffic_per_destination sc))) /\
  (forall r, simulate_fair_share sc = Some r ->
     traffic_allocation r = [] /\ total_sent_traffic r == 0 /\
     total_unsent_traffic r == qsum (map snd (traffic_per_destination sc))).
Proof.
  intros Hr Ht.
  assert (G : forall r, traffic_allocation r = [] ->
     total_sent_traffic r = total_flow (traffic_allocation r) ->
     total_unsent_traffic r =
       qsum (map snd (traffic_per_destination sc)) - total_sent_traffic r ->
     traffic_allocation r = [] /\ total_sent_traffic r == 0 /\
     total_unsent_traffic r == qsum (map snd (traffic_per_destination sc))).
  { intros r Ha Hs Hu. rewrite Ha in Hs. unfold total_flow in Hs. simpl in Hs.
    split; [exact Ha|]. rewrite Hu, Hs. split; [reflexivity|lra]. }
  split; [|split].
  - intros mode b r Hrun. destruct (run_r1_result sc mode b r Hrun) as [Hz [Ha [Hs Hu]]].
    apply G; [|exact Hs|exact Hu]. rewrite Ha.
    rewrite (for_each_pair_nonpos sc _ _ _ _ Hr (total_uplink_pos sc Hr Hz) Ht
               (step_r1_nonpos mode)).
    reflexivity.
  - intros mode r Hrun. destruct (run_r3_result sc mode r Hrun) as [Hz [Ha [Hs Hu]]].
    apply G; [|exact Hs|exact Hu]. rewrite Ha.
    rewrite (for_each_pair_nonpos sc _ _ _ _ Hr (total_uplink_pos sc Hr Hz) Ht
               (step_r3_nonpos mode)).
    reflexivity.
  - intros r Hrun. destruct (run_fs_result sc r Hrun) as [Hz [Ha [Hs Hu]]].
    apply G; [|exact Hs|exact Hu]. rewrite Ha.
    rewrite (for_each_pair_nonpos sc _ _ _ _ Hr (total_uplink_pos sc Hr Hz) Ht
               step_fs_nonpos).
    reflexivity.
Qed.

Lemma zero_uplink_analysis_witness :
  total_uplink_of (set_uplinks (two_host_scenario 40) [("h1", 0); ("h2", 0)]) == 0 /\
  analyze_sim_result_r3
    (path_to_egress_mapping (set_uplinks (two_host_scenario 40) [("h1", 0); ("h2", 0)]))
    (egress_capacities (set_uplinks (two_host_scenario 40) [("h1", 0); ("h2", 0)]))
    (run_behavioral_sim_r3 (set_uplinks (two_host_scenario 40) [("h1", 0); ("h2", 0)])
       thundering_herd) = Some Unchanged.
Proof.
  assert (Hz : total_uplink_of (set_uplinks (two_host_scenario 40)
                                  [("h1", 0); ("h2", 0)]) == 0) by reflexivity.
  split; [exact Hz|].
  exact (proj1 (zero_uplink_analysis _ thundering_herd Hz)).
Defined.

Lemma nonpositive_demand_no_traffic_witness :
  exists r, run_behavioral_sim_r3 (two_host_scenario 0) fair_share = SimOk r /\
    traffic_allocation r = [] /\ total_sent_traffic r == 0 /\
    total_unsent_traffic r == qsum (map snd (traffic_per_destination (two_host_scenario 0))).
Proof.
  assert (Hr : rates_nonneg (two_host_scenario 0))
    by (apply rates_nonnegb_spec; vm_compute; reflexivity).
  assert (Ht : forall d v, In (d, v) (traffic_per_destination (two_host_scenario 0)) -> v <= 0).
  { simpl. intros d v [[= _ <-]|[]]. apply Qle_refl. }
  destruct (run_behavioral_sim_r3 (two_host_scenario 0) fair_share) as [msg|r|msg] eqn:E;
    [vm_compute in E; discriminate| |vm_compute in E; discriminate].
  exists r. split; [reflexivity|].
  exact (proj1 (proj2 (nonpositive_demand_no_traffic _ Hr Ht)) fair_share r E).
Defined.

(* ------------------------------------------------------------------ *)
(** ** The reported LP allocations *)

Lemma dedup_nodup_out (l : list triple) : NoDup (dedup_triples l).
Proof.
  induction l as [|k l IH]; simpl; [constructor|].
  constructor.
  - intros Hin. apply filter_In in Hin as [_ E].
    rewrite triple_eqb_refl in E. discriminate.
  - apply NoDup_filter. exact IH.
Qed.

(** The entries of [{f"{h}_{p}_to_{d}": v.varValue for (h,p,d), v in
    x.items() if v.varValue and v.varValue > 1e-6}], as triples. *)
Lemma lp_allocation_shape (vals : lp_values) (keys : list triple) :
  NoDup (map fst (lp_allocation vals keys)) /\
  forall k v, In (k, v) (lp_allocation vals keys) ->
    In k keys /\ eps6 < v /\ vals (XVar k) = Some v.
Proof.
  unfold lp_allocation.
  assert (G : forall l, NoDup l ->
    NoDup (map fst (flat_map (fun k =>
      match vals (XVar k) with
      | Some q => if qltb eps6 q then [(k, q)] else []
      | None => []
      end) l)) /\
    forall k v, In (k, v) (flat_map (fun k =>
      match vals (XVar k) with
      | Some q => if qltb eps6 q then [(k, q)] else []
      | None => []
      end) l) -> In k l /\ eps6 < v /\ vals (XVar k) = Some v).
  { induction l as [|k l IH]; intros Hnd; simpl; [split; [constructor|intros _ _ []]|].
    inversion Hnd as [|? ? Hk Hl]; subst. destruct (IH Hl) as [IHn IHi].
    destruct (vals (XVar k)) as [q|] eqn:Eq; [destruct (qltb eps6 q) eqn:Eb|].
    - simpl. split.
      + constructor; [|exact IHn]. intros Hin.
        apply in_map_iff in Hin as [[k' v'] [Hk' Hin]]. simpl in Hk'. subst k'.
        apply Hk. exact (proj1 (IHi k v' Hin)).
      + intros k' v [[= <- <-]|Hin].
        * split; [left; reflexivity|]. split; [apply qltb_true; exact Eb|exact Eq].
        * destruct (IHi k' v Hin) as [H1 H2]. split; [right; exact H1|exact H2].
    - simpl. split; [exact IHn|].
      intros k' v Hin. destruct (IHi k' v Hin) as [H1 H2]. split; [right; exact H1|exact H2].
    - simpl. split; [exact IHn|].
      intros k' v Hin. destruct (IHi k' v Hin) as [H1 H2]. split; [right; exact H1|exact H2]. }
  destruct (G (dedup_triples keys) (dedup_nodup_out keys)) as [Hn Hi].
  split; [exact Hn|]. intros k v Hin. destruct (Hi k v Hin) as [H1 H2].
  split; [apply dedup_in; exact H1|exact H2].
Qed.

(** Extra: every allocation the LP solvers report, whatever the solver
    returns, lists each variable key [(h, p, d)] at most once, only keys
    of the model's variables, and only values above [1e-6] that are the
    variables' values (round 3 cost and latency LPs, round 1 cost LP and
    [lp_model_costs]). *)
Theorem lp_allocation_entries (solve : lp_problem -> lp_status * lp_values)
    (sc : scenario) :
  (forall goal r, solve_cost_lp solve sc goal = LPOk r ->
     NoDup (map fst (lp_traffic_allocation r)) /\
     forall k v, In (k, v) (lp_traffic_allocation r) ->
       In k (x_vars_keys (fun e => mem e (egress_interfaces sc)) sc) /\ eps6 < v) /\
  (forall r, solve_latency_lp solve sc = LPOk r ->
     NoDup (map fst (lp_traffic_allocation r)) /\
     forall k v, In (k, v) (lp_traffic_allocation r) ->
       In k (x_vars_keys (fun e => mem e (egress_interfaces sc)) sc) /\ eps6 < v) /\
  (forall goal r, solve_cost_lp_r1 solve sc goal = LPOk r ->
     NoDup (map fst (lp_traffic_allocation r)) /\
     forall k v, In (k, v) (lp_traffic_allocation r) ->
       In k (x_vars_keys (fun e => mem e (map fst (egress_costs sc))) sc) /\ eps6 < v) /\
  (forall goal s o a, solve_adversarial_path_selection solve sc goal = (s, o, Some a) ->
     NoDup (map fst a) /\
     forall k v, In (k, v) a ->
       In k (x_vars_keys (fun e => mem e (map fst (egress_costs sc))) sc) /\ eps6 < v).
Proof.
  assert (G : forall vals keys,
     NoDup (map fst (lp_allocation vals keys)) /\
     forall k v, In (k, v) (lp_allocation vals keys) -> In k keys /\ eps6 < v).
  { intros vals keys. destruct (lp_allocation_shape vals keys) as [Hn Hi].
    split; [exact Hn|]. intros k v Hin. destruct (Hi k v Hin) as [H1 [H2 _]]. auto. }
  split; [|split; [|split]].
  - intros goal r. unfold solve_cost_lp.
    destruct (x_vars_keys _ sc) as [|k0 l0]; [discriminate|].
    destruct (solve _) as [st vals]. intros [= <-]. apply G.
  - intros r. unfold solve_latency_lp.
    destruct (x_vars_keys _ sc) as [|k0 l0]; [discriminate|].
    destruct (solve _) as [st vals]. intros [= <-]. apply G.
  - intros goal r. unfold solve_cost_lp_r1.
    destruct (x_vars_keys _ sc) as [|k0 l0]; [discriminate|].
    destruct (solve _) as [st vals]. intros [= <-]. apply G.
  - intros goal s o a. unfold solve_adversarial_path_selection.
    destruct (negb _); [discriminate|].
    destruct (x_vars_keys _ sc) as [|k0 l0].
    { intros [= _ _ <-]. split; [constructor|intros _ _ []]. }
    destruct (solve _) as [st vals]. intros [= _ _ <-].
    destruct st; [exact (G vals (k0 :: l0))|split; [constructor|intros _ _ []]..].
Qed.

Lemma lp_allocation_entries_witness :
  exists r, solve_cost_lp_r1 (checking_solver (uniform_point 10 1)) (two_host_scenario 40)
              LpMinimize = LPOk r /\
    NoDup (map fst (lp_traffic_allocation r)) /\
    forall k v, In (k, v) (lp_traffic_allocation r) ->
      In k (x_vars_keys (fun e => mem e (map fst (egress_costs (two_host_scenario 40))))
              (two_host_scenario 40)) /\ eps6 < v.
Proof.
  destruct (solve_cost_lp_r1 (checking_solver (uniform_point 10 1)) (two_host_scenario 40)
              LpMinimize) as [msg|r] eqn:E; [vm_compute in E; discriminate|].
  exists r. split; [reflexivity|].
  exact (proj1 (proj2 (proj2 (lp_allocation_entries (checking_solver (uniform_point 10 1))
                                 (two_host_scenario 40)))) LpMinimize r E).
Defined.

(* ------------------------------------------------------------------ *)
(** ** Optimal solves of the cost and latency programs *)

(** Extra: an optimal solve of round 1's cost LP reports an allocation
    within every uplink and egress capacity and, without duplicate
    variable keys, meets each destination's demand up to [1e-6] per
    variable dropped by the report. *)
Theorem cost_lp_r1_optimal (solve : lp_problem -> lp_status * lp_values)
    (sc : scenario) (goal : lp_sense) (r : lp_report) :
  solver_sound solve ->
  solve_cost_lp_r1 solve sc goal = LPOk r -> lp_status_of r = Optimal ->
  respects_capacities sc (lp_traffic_allocation r) /\
  (NoDup (x_vars_keys (fun e => mem e (map fst (egress_costs sc))) sc) ->
   forall d, In d (destinations sc) ->
     dest_flow (lp_traffic_allocation r) d <= dget_or (traffic_per_destination sc) d 0 /\
     dget_or (traffic_per_destination sc) d 0
       - qlen (filter (fun k => String.eqb (t_dest k) d)
                 (x_vars_keys (fun e => mem e (map fst (egress_costs sc))) sc)) * eps6
       <= dest_flow (lp_traffic_allocation r) d).
Proof.
  intros Hs Hrun Hopt.
  destruct (solve_cost_lp_r1_feasible solve sc goal r Hs Hrun Hopt) as [vals [Hf ->]].
  destruct (feasibleb_spec _ _ Hf) as [Hnn Hcs]. simpl in Hnn, Hcs.
  pose proof (continuous_keys _ _ Hnn) as Hk. split.
  - apply lp_alloc_respects; [exact Hk| |].
    + apply uplink_constraints_hold. intros c Hc. apply Hcs. apply in_app3_m. exact Hc.
    + apply capacity_constraints_hold. intros c Hc. apply Hcs. apply in_app3_r. exact Hc.
  - intros Hnd d Hd. apply demand_conserved; [exact Hnd|exact Hk|].
    apply demand_constraints_hold; [|exact Hd].
    intros c Hc. apply Hcs. apply in_app3_l. exact Hc.
Qed.

Lemma cost_lp_r1_optimal_witness :
  exists r, solve_cost_lp_r1 (checking_solver (uniform_point 10 1)) (two_host_scenario 40)
              LpMaximize = LPOk r /\ lp_status_of r = Optimal /\
    respects_capacities (two_host_scenario 40) (lp_traffic_allocation r).
Proof.
  destruct (solve_cost_lp_r1 (checking_solver (uniform_point 10 1)) (two_host_scenario 40)
              LpMaximize) as [msg|r] eqn:E; [vm_compute in E; discriminate|].
  assert (Ho : lp_status_of r = Optimal)
    by (vm_compute in E; injection E as <-; reflexivity).
  exists r. split; [reflexivity|]. split; [exact Ho|].
  exact (proj1 (cost_lp_r1_optimal _ _ LpMaximize r
                  (checking_solver_sound (uniform_point 10 1)) E Ho)).
Defined.

Lemma filter_true {A : Type} (l : list A) : filter (fun _ => true) l = l.
Proof. induction l as [|x l IH]; simpl; congruence. Qed.

(** Extra: an optimal solve of round 3's latency LP, without duplicate
    variable keys, sends the whole summed demand: [total_sent_traffic] is
    the sum of [traffic_per_destination] (so [total_unsent_traffic] is
    0), and the reported allocation carries that total up to [1e-6] per
    variable. *)
Theorem latency_lp_sends_all (solve : lp_problem -> lp_status * lp_values)
    (sc : scenario) (r : lp_report) :
  solver_sound solve ->
  solve_latency_lp solve sc = LPOk r -> lp_status_of r = Optimal ->
  NoDup (x_vars_keys (fun e => mem e (egress_interfaces sc)) sc) ->
  lp_total r == qsum (map snd (traffic_per_destination sc)) /\
  qsum (map snd (traffic_per_destination sc))
    - qlen (x_vars_keys (fun e => mem e (egress_interfaces sc)) sc) * eps6
    <= total_flow (lp_traffic_allocation r) /\
  total_flow (lp_traffic_allocation r) <= qsum (map snd (traffic_per_destination sc)).
Proof.
  intros Hs Hrun Hopt Hnd.
  assert (Hv : exists vals,
    feasibleb (latency_lp_problem sc
                 (x_vars_keys (fun e => mem e (egress_interfaces sc)) sc)) vals = true /\
    lp_total r = qsum (map (fun k => val vals (XVar k))
                   (dedup_triples (x_vars_keys (fun e => mem e (egress_interfaces sc)) sc))) /\
    lp_traffic_allocation r =
      lp_allocation vals (x_vars_keys (fun e => mem e (egress_interfaces sc)) sc)).
  { revert Hrun Hopt. unfold solve_latency_lp.
    destruct (x_vars_keys (fun e => mem e (egress_interfaces sc)) sc) as [|k0 l0];
      [discriminate|].
    destruct (solve (latency_lp_problem sc (k0 :: l0))) as [st vals] eqn:Es.
    intros Heq Hopt. injection Heq as Heq. subst r. simpl in Hopt. subst st.
    exists vals. split; [|split; reflexivity].
    pose proof (Hs (latency_lp_problem sc (k0 :: l0))) as H. rewrite Es in H.
    apply H. reflexivity. }
  destruct Hv as [vals [Hf [-> ->]]].
  set (keys := x_vars_keys (fun e => mem e (egress_interfaces sc)) sc) in *.
  destruct (feasibleb_spec _ _ Hf) as [Hnn Hcs].
  cbn [lp_continuous lp_constraints latency_lp_problem] in Hnn, Hcs.
  pose proof (continuous_keys _ _ Hnn) as Hk.
  assert (Hd : eval_lin vals (xsum keys (fun _ => true))
               == qsum (map snd (traffic_per_destination sc)))
    by (apply constr_eq; apply Hcs; left; reflexivity).
  rewrite eval_xsum, filter_true in Hd.
  pose proof (lp_alloc_le vals keys (fun _ => true) Hk) as Hle.
  pose proof (lp_alloc_ge vals keys (fun _ => true) Hnd) as Hge.
  rewrite filter_true in Hle, Hge. rewrite <- total_flow_sum in Hle, Hge.
  rewrite (dedup_nodup _ Hnd).
  split; [exact Hd|]. split; lra.
Qed.

Lemma latency_lp_sends_all_witness :
  exists r, solve_latency_lp (checking_solver (uniform_point 10 1)) (two_host_scenario 40)
              = LPOk r /\
    lp_total r == qsum (map snd (traffic_per_destination (two_host_scenario 40))).
Proof.
  destruct (solve_latency_lp (checking_solver (uniform_point 10 1)) (two_host_scenario 40))
    as [msg|r] eqn:E; [vm_compute in E; discriminate|].
  assert (Ho : lp_status_of r = Optimal)
    by (vm_compute in E; injection E as <-; reflexivity).
  assert (Hnd : NoDup (x_vars_keys (fun e => mem e (egress_interfaces (two_host_scenario 40)))
                         (two_host_scenario 40))).
  { vm_compute.
    repeat constructor; simpl; intros H; repeat destruct H as [H|H]; try discriminate H;
      exact H. }
  exists r. split; [reflexivity|].
  exact (proj1 (latency_lp_sends_all _ _ r (checking_solver_sound (uniform_point 10 1))
                  E Ho Hnd)).
Defined.

Lemma feasibleb_binary (lp : lp_problem) (vals : lp_values) :
  feasibleb lp vals = true ->
  forall v, In v (lp_binary lp) -> val vals v == 0 \/ val vals v == 1.
Proof.
  unfold feasibleb. intros H.
  apply andb_prop in H as [H _]. apply andb_prop in H as [_ H2].
  rewrite forallb_forall in H2. intros v Hv. specialize (H2 v Hv).
  apply orb_prop in H2 as [E|E]; apply Qeq_bool_iff in E; auto.
Qed.

Lemma eval_lin_app (vals : lp_values) (l1 l2 : lin) :
  eval_lin vals (app l1 l2) == eval_lin vals l1 + eval_lin vals l2.
Proof. unfold eval_lin. rewrite map_app. apply qsum_app. Qed.

Lemma cost_lp_report (solve : lp_problem -> lp_status * lp_values)
    (sc : scenario) (goal : lp_sense) (r : lp_report) :
  solver_sound solve ->
  solve_cost_lp solve sc goal = LPOk r -> lp_status_of r = Optimal ->
  exists vals,
    feasibleb (cost_lp_problem sc goal
                 (x_vars_keys (fun e => mem e (egress_interfaces sc)) sc)) vals = true /\
    lp_total r = eval_objective vals (lp_objective (cost_lp_problem sc goal
                   (x_vars_keys (fun e => mem e (egress_interfaces sc)) sc))) /\
    lp_traffic_allocation r =
      lp_allocation vals (x_vars_keys (fun e => mem e (egress_interfaces sc)) sc).
Proof.
  intros Hs. unfold solve_cost_lp.
  destruct (x_vars_keys (fun e => mem e (egress_interfaces sc)) sc) as [|k0 l0];
    [discriminate|].
  destruct (solve (cost_lp_problem sc goal (k0 :: l0))) as [st vals] eqn:Es.
  intros Heq Hopt. injection Heq as Heq. subst r. simpl in Hopt. subst st.
  exists vals. split; [|split; reflexivity].
  pose proof (Hs (cost_lp_problem sc goal (k0 :: l0))) as H. rewrite Es in H.
  apply H. reflexivity.
Qed.

(** Extra: in an optimal solve of round 3's cost LP, with non-negative
    per-bandwidth and base costs, the reported [total_cost] includes the
    base cost of every egress of [egress_interfaces] that the reported
    allocation uses: the big-M constraint sets its [y] variable to 1. *)
Theorem cost_lp_base_costs_charged (solve : lp_problem -> lp_status * lp_values)
    (sc : scenario) (goal : lp_sense) (r : lp_report) :
  solver_sound solve ->
  (forall e c, In (e, c) (egress_costs sc) -> 0 <= c) ->
  (forall e c, In (e, c) (egress_base_costs sc) -> 0 <= c) ->
  solve_cost_lp solve sc goal = LPOk r -> lp_status_of r = Optimal ->
  qsum (map (fun e =>
          if qltb 0 (egress_flow (path_to_egress_mapping sc) (lp_traffic_allocation r) e)
          then dget_or (egress_base_costs sc) e 0 else 0) (egress_interfaces sc))
  <= lp_total r.
Proof.
  intros Hs Hc Hb Hrun Hopt.
  destruct (cost_lp_report solve sc goal r Hs Hrun Hopt) as [vals [Hf [-> ->]]].
  set (keys := x_vars_keys (fun e => mem e (egress_interfaces sc)) sc) in *.
  destruct (feasibleb_spec _ _ Hf) as [Hnn Hcs].
  pose proof (feasibleb_binary _ _ Hf) as Hbin.
  cbn [lp_continuous lp_constraints lp_binary cost_lp_problem] in Hnn, Hcs, Hbin.
  pose proof (continuous_keys _ _ Hnn) as Hk.
  unfold eval_objective. cbn [lp_objective cost_lp_problem].
  rewrite map_app, qsum_app, !map_map. cbn [fst snd].
  assert (Hx : 0 <= qsum (map (fun k =>
                 cost_of sc (egress_of_path sc (t_path k)) * val vals (XVar k)) keys)).
  { apply qsum_map_nonneg. intros k Hin. apply Qmult_le_0_compat; [|exact (Hk k Hin)].
    unfold cost_of. destruct (egress_of_path sc (t_path k)); [|apply Qle_refl].
    apply dget_or_nonneg. exact Hc. }
  assert (Hy : qsum (map (fun e =>
          if qltb 0 (egress_flow (path_to_egress_mapping sc) (lp_allocation vals keys) e)
          then dget_or (egress_base_costs sc) e 0 else 0) (egress_interfaces sc))
        <= qsum (map (fun e => dget_or (egress_base_costs sc) e 0 * val vals (YVar e))
                   (egress_interfaces sc))).
  { apply qsum_map_le. intros e He.
    assert (Hb0 : 0 <= dget_or (egress_base_costs sc) e 0) by (apply dget_or_nonneg; exact Hb).
    destruct (Hbin (YVar e) (in_map YVar _ e He)) as [Hy0|Hy1].
    - assert (Hm : In (mk_constr (app (xsum keys (on_egress sc e))
                     [(- dget_or (egress_capacities sc) e 1000000000, YVar e)]) LLe 0)
                   (egress_constraints_r3 sc keys)).
      { unfold egress_constraints_r3. apply in_flat_map. exists e.
        split; [exact He|right; left; reflexivity]. }
      pose proof (constr_le _ _ _ (Hcs _ (in_app3_r _ _ _ _ Hm))) as HM.
      rewrite eval_lin_app, eval_xsum in HM.
      unfold eval_lin in HM. cbn [map fst snd qsum] in HM. rewrite Hy0 in HM.
      pose proof (lp_alloc_le vals keys (on_egress sc e) Hk) as Hle.
      assert (Hfl : egress_flow (path_to_egress_mapping sc) (lp_allocation vals keys) e
                    <= 0).
      { rewrite egress_flow_sum. eapply Qle_trans; [exact Hle|]. lra. }
      destruct (qltb 0 _) eqn:E; [apply qltb_true in E; exfalso; lra|].
      rewrite Hy0. lra.
    - rewrite Hy1. destruct (qltb 0 _); lra. }
  lra.
Qed.

(** With base costs 100 (transit) and 50 (peering) and both egresses in
    use, the charged base costs are 150. *)
Lemma cost_lp_base_costs_charged_witness :
  exists r, solve_cost_lp (checking_solver (uniform_point 10 1)) (set_base_costs (two_host_scenario 40) [("transit", 100); ("peering", 50)])
              LpMinimize = LPOk r /\
    qsum (map (fun e =>
            if qltb 0 (egress_flow (path_to_egress_mapping (set_base_costs (two_host_scenario 40) [("transit", 100); ("peering", 50)]))
                         (lp_traffic_allocation r) e)
            then dget_or (egress_base_costs (set_base_costs (two_host_scenario 40) [("transit", 100); ("peering", 50)])) e 0 else 0)
            (egress_interfaces (set_base_costs (two_host_scenario 40) [("transit", 100); ("peering", 50)]))) == 150 /\
    qsum (map (fun e =>
            if qltb 0 (egress_flow (path_to_egress_mapping (set_base_costs (two_host_scenario 40) [("transit", 100); ("peering", 50)]))
                         (lp_traffic_allocation r) e)
            then dget_or (egress_base_costs (set_base_costs (two_host_scenario 40) [("transit", 100); ("peering", 50)])) e 0 else 0)
            (egress_interfaces (set_base_costs (two_host_scenario 40) [("transit", 100); ("peering", 50)])))
    <= lp_total r.
Proof.
  destruct (solve_cost_lp (checking_solver (uniform_point 10 1)) (set_base_costs (two_host_scenario 40) [("transit", 100); ("peering", 50)])
              LpMinimize) as [msg|r] eqn:E; [vm_compute in E; discriminate|].
  assert (Ho : lp_status_of r = Optimal)
    by (vm_compute in E; injection E as <-; reflexivity).
  assert (Hc : forall e c, In (e, c) (egress_costs (set_base_costs (two_host_scenario 40) [("transit", 100); ("peering", 50)])) -> 0 <= c).
  { simpl. intros e c [[= _ <-]|[[= _ <-]|[]]]; lra. }
  assert (Hb : forall e c, In (e, c) (egress_base_costs (set_base_costs (two_host_scenario 40) [("transit", 100); ("peering", 50)])) -> 0 <= c).
  { simpl. intros e c [[= _ <-]|[[= _ <-]|[]]]; lra. }
  exists r. split; [reflexivity|]. split.
  - vm_compute in E. injection E as <-. vm_compute. reflexivity.
  - exact (cost_lp_base_costs_charged _ _ LpMinimize r
             (checking_solver_sound (uniform_point 10 1)) Hc Hb E Ho).
Defined.

(* ------------------------------------------------------------------ *)
(** ** The proportional demand split *)

Lemma dget_or_host_demands (sc : scenario) (tot : Q) (h d : string) :
  dget_or (host_demands sc tot h) d 0
  == dget_or (traffic_per_destination sc) d 0 * (dget_or (endhost_uplinks sc) h 0 / tot).
Proof.
  unfold host_demands, dget_or.
  induction (traffic_per_destination sc) as [|[k v] T IH]; simpl; [ring|].
  destruct (String.eqb d k); [reflexivity|exact IH].
Qed.

Lemma sum_keys_dget (U : dict Q) :
  NoDup (map fst U) ->
  qsum (map (fun h => dget_or U h 0) (map fst U)) == qsum (map snd U).
Proof.
  induction U as [|[k v] U IH]; intros Hnd; simpl; [reflexivity|].
  inversion Hnd as [|? ? Hk HU]; subst.
  unfold dget_or at 1. simpl. rewrite String.eqb_refl.
  assert (E : qsum (map (fun h => dget_or ((k, v) :: U) h 0) (map fst U))
              == qsum (map (fun h => dget_or U h 0) (map fst U))).
  { apply qsum_map_eq. intros h Hin. unfold dget_or. simpl.
    destruct (String.eqb_spec h k) as [->|_]; [contradiction|reflexivity]. }
  rewrite E, (IH HU). reflexivity.
Qed.

(** Extra: when [endhost_uplinks] lists exactly the end hosts, each once,
    and the total uplink is not zero, the simulators' per-host demands for
    a destination add up to the destination's demand: the proportional
    split neither loses nor adds traffic. *)
Theorem host_demand_split_exact (sc : scenario) :
  map fst (endhost_uplinks sc) = endhosts sc ->
  NoDup (endhosts sc) ->
  ~ total_uplink_of sc == 0 ->
  forall d,
    qsum (map (fun h => dget_or (host_demands sc (total_uplink_of sc) h) d 0)
              (endhosts sc))
    == dget_or (traffic_per_destination sc) d 0.
Proof.
  intros Hk Hnd Hz d.
  set (tot := total_uplink_of sc) in *.
  set (c := dget_or (traffic_per_destination sc) d 0).
  assert (E1 : qsum (map (fun h => dget_or (host_demands sc tot h) d 0) (endhosts sc))
               == qsum (map (fun h => c * (dget_or (endhost_uplinks sc) h 0 * / tot))
                         (endhosts sc)))
    by (apply qsum_map_eq; intros h _; apply dget_or_host_demands).
  rewrite E1.
  rewrite (qsum_map_scale_l (endhosts sc)
             (fun h => dget_or (endhost_uplinks sc) h 0 * / tot) c).
  rewrite (qsum_map_scale (endhosts sc) (fun h => dget_or (endhost_uplinks sc) h 0) (/ tot)).
  rewrite <- Hk in Hnd |- *. rewrite (sum_keys_dget _ Hnd).
  change (qsum (map snd (endhost_uplinks sc))) with tot.
  rewrite Qmult_inv_r by exact Hz. ring.
Qed.

Lemma host_demand_split_exact_witness :
  qsum (map (fun h => dget_or (host_demands (two_host_scenario 40)
                                 (total_uplink_of (two_host_scenario 40)) h) "X" 0)
            (endhosts (two_host_scenario 40)))
  == dget_or (traffic_per_destination (two_host_scenario 40)) "X" 0.
Proof.
  apply host_demand_split_exact.
  - reflexivity.
  - simpl. constructor; [intros [H|[]]; discriminate|constructor; [intros []|constructor]].
  - vm_compute. discriminate.
Defined.

(* ------------------------------------------------------------------ *)
(** ** The weighted average latency of [performance_analyzer] *)

Lemma dget_in {V : Type} (m : dict V) (k : string) (v : V) :
  dget m k = Some v -> In (k, v) m.
Proof.
  induction m as [|[k' v'] m IH]; simpl; [discriminate|].
  destruct (String.eqb_spec k k') as [->|_].
  - intros [= ->]. left. reflexivity.
  - intros H. right. exact (IH H).
Qed.

Lemma latency_totals_pa_bounds (pm : dict string) (lat : dict Q) (lo hi : Q) :
  seq_empty lat = false ->
  (forall p e, In (p, e) pm -> e <> "" -> lo <= dget_or lat e 0 <= hi) ->
  forall alloc wls total wls' total',
  (forall kv, In kv alloc -> 0 <= snd kv) ->
  lo * total <= wls -> wls <= hi * total ->
  latency_totals_pa pm lat alloc wls total = Some (wls', total') ->
  lo * total' <= wls' /\ wls' <= hi * total'.
Proof.
  intros Hl Hb alloc. induction alloc as [|[key v] rest IH];
    intros wls total wls' total' Hv Hlo Hhi H; simpl in H.
  - injection H as <- <-. split; assumption.
  - assert (Hr : forall kv, In kv rest -> 0 <= snd kv)
      by (intros kv Hin; apply Hv; right; exact Hin).
    pose proof (Hv (key, v) (or_introl eq_refl)) as Hv0. simpl in Hv0.
    destruct (py_split "_to_" key) as [|h_p [|x parts]]; try discriminate.
    destruct (py_split1 "_" h_p) as [|y [|p ys]]; [exact (IH _ _ _ _ Hr Hlo Hhi H)..|].
    destruct (dget pm p) as [egress|] eqn:Ep; [|exact (IH _ _ _ _ Hr Hlo Hhi H)].
    destruct (String.eqb_spec egress "") as [_|Hne]; [exact (IH _ _ _ _ Hr Hlo Hhi H)|].
    rewrite Hl in H. eapply (IH _ _ wls' total' Hr); [| |exact H].
    + destruct (Hb p egress (dget_in pm p egress Ep) Hne) as [H1 _].
      pose proof (Qmult_le_compat_r _ _ v H1 Hv0). lra.
    + destruct (Hb p egress (dget_in pm p egress Ep) Hne) as [_ H2].
      pose proof (Qmult_le_compat_r _ _ v H2 Hv0). lra.
Qed.

(** Extra: with non-negative traffic volumes and the latencies of all
    mapped egresses between [lo] and [hi], the weighted average latency
    that [analyze_performance] prints lies between [lo] and [hi]. *)
Theorem weighted_average_latency_bounded (pm : dict string) (lat : dict Q)
    (alloc : str_allocation) (lo hi a : Q) :
  (forall kv, In kv alloc -> 0 <= snd kv) ->
  (forall p e, In (p, e) pm -> e <> "" -> lo <= dget_or lat e 0 <= hi) ->
  weighted_average_latency pm lat alloc = Some (Some a) ->
  lo <= a <= hi.
Proof.
  intros Hv Hb. unfold weighted_average_latency.
  destruct (latency_totals_pa pm lat alloc 0 0) as [[wls total]|] eqn:E; [|discriminate].
  destruct (seq_empty lat) eqn:Hl; [discriminate|].
  destruct (qltb 0 total) eqn:Ht; [|discriminate].
  intros [= <-]. apply qltb_true in Ht.
  destruct (latency_totals_pa_bounds pm lat lo hi Hl Hb alloc 0 0 wls total Hv)
    as [H1 H2]; [lra|lra|exact E|].
  split.
  - apply Qle_shift_div_l; [exact Ht|]. lra.
  - apply Qle_shift_div_r; [exact Ht|]. lra.
Qed.

Lemma weighted_average_latency_bounded_witness :
  exists a,
    weighted_average_latency (path_to_egress_mapping (two_host_scenario 40))
      (egress_latencies (two_host_scenario 40))
      [("h1_p_h1_transit_to_X", 20); ("h2_p_h2_peering_to_X", 10)] = Some (Some a) /\
    15 <= a <= 60.
Proof.
  destruct (weighted_average_latency (path_to_egress_mapping (two_host_scenario 40))
      (egress_latencies (two_host_scenario 40))
      [("h1_p_h1_transit_to_X", 20); ("h2_p_h2_peering_to_X", 10)]) as [[a|]|] eqn:E;
    [|vm_compute in E; discriminate..].
  exists a. split; [reflexivity|].
  refine (weighted_average_latency_bounded _ _ _ 15 60 a _ _ E).
  - intros kv [<-|[<-|[]]]; apply Qle_bool_iff; vm_compute; reflexivity.
  - intros p e Hin _. simpl in Hin.
    repeat destruct Hin as [[= _ <-]|Hin];
      try (split; apply Qle_bool_iff; vm_compute; reflexivity).
    destruct Hin.
Defined.

(* ------------------------------------------------------------------ *)
(** ** The key parsing of [total_cost] *)

(** Extra: a path named ["to_peering"] of host ["h1"] gives the key
    ["h1_to_peering_to_X"], whose part before the first ["_to_"] is ["h1"]
    with no underscore: [total_cost] raises [IndexError], so both modes of
    rounds 1 and 3 raise once they put flow on that path, while
    [simulate_fair_share] (which never parses keys) returns a report. *)
Theorem total_cost_index_error :
  let sc := set_paths (two_host_scenario 40)
              [("h1", ["to_peering"]); ("h2", ["p_h2_peering"])]
              [("to_peering", "peering"); ("p_h2_peering", "peering")] in
  path_id_r3 (alloc_key "h1" "to_peering" "X") = None /\
  (forall mode b, run_behavioral_sim_r1 sc mode b = SimRaise "IndexError") /\
  (forall mode, run_behavioral_sim_r3 sc mode = SimRaise "IndexError") /\
  (exists r, simulate_fair_share sc = Some r /\
     alloc_sum (triple_eqb ("h1", "to_peering", "X")) (traffic_allocation r) == 20).
Proof.
  intros sc. split; [vm_compute; reflexivity|]. split; [|split].
  - intros [|] [|]; vm_compute; reflexivity.
  - intros [|]; vm_compute; reflexivity.
  - eexists. split; [vm_compute; reflexivity|]. vm_compute. reflexivity.
Qed.
